(** * A shallow embedding of the ray-tracing visitor and of the
      transformation classes of the ICG project

    Sources embedded here:
    - [src/math/transformation.ts]  (MatrixTransformation, Translation,
      Scaling, Rotation, SQT; the constructor and the setter paths)
    - [src/raytracing/rayvisitor.ts] (RayVisitor: render, visitGroupNode,
      visitNode, visitCameraNode, visitLightNode and the empty visits)
    - [src/boilerplate/phong-boilerplate.ts] (setPixel, animate)
    - [src/unnamed/part_000], the ray-tracing boilerplate (the scene
      graph, animate)
    - [src/rasterisation/raster-texture-box.ts] (the attribute arrays of
      the constructor, calculateTangentsAndBitangents)

    The classes [Vector], [Matrix], [Ray], [Intersection] and the node
    classes are imported by these files but are not part of the sources
    at hand; each of them is introduced below with a doc comment saying
    so.  The shading function [phong], [Ray.makeRay] and the [intersect]
    methods of the unit primitives are kept abstract (class
    [Collaborators]).

    Numbers.  A JavaScript number is modelled as an exact rational or one
    of the three IEEE special values; rounding is idealised, division by
    zero is not.  Where rounding decides a property it is explicit:
    [Binary.round] is the IEEE rounding to nearest, [Math_fround] the
    one of the entries of a [Float32Array], and [Binary64] the
    arithmetic of JavaScript numbers with its rounding. *)

From Stdlib Require Import ZArith QArith Qcanon Qround Lia List Bool.
From stdpp Require Import base list.
Import ListNotations.

(* ================================================================== *)
(** ** JavaScript numbers *)
(* ================================================================== *)

Inductive number : Type :=
| Fin (q : Qc)
| PInf
| NInf
| NaN.

Declare Scope number_scope.
Delimit Scope number_scope with num.
Bind Scope number_scope with number.

Module Num.

Definition of_Z (k : Z) : number := Fin (Q2Qc (inject_Z k)).
Definition of_nat (k : nat) : number := of_Z (Z.of_nat k).
Definition frac (a : Z) (b : positive) : number := Fin (Q2Qc (a # b)).

Definition zero : number := Fin 0%Qc.
Definition one : number := Fin 1%Qc.

Definition Qc_ltb (a b : Qc) : bool :=
  match (a ?= b)%Qc with Lt => true | _ => false end.

Definition Qc_is_zero (a : Qc) : bool := Qeq_bool a 0.

Definition isFinite (a : number) : bool :=
  match a with Fin _ => true | _ => false end.

Definition neg (a : number) : number :=
  match a with
  | Fin q => Fin (- q)%Qc
  | PInf => NInf
  | NInf => PInf
  | NaN => NaN
  end.

Definition add (a b : number) : number :=
  match a, b with
  | Fin p, Fin q => Fin (p + q)%Qc
  | NaN, _ | _, NaN => NaN
  | PInf, NInf | NInf, PInf => NaN
  | PInf, _ | _, PInf => PInf
  | NInf, _ | _, NInf => NInf
  end.

Definition sub (a b : number) : number := add a (neg b).

(** Sign of an infinity scaled by a finite factor: [Infinity * 0] is
    [NaN]. *)
Definition scaleInf (positive_inf : bool) (q : Qc) : number :=
  if Qc_is_zero q then NaN
  else if Bool.eqb positive_inf (Qc_ltb 0 q) then PInf else NInf.

Definition mul (a b : number) : number :=
  match a, b with
  | Fin p, Fin q => Fin (p * q)%Qc
  | NaN, _ | _, NaN => NaN
  | PInf, Fin q | Fin q, PInf => scaleInf true q
  | NInf, Fin q | Fin q, NInf => scaleInf false q
  | PInf, PInf | NInf, NInf => PInf
  | PInf, NInf | NInf, PInf => NInf
  end.

(** [x / 0] is [NaN] for [x = 0] and an infinity otherwise; the sign
    of a zero is not tracked, so the sign of that infinity is the one
    obtained for [+0]. *)
Definition div (a b : number) : number :=
  match a, b with
  | Fin p, Fin q =>
      if Qc_is_zero q then
        if Qc_is_zero p then NaN
        else if Qc_ltb 0 p then PInf else NInf
      else Fin (p / q)%Qc
  | NaN, _ | _, NaN => NaN
  | Fin _, (PInf | NInf) => zero
  | (PInf | NInf), (PInf | NInf) => NaN
  | PInf, Fin q => if Qc_ltb q 0 then NInf else PInf
  | NInf, Fin q => if Qc_ltb q 0 then PInf else NInf
  end.

(** The [<] of JavaScript: every comparison with [NaN] is false. *)
Definition ltb (a b : number) : bool :=
  match a, b with
  | Fin p, Fin q => Qc_ltb p q
  | NInf, (Fin _ | PInf) => true
  | Fin _, PInf => true
  | _, _ => false
  end.

(** Storing a number into a [Uint8ClampedArray] (the [data] of an
    [ImageData]): [NaN] becomes 0, the value is clamped to [0, 255] and
    rounded to the nearest integer, ties to even. *)
Definition toUint8Clamp (a : number) : Z :=
  match a with
  | NaN | NInf => 0
  | PInf => 255
  | Fin q =>
      if Qc_ltb q 0 then 0
      else if Qc_ltb (Q2Qc 255) q then 255
      else
        let f := Qfloor q in
        let half := (Q2Qc (inject_Z f) + Q2Qc (1 # 2))%Qc in
        if Qc_ltb q half then f
        else if Qc_ltb half q then (f + 1)%Z
        else if Z.even f then f else (f + 1)%Z
  end.

End Num.

Infix "+" := Num.add : number_scope.
Infix "-" := Num.sub : number_scope.
Infix "*" := Num.mul : number_scope.
Infix "/" := Num.div : number_scope.
Notation "- a" := (Num.neg a) : number_scope.
Infix "<?" := Num.ltb : number_scope.

(** The distance [|a - b|] is at most [eps]; false as soon as a
    non-finite value is involved. *)
Definition withinEpsilon (eps a b : number) : bool :=
  match (a - b)%num, eps with
  | Fin d, Fin e => negb (Num.Qc_ltb e d) && negb (Num.Qc_ltb e (- d)%Qc)
  | _, _ => false
  end.

(* ================================================================== *)
(** ** Collaborators that are not part of the sources at hand *)
(* ================================================================== *)

(** Modelled from the spec: [math/vector.ts] is missing.  A Vector is a
    homogeneous 4-tuple (x, y, z, w), also read as an (r, g, b) colour. *)
Module Vector.

Record Vector : Type := new { x : number; y : number; z : number; w : number }.

Definition r (v : Vector) : number := x v.
Definition g (v : Vector) : number := y v.
Definition b (v : Vector) : number := z v.

(** Scalar multiple, as used by [translation.mul(-1)]. *)
Definition mul (v : Vector) (k : number) : Vector :=
  new (x v * k) (y v * k) (z v * k) (w v * k).

Definition dot (u v : Vector) : number :=
  (x u * x v + y u * y v + z u * z v + w u * w v)%num.

Definition isFinite (v : Vector) : bool :=
  Num.isFinite (x v) && Num.isFinite (y v) &&
  Num.isFinite (z v) && Num.isFinite (w v).

End Vector.
Abbreviation Vector := Vector.Vector.

(** Modelled from the spec: [math/matrix.ts] is missing.  A Matrix is a
    4x4 affine transform on homogeneous coordinates, kept here as its
    four rows; [mul] is the matrix product, [mulVec] the product with a
    column vector, [translation] and [scaling] the usual affine
    matrices built from the x, y, z of their argument. *)
Module Matrix.

Record Matrix : Type :=
  new { row0 : Vector; row1 : Vector; row2 : Vector; row3 : Vector }.

Definition col (pick : Vector -> number) (m : Matrix) : Vector :=
  Vector.new (pick (row0 m)) (pick (row1 m)) (pick (row2 m)) (pick (row3 m)).

Definition identity : Matrix :=
  new (Vector.new Num.one Num.zero Num.zero Num.zero)
      (Vector.new Num.zero Num.one Num.zero Num.zero)
      (Vector.new Num.zero Num.zero Num.one Num.zero)
      (Vector.new Num.zero Num.zero Num.zero Num.one).

Definition translation (v : Vector) : Matrix :=
  new (Vector.new Num.one Num.zero Num.zero (Vector.x v))
      (Vector.new Num.zero Num.one Num.zero (Vector.y v))
      (Vector.new Num.zero Num.zero Num.one (Vector.z v))
      (Vector.new Num.zero Num.zero Num.zero Num.one).

Definition scaling (v : Vector) : Matrix :=
  new (Vector.new (Vector.x v) Num.zero Num.zero Num.zero)
      (Vector.new Num.zero (Vector.y v) Num.zero Num.zero)
      (Vector.new Num.zero Num.zero (Vector.z v) Num.zero)
      (Vector.new Num.zero Num.zero Num.zero Num.one).

Definition mulVec (m : Matrix) (v : Vector) : Vector :=
  Vector.new (Vector.dot (row0 m) v) (Vector.dot (row1 m) v)
             (Vector.dot (row2 m) v) (Vector.dot (row3 m) v).

Definition mulRow (rw : Vector) (m : Matrix) : Vector :=
  Vector.new (Vector.dot rw (col Vector.x m)) (Vector.dot rw (col Vector.y m))
             (Vector.dot rw (col Vector.z m)) (Vector.dot rw (col Vector.w m)).

Definition mul (a b : Matrix) : Matrix :=
  new (mulRow (row0 a) b) (mulRow (row1 a) b)
      (mulRow (row2 a) b) (mulRow (row3 a) b).

Definition isFinite (m : Matrix) : bool :=
  Vector.isFinite (row0 m) && Vector.isFinite (row1 m) &&
  Vector.isFinite (row2 m) && Vector.isFinite (row3 m).

Definition zipRows (f : number -> number -> bool) (u v : Vector) : bool :=
  f (Vector.x u) (Vector.x v) && f (Vector.y u) (Vector.y v) &&
  f (Vector.z u) (Vector.z v) && f (Vector.w u) (Vector.w v).

(** Entrywise equality within [eps]. *)
Definition equalsWithin (eps : number) (a b : Matrix) : bool :=
  zipRows (withinEpsilon eps) (row0 a) (row0 b) &&
  zipRows (withinEpsilon eps) (row1 a) (row1 b) &&
  zipRows (withinEpsilon eps) (row2 a) (row2 b) &&
  zipRows (withinEpsilon eps) (row3 a) (row3 b).

End Matrix.
Abbreviation Matrix := Matrix.Matrix.

(** [b] is a two-sided inverse of [a]. *)
Definition inverseOf (a b : Matrix) : Prop :=
  Matrix.mul a b = Matrix.identity /\ Matrix.mul b a = Matrix.identity.

(** Modelled from the spec: [math/ray.ts] is missing.  A Ray is an origin
    (a point, w = 1) and a direction (w = 0). *)
Module Ray.
Record Ray : Type := new { origin : Vector; direction : Vector }.
End Ray.
Abbreviation Ray := Ray.Ray.

(** Modelled from the spec: [math/intersection.ts] is missing.  An
    Intersection is a parameter t, a hit point and a normal; "A is closer
    than B iff A.t < B.t". *)
Module Intersection.
Record Intersection : Type := new { t : number; point : Vector; normal : Vector }.

Definition closerThan (a other : Intersection) : bool := (t a <? t other)%num.
End Intersection.
Abbreviation Intersection := Intersection.Intersection.

(** The record passed to [phong] ([PhongValues] of the boilerplate). *)
Record PhongValues : Type :=
  { ambient : number; diffuse : number; specular : number; shininess : number }.

(** The [camera] field of the visitor ([CameraRaytracer]). *)
Module Camera.
Record CameraRaytracer : Type :=
  new { origin : Vector; width : number; height : number; alpha : number;
        toWorld : Matrix }.
End Camera.
Abbreviation CameraRaytracer := Camera.CameraRaytracer.

(** The [camera] argument of [render], an object literal without
    [toWorld]. *)
Record CameraArgument : Type :=
  { arg_origin : Vector; arg_width : number; arg_height : number; arg_alpha : number }.

(** An object with an [intersect] method: what [visitNode] receives as
    [unitObject: any]. *)
Definition UnitObject : Type := Ray -> option Intersection.

(** Everything the two source files call without defining it: the
    numeric built-ins, the unit primitives, the custom mesh constructor,
    the pinhole ray constructor and the shading function. *)
Class Collaborators : Type := {
  Math_sqrt : number -> number;
  Math_PI : number;
  UNIT_SPHERE : UnitObject;
  UNIT_AABOX : UnitObject;
  UNIT_PYRAMID : UnitObject;
  CustomShape : list number -> list number -> Vector -> UnitObject;
  makeRay : number -> number -> CameraRaytracer -> Ray;
  phong : Vector -> Intersection -> list Vector -> PhongValues -> Vector -> Vector
}.

(** Modelled from the spec: [Vector.normalize] of the missing
    [math/vector.ts]; the x, y, z are divided by the Euclidean length. *)
Definition normalize `{Collaborators} (v : Vector) : Vector :=
  let len := Math_sqrt (Vector.x v * Vector.x v + Vector.y v * Vector.y v
                        + Vector.z v * Vector.z v)%num in
  Vector.new (Vector.x v / len) (Vector.y v / len) (Vector.z v / len) (Vector.w v).

(* ================================================================== *)
(** ** [src/math/transformation.ts] *)
(* ================================================================== *)

(** [class MatrixTransformation]: the pair read by [getMatrix] and
    [getInverseMatrix]. *)
Record MatrixTransformation : Type :=
  { matrix : Matrix; inverse : Matrix }.

Definition getMatrix (tr : MatrixTransformation) : Matrix := matrix tr.
Definition getInverseMatrix (tr : MatrixTransformation) : Matrix := inverse tr.

Module Translation.

Record Translation : Type :=
  { super : MatrixTransformation; _translationVector : Vector }.

Definition new (translation : Vector) : Translation :=
  {| super := {| matrix := Matrix.translation translation;
                 inverse := Matrix.translation (Vector.mul translation (- Num.one)) |};
     _translationVector := translation |}.

Definition recalculate (this : Translation) : Translation :=
  {| super := {| matrix := Matrix.translation (_translationVector this);
                 inverse := Matrix.translation
                              (Vector.mul (_translationVector this) (- Num.one)) |};
     _translationVector := _translationVector this |}.

Definition set_translationVector (this : Translation) (tranlation : Vector) : Translation :=
  recalculate {| super := super this; _translationVector := tranlation |}.

End Translation.

Module Scaling.

Record Scaling : Type :=
  { super : MatrixTransformation; _scaleVector : Vector }.

Definition new (scale : Vector) : Scaling :=
  {| super := {| matrix := Matrix.scaling scale;
                 inverse := Matrix.scaling
                              (Vector.new (Num.one / Vector.x scale)
                                          (Num.one / Vector.y scale)
                                          (Num.one / Vector.z scale)
                                          Num.zero) |};
     _scaleVector := scale |}.

Definition recalculate (this : Scaling) : Scaling :=
  {| super := {| matrix := Matrix.scaling (_scaleVector this);
                 inverse := Matrix.scaling
                              (Vector.mul (_scaleVector this) (- Num.one)) |};
     _scaleVector := _scaleVector this |}.

Definition set_scale (this : Scaling) (scale : Vector) : Scaling :=
  recalculate {| super := super this; _scaleVector := scale |}.

End Scaling.

Module Rotation.
Section WithRotationMatrix.

(** [Matrix.rotation(axis, angle)] of the missing [math/matrix.ts]. *)
Variable Matrix_rotation : Vector -> number -> Matrix.

Record Rotation : Type :=
  { super : MatrixTransformation; _axis : Vector; _angle : number }.

Definition new (axis : Vector) (angle : number) : Rotation :=
  {| super := {| matrix := Matrix_rotation axis angle;
                 inverse := Matrix_rotation axis (- angle) |};
     _axis := axis; _angle := angle |}.

Definition recalculate (this : Rotation) : Rotation :=
  {| super := {| matrix := Matrix_rotation (_axis this) (_angle this);
                 inverse := Matrix_rotation (_axis this) (- _angle this) |};
     _axis := _axis this; _angle := _angle this |}.

Definition set_axis (this : Rotation) (axis : Vector) : Rotation :=
  recalculate {| super := super this; _axis := axis; _angle := _angle this |}.

Definition set_angle (this : Rotation) (angle : number) : Rotation :=
  recalculate {| super := super this; _axis := _axis this; _angle := angle |}.

End WithRotationMatrix.
End Rotation.

(* ================================================================== *)
(** ** Scene graph and JavaScript control flow *)
(* ================================================================== *)

(** Modelled from the spec: [nodes.ts] is missing.  The node classes are
    the ones of the [Visitor] interface ([src/visitor.ts]); a GroupNode
    owns a transformation and an ordered list of children, a shape node
    owns a flat colour, which JavaScript lets be absent. *)
#[warnings="-register-all"] Inductive Node : Type :=
| GroupNode (transform : MatrixTransformation) (children : list Node)
| SphereNode (color : option Vector)
| AABoxNode (color : option Vector)
| PyramidNode (color : option Vector)
| CustomShapeNode (vertices indices : list number) (color : option Vector)
| CameraNode
| LightNode
| TextureBoxNode
| TextureVideoBoxNode
| TextureTextBoxNode
| TexturePyramidNode.

(** [node.color] of a shape node. *)
Definition Node_color (node : Node) : option Vector :=
  match node with
  | SphereNode c | AABoxNode c | PyramidNode c | CustomShapeNode _ _ c => c
  | _ => None
  end.

(** A call either returns or throws; the only exception the visitor can
    raise is the [TypeError] of a property read on [undefined]. *)
Inductive JSError : Type := TypeError.

Inductive outcome (A : Type) : Type :=
| Returns (a : A)
| Throws (e : JSError).
Arguments Returns {A} a.
Arguments Throws {A} e.

Definition bind {A B : Type} (m : outcome A) (k : A -> outcome B) : outcome B :=
  match m with
  | Returns a => k a
  | Throws e => Throws e
  end.

Notation "'do' a <- m ; k" := (bind m (fun a => k))
  (at level 10, a name, m at level 100, k at level 200).

(** [for (const a of l) body(a)] over a state that is threaded through. *)
Definition forEach {A S : Type} (body : A -> S -> outcome S) : list A -> S -> outcome S :=
  fix loop (l : list A) (s : S) {struct l} : outcome S :=
    match l with
    | [] => Returns s
    | a :: rest => do s' <- body a s; loop rest s'
    end.

(** [ImageData]: [data] is a [Uint8ClampedArray] of 4 bytes per pixel;
    a write past its end is ignored, as [<[ i := v ]>] does. *)
Module ImageData.
Record ImageData : Type := new { width : nat; height : nat; data : list Z }.

(** What [context.getImageData(0, 0, width, height)] hands out. *)
Definition wellFormed (img : ImageData) : Prop :=
  length (data img) = 4 * (width img * height img).
End ImageData.
Abbreviation ImageData := ImageData.ImageData.

(* ================================================================== *)
(** ** [src/raytracing/rayvisitor.ts] *)
(* ================================================================== *)

Module RayVisitor.

(** The fields of [class RayVisitor].  A field that has never been
    assigned is [undefined], here [None]. *)
Record RayVisitor : Type := new {
  imageData : ImageData;
  transformations : list Matrix;
  inverseTransformations : list Matrix;
  intersection : option Intersection;
  intersectionColor : option Vector;
  ray : option Ray;
  camera : option CameraRaytracer;
  lightPositions : list Vector;
  objectIntersections : list (Intersection * Ray * Node);
  x : nat;
  y : nat
}.

(** The constructor only stores the image data of the canvas. *)
Definition constructor (canvas : nat -> Z) (width height : nat) : RayVisitor :=
  new (ImageData.new width height (map canvas (seq 0 (4 * (width * height)))))
      [] [] None None None None [] [] 0 0.

Definition set_data (d : list Z) (this : RayVisitor) : RayVisitor :=
  new (ImageData.new (ImageData.width (imageData this))
                     (ImageData.height (imageData this)) d)
      (transformations this) (inverseTransformations this) (intersection this)
      (intersectionColor this) (ray this) (camera this) (lightPositions this)
      (objectIntersections this) (x this) (y this).

Definition set_transformations (l : list Matrix) (this : RayVisitor) : RayVisitor :=
  new (imageData this) l (inverseTransformations this) (intersection this)
      (intersectionColor this) (ray this) (camera this) (lightPositions this)
      (objectIntersections this) (x this) (y this).

Definition set_inverseTransformations (l : list Matrix) (this : RayVisitor) : RayVisitor :=
  new (imageData this) (transformations this) l (intersection this)
      (intersectionColor this) (ray this) (camera this) (lightPositions this)
      (objectIntersections this) (x this) (y this).

Definition set_intersection (i : option Intersection) (this : RayVisitor) : RayVisitor :=
  new (imageData this) (transformations this) (inverseTransformations this) i
      (intersectionColor this) (ray this) (camera this) (lightPositions this)
      (objectIntersections this) (x this) (y this).

Definition set_intersectionColor (c : option Vector) (this : RayVisitor) : RayVisitor :=
  new (imageData this) (transformations this) (inverseTransformations this)
      (intersection this) c (ray this) (camera this) (lightPositions this)
      (objectIntersections this) (x this) (y this).

Definition set_ray (r : option Ray) (this : RayVisitor) : RayVisitor :=
  new (imageData this) (transformations this) (inverseTransformations this)
      (intersection this) (intersectionColor this) r (camera this)
      (lightPositions this) (objectIntersections this) (x this) (y this).

Definition set_camera (c : option CameraRaytracer) (this : RayVisitor) : RayVisitor :=
  new (imageData this) (transformations this) (inverseTransformations this)
      (intersection this) (intersectionColor this) (ray this) c
      (lightPositions this) (objectIntersections this) (x this) (y this).

Definition set_lightPositions (l : list Vector) (this : RayVisitor) : RayVisitor :=
  new (imageData this) (transformations this) (inverseTransformations this)
      (intersection this) (intersectionColor this) (ray this) (camera this) l
      (objectIntersections this) (x this) (y this).

Definition set_objectIntersections (l : list (Intersection * Ray * Node))
    (this : RayVisitor) : RayVisitor :=
  new (imageData this) (transformations this) (inverseTransformations this)
      (intersection this) (intersectionColor this) (ray this) (camera this)
      (lightPositions this) l (x this) (y this).

Definition set_xy (px py : nat) (this : RayVisitor) : RayVisitor :=
  new (imageData this) (transformations this) (inverseTransformations this)
      (intersection this) (intersectionColor this) (ray this) (camera this)
      (lightPositions this) (objectIntersections this) px py.

(** [a[a.length - 1]] is stdpp's [last]; [a.push(m)] appends at the
    end; [a.pop()] drops the last element and leaves [[]] alone. *)
Definition push {A : Type} (a : list A) (m : A) : list A := a ++ [m].
Definition pop {A : Type} (a : list A) : list A := removelast a.

(** Reading a method of [a[a.length - 1]]: a [TypeError] on an empty
    array. *)
Definition top (a : list Matrix) : outcome Matrix :=
  match last a with
  | Some m => Returns m
  | None => Throws TypeError
  end.

Definition originPoint : Vector :=
  Vector.new Num.zero Num.zero Num.zero Num.one.

Section Visits.
Context `{Collaborators}.

(** [visitNode(node, unitObject)], lines 158-175. *)
Definition visitNode (node : Node) (unitObject : UnitObject)
    (this : RayVisitor) : outcome RayVisitor :=
  let toWorld := top (transformations this) in
  let fromWorld := top (inverseTransformations this) in
  do fromWorld <- fromWorld;
  match RayVisitor.ray this with
  | None => Throws TypeError
  | Some thisRay =>
      let ray := Ray.new (Matrix.mulVec fromWorld (Ray.origin thisRay))
                         (normalize (Matrix.mulVec fromWorld (Ray.direction thisRay))) in
      match unitObject ray with
      | None => Returns this
      | Some intersection =>
          let this := set_objectIntersections
                        (push (objectIntersections this) (intersection, ray, node)) this in
          do toWorld <- toWorld;
          let intersectionPointWorld :=
            Matrix.mulVec toWorld (Intersection.point intersection) in
          let intersectionNormalWorld :=
            normalize (Matrix.mulVec toWorld (Intersection.normal intersection)) in
          let intersection :=
            Intersection.new
              ((Vector.x intersectionPointWorld - Vector.x (Ray.origin ray))
               / Vector.x (Ray.direction ray))
              intersectionPointWorld intersectionNormalWorld in
          let replace :=
            match RayVisitor.intersection this with
            | None => true
            | Some best => Intersection.closerThan intersection best
            end in
          if replace
          then Returns (set_intersectionColor (Node_color node)
                          (set_intersection (Some intersection) this))
          else Returns this
      end
  end.

(** [visitCameraNode()], lines 177-188. *)
Definition visitCameraNode (this : RayVisitor) : outcome RayVisitor :=
  do toWorld <- top (transformations this);
  let camera :=
    Camera.new (Matrix.mulVec toWorld originPoint)
               (Num.of_Z 100) (Num.of_Z 100) (Math_PI / Num.of_Z 3) toWorld in
  let this := set_camera (Some camera) this in
  Returns (set_ray (Some (makeRay (Num.of_nat (x this)) (Num.of_nat (y this)) camera))
                   this).

(** [visitLightNode()], lines 190-193. *)
Definition visitLightNode (this : RayVisitor) : outcome RayVisitor :=
  do toWorld <- top (transformations this);
  Returns (set_lightPositions
             (push (lightPositions this) (Matrix.mulVec toWorld originPoint)) this).

(** [visitGroupNode(node)], lines 124-133; [accept] is the dispatch
    of the children. *)
Definition visitGroupNode (accept : Node -> RayVisitor -> outcome RayVisitor)
    (transform : MatrixTransformation) (children : list Node)
    (this : RayVisitor) : outcome RayVisitor :=
  do topMatrix <- top (transformations this);
  let this := set_transformations
                (push (transformations this)
                      (Matrix.mul topMatrix (getMatrix transform))) this in
  do topInverse <- top (inverseTransformations this);
  let this := set_inverseTransformations
                (push (inverseTransformations this)
                      (Matrix.mul (getInverseMatrix transform) topInverse)) this in
  do this <- forEach accept children this;
  let this := set_transformations (pop (transformations this)) this in
  Returns (set_inverseTransformations (pop (inverseTransformations this)) this).

(** [node.accept(visitor)]: the double dispatch of the node classes
    onto the visit methods, lines 124-156. *)
Fixpoint accept (node : Node) (this : RayVisitor) {struct node} : outcome RayVisitor :=
  match node with
  | GroupNode transform children => visitGroupNode accept transform children this
  | SphereNode _ => visitNode node UNIT_SPHERE this
  | PyramidNode _ => visitNode node UNIT_PYRAMID this
  | AABoxNode _ => visitNode node UNIT_AABOX this
  | CustomShapeNode vertices indices _ =>
      visitNode node (CustomShape vertices indices originPoint) this
  | CameraNode => visitCameraNode this
  | LightNode => visitLightNode this
  | TextureBoxNode | TextureVideoBoxNode | TextureTextBoxNode
  | TexturePyramidNode => Returns this
  end.

(** The statements at the head of the loop body, lines 89-97. *)
Definition resetPixel (px py : nat) (this : RayVisitor) : RayVisitor :=
  let this := set_xy px py this in
  let this := set_transformations [] this in
  let this := set_inverseTransformations [] this in
  let this := set_objectIntersections [] this in
  let this := set_transformations (push (transformations this) Matrix.identity) this in
  let this := set_inverseTransformations
                (push (inverseTransformations this) Matrix.identity) this in
  let this := set_lightPositions [] this in
  set_intersection None this.

(** The four writes [data[4 * (width * y + x) + c] = v], lines
    103-106 and 109-112. *)
Definition writePixel (width px py : nat) (r g b a : Z) (d : list Z) : list Z :=
  let d := <[4 * (width * py + px) + 0 := r]> d in
  let d := <[4 * (width * py + px) + 1 := g]> d in
  let d := <[4 * (width * py + px) + 2 := b]> d in
  <[4 * (width * py + px) + 3 := a]> d.

(** The [if (this.intersection)] at the end of the loop body, lines
    101-114. *)
Definition shadePixel (phongValues : PhongValues) (width px py : nat)
    (this : RayVisitor) : outcome RayVisitor :=
  let data := ImageData.data (imageData this) in
  match intersection this with
  | None => Returns this
  | Some best =>
      match intersectionColor this with
      | None => Returns (set_data (writePixel width px py 0 0 0 255 data) this)
      | Some intersectionColor =>
          match camera this with
          | None => Throws TypeError
          | Some cam =>
              let color := phong intersectionColor best (lightPositions this)
                                 phongValues (Camera.origin cam) in
              Returns (set_data
                (writePixel width px py
                   (Num.toUint8Clamp (Vector.r color * Num.of_Z 255))
                   (Num.toUint8Clamp (Vector.g color * Num.of_Z 255))
                   (Num.toUint8Clamp (Vector.b color * Num.of_Z 255))
                   255 data) this)
          end
      end
  end.

(** One iteration of the inner loop, lines 89-114. *)
Definition renderPixel (rootNode : Node) (phongValues : PhongValues)
    (width : nat) (p : nat * nat) (this : RayVisitor) : outcome RayVisitor :=
  let this := resetPixel (fst p) (snd p) this in
  do this <- accept rootNode this;
  shadePixel phongValues width (fst p) (snd p) this.

(** [render(rootNode, camera, lightPositions, phongValues)], lines
    74-118.  The state returned carries the image data handed to
    [putImageData]. *)
Definition render (rootNode : Node) (camera : CameraArgument)
    (lightPositions : list Vector) (phongValues : PhongValues)
    (this : RayVisitor) : outcome RayVisitor :=
  let data := ImageData.data (imageData this) in
  let this := set_data (replicate (length data) 0%Z) this in
  let width := ImageData.width (imageData this) in
  let height := ImageData.height (imageData this) in
  forEach (fun px => forEach (fun py => renderPixel rootNode phongValues width (px, py))
                             (seq 0 height))
          (seq 0 width) this.

End Visits.

End RayVisitor.
Abbreviation RayVisitor := RayVisitor.RayVisitor.

(* ================================================================== *)
(** ** A concrete set of collaborators, to run the visitor on examples *)
(* ================================================================== *)

Module Sample.

(** A square root that is exact on the squares of rationals, which is
    all the examples below feed it. *)
Definition sqrt (a : number) : number :=
  match a with
  | Fin q =>
      if Num.Qc_ltb q 0 then NaN
      else Fin (Q2Qc (Z.sqrt (Qnum q) # Pos.sqrt (Qden q)))
  | PInf => PInf
  | NInf | NaN => NaN
  end.

(** The double nearest to pi. *)
Definition PI : number := Num.frac 884279719003555 281474976710656.

Definition add (u v : Vector) : Vector :=
  Vector.new (Vector.x u + Vector.x v) (Vector.y u + Vector.y v)
             (Vector.z u + Vector.z v) (Vector.w u + Vector.w v).

(** Modelled from the spec: [objects/sphere.ts] is missing.  Unit
    sphere at the origin: the quadratic of the implicit equation for a
    unit direction, a miss when the discriminant is not positive, the
    smaller positive root otherwise, the positive one when the origin
    lies inside; the normal is the hit point read as a direction. *)
Definition unitSphere : UnitObject := fun ray =>
  let o := Ray.origin ray in
  let d := Ray.direction ray in
  let x0 := Vector.new (Vector.x o) (Vector.y o) (Vector.z o) Num.zero in
  let b := Vector.dot d x0 in
  let c := (Vector.dot x0 x0 - Num.one)%num in
  let disc := (b * b - c)%num in
  if (Num.zero <? disc)%num then
    let t1 := (- b - sqrt disc)%num in
    let t2 := (- b + sqrt disc)%num in
    let hit (t : number) :=
      let p := add o (Vector.mul d t) in
      Some (Intersection.new t
              (Vector.new (Vector.x p) (Vector.y p) (Vector.z p) Num.one)
              (Vector.new (Vector.x p) (Vector.y p) (Vector.z p) Num.zero)) in
    if (Num.zero <? t1)%num then hit t1
    else if (Num.zero <? t2)%num then hit t2
    else None
  else None.

(** A primitive that is never hit stands for the shapes the examples
    do not use. *)
Definition neverHit : UnitObject := fun _ => None.

(** A camera that looks down its negative z axis through every pixel. *)
Definition axisRay (px py : number) (cam : CameraRaytracer) : Ray :=
  Ray.new (Camera.origin cam)
          (Matrix.mulVec (Camera.toWorld cam)
             (Vector.new Num.zero Num.zero (- Num.one) Num.zero)).

(** Ambient term only. *)
Definition ambientOnly (color : Vector) (i : Intersection) (lights : list Vector)
    (pv : PhongValues) (eye : Vector) : Vector :=
  Vector.mul color (ambient pv).

Definition collaborators : Collaborators :=
  {| Math_sqrt := sqrt;
     Math_PI := PI;
     UNIT_SPHERE := unitSphere;
     UNIT_AABOX := neverHit;
     UNIT_PYRAMID := neverHit;
     CustomShape := fun _ _ _ => neverHit;
     makeRay := axisRay;
     phong := ambientOnly |}.

Definition phongValues : PhongValues :=
  {| ambient := Num.frac 8 10; diffuse := Num.frac 5 10;
     specular := Num.frac 5 10; shininess := Num.of_Z 10 |}.

Definition cameraArgument : CameraArgument :=
  {| arg_origin := RayVisitor.originPoint; arg_width := Num.of_Z 2;
     arg_height := Num.of_Z 2; arg_alpha := (PI / Num.of_Z 3)%num |}.

Definition vec (a b c d : Z) : Vector :=
  Vector.new (Num.of_Z a) (Num.of_Z b) (Num.of_Z c) (Num.of_Z d).

(** [new GroupNode(new Translation(v))]. *)
Definition translated (v : Vector) (children : list Node) : Node :=
  GroupNode (Translation.super (Translation.new v)) children.

(** A visitor on a black 2x2 canvas. *)
Definition visitor : RayVisitor := RayVisitor.constructor (fun _ => 0%Z) 2 2.

End Sample.

(* ================================================================== *)
(** ** Notions used to state the properties *)
(* ================================================================== *)

(** Vectors and matrices all of whose entries are finite. *)
Definition finVector (a b c d : Qc) : Vector :=
  Vector.new (Fin a) (Fin b) (Fin c) (Fin d).

Definition QcRow : Type := (Qc * Qc * Qc * Qc)%type.

Definition finRow (r : QcRow) : Vector :=
  let '(a, b, c, d) := r in finVector a b c d.

Definition finMatrix (r0 r1 r2 r3 : QcRow) : Matrix :=
  Matrix.new (finRow r0) (finRow r1) (finRow r2) (finRow r3).

(** [getMatrix().mul(getInverseMatrix())]. *)
Definition inverseProduct (tr : MatrixTransformation) : Matrix :=
  Matrix.mul (getMatrix tr) (getInverseMatrix tr).

Definition isGroup (node : Node) : bool :=
  match node with GroupNode _ _ => true | _ => false end.

Definition returned {A : Type} (o : outcome A) : bool :=
  match o with Returns _ => true | Throws _ => false end.

(** What a visit leaves alone: both stacks, the image, the pixel
    coordinates; and a ray, once there, stays. *)
Record frame (s s' : RayVisitor) : Prop := {
  frame_transformations :
    RayVisitor.transformations s' = RayVisitor.transformations s;
  frame_inverseTransformations :
    RayVisitor.inverseTransformations s' = RayVisitor.inverseTransformations s;
  frame_imageData : RayVisitor.imageData s' = RayVisitor.imageData s;
  frame_x : RayVisitor.x s' = RayVisitor.x s;
  frame_y : RayVisitor.y s' = RayVisitor.y s;
  frame_ray : RayVisitor.ray s <> None -> RayVisitor.ray s' <> None
}.

(** A state from which every traversal returns: a ray is there and
    neither stack is empty. *)
Definition ready (s : RayVisitor) : Prop :=
  RayVisitor.ray s <> None /\ RayVisitor.transformations s <> [] /\
  RayVisitor.inverseTransformations s <> [].

(** The pixels in the order in which the two nested loops of [render]
    reach them: x outermost. *)
Definition pixelOrder (width height : nat) : list (nat * nat) :=
  flat_map (fun px => map (pair px) (seq 0 height)) (seq 0 width).

(** Channel [c] of pixel [p] in a buffer of the given width. *)
Definition pixelAt (width : nat) (d : list Z) (p : nat * nat) (c : nat) : option Z :=
  d !! (4 * (width * snd p + fst p) + c).

Abbreviation bufferOf s := (ImageData.data (RayVisitor.imageData s)).

(** A value a [Uint8ClampedArray] can hold. *)
Definition isByte (v : Z) : Prop := (0 <= v <= 255)%Z.

(** The world positions of the light nodes below [node], in traversal
    order, when [toWorld] is on top of the matrix stack. *)
Fixpoint gatheredLights (toWorld : Matrix) (node : Node) {struct node} : list Vector :=
  match node with
  | GroupNode transform children =>
      flat_map (gatheredLights (Matrix.mul toWorld (getMatrix transform))) children
  | LightNode => [Matrix.mulVec toWorld RayVisitor.originPoint]
  | _ => []
  end.

(** The same collaborators with another shading function. *)
Definition withPhong (C : Collaborators)
    (shade : Vector -> Intersection -> list Vector -> PhongValues -> Vector -> Vector)
    : Collaborators :=
  {| Math_sqrt := @Math_sqrt C; Math_PI := @Math_PI C;
     UNIT_SPHERE := @UNIT_SPHERE C; UNIT_AABOX := @UNIT_AABOX C;
     UNIT_PYRAMID := @UNIT_PYRAMID C; CustomShape := @CustomShape C;
     makeRay := @makeRay C; phong := shade |}.

Section Derived.
Context `{Collaborators}.

(** The object-space ray built at line 162. *)
Definition objectRay (fromWorld : Matrix) (thisRay : Ray) : Ray :=
  Ray.new (Matrix.mulVec fromWorld (Ray.origin thisRay))
          (normalize (Matrix.mulVec fromWorld (Ray.direction thisRay))).

(** The intersection built at lines 167-169 from an object-space hit. *)
Definition worldIntersection (toWorld : Matrix) (ray : Ray) (hit : Intersection)
    : Intersection :=
  let intersectionPointWorld := Matrix.mulVec toWorld (Intersection.point hit) in
  Intersection.new
    ((Vector.x intersectionPointWorld - Vector.x (Ray.origin ray))
     / Vector.x (Ray.direction ray))
    intersectionPointWorld
    (normalize (Matrix.mulVec toWorld (Intersection.normal hit))).

(** The candidate a shape node offers in a given state, if any. *)
Definition candidate (unitObject : UnitObject) (this : RayVisitor) : option Intersection :=
  match last (RayVisitor.inverseTransformations this),
        last (RayVisitor.transformations this), RayVisitor.ray this with
  | Some fromWorld, Some toWorld, Some thisRay =>
      option_map (worldIntersection toWorld (objectRay fromWorld thisRay))
                 (unitObject (objectRay fromWorld thisRay))
  | _, _, _ => None
  end.

End Derived.

(** The parameter of a hit measured along the world ray: the offset of
    the world hit point from the origin of the world ray, over the x
    component of the direction of the world ray. *)
Definition worldParameter (worldRay : Ray) (i : Intersection) : number :=
  ((Vector.x (Intersection.point i) - Vector.x (Ray.origin worldRay))
   / Vector.x (Ray.direction worldRay))%num.

(** Scenes and states for the examples. *)
Module Examples.
#[local] Existing Instance Sample.collaborators.

Definition red : Vector := Sample.vec 1 0 0 1.
Definition blue : Vector := Sample.vec 0 0 1 1.
Definition two : Vector := Sample.vec 2 2 2 0.

Definition unmoved : MatrixTransformation :=
  Translation.super (Translation.new (Sample.vec 0 0 0 0)).

Definition lightBeforeCamera : Node := GroupNode unmoved [LightNode; CameraNode].
Definition cameraOnly : Node := GroupNode unmoved [CameraNode].
Definition cameraThenSphere : Node :=
  Sample.translated (Sample.vec 0 0 (-5) 0) [CameraNode; SphereNode (Some red)].
Definition sphereThenCamera : Node :=
  Sample.translated (Sample.vec 0 0 (-5) 0) [SphereNode (Some red); CameraNode].
Definition colourlessSphere : Node :=
  Sample.translated (Sample.vec 0 0 (-5) 0) [CameraNode; SphereNode None].

(** [visitor.render(rootNode, camera, [], phongValues)]. *)
Definition run (rootNode : Node) (this : RayVisitor) : outcome RayVisitor :=
  RayVisitor.render rootNode Sample.cameraArgument [] Sample.phongValues this.

(** The state a call leaves behind, or [fallback] after an exception. *)
Definition stateOf (fallback : RayVisitor) (o : outcome RayVisitor) : RayVisitor :=
  match o with Returns s => s | Throws _ => fallback end.

Definition bestOf (o : outcome RayVisitor) : option Intersection :=
  match o with
  | Returns s => RayVisitor.intersection s
  | Throws _ => None
  end.

(** The state in which the traversal of a pixel continues once a
    camera at the world origin has cast [worldRay]. *)
Definition afterCamera (worldRay : Ray) : RayVisitor :=
  RayVisitor.set_ray (Some worldRay)
    (RayVisitor.set_camera
       (Some (Camera.new RayVisitor.originPoint (Num.of_Z 100) (Num.of_Z 100)
                         (Sample.PI / Num.of_Z 3) Matrix.identity))
       (RayVisitor.resetPixel 0 0 Sample.visitor)).

(** That state below [new GroupNode(new Translation(v))]. *)
Definition below (v : Vector) (worldRay : Ray) : RayVisitor :=
  RayVisitor.set_inverseTransformations
    [Matrix.identity; Matrix.translation (Vector.mul v (- Num.one))]
    (RayVisitor.set_transformations [Matrix.identity; Matrix.translation v]
       (afterCamera worldRay)).

(** A unit ray from the world origin towards (5, 0, -12), and a unit
    sphere centred there, 13 units down that ray. *)
Definition slantedRay : Ray :=
  Ray.new RayVisitor.originPoint
          (Vector.new (Num.frac 5 13) Num.zero (Num.frac (-12) 13) Num.zero).

Definition sphereOnSlantedRay : Node :=
  Sample.translated (Sample.vec 5 0 (-12) 0) [SphereNode (Some red)].

(** The ray straight down the negative z axis, and the scene of the
    boilerplate: a unit sphere translated by (0, 0, -5). *)
Definition axisRay : Ray :=
  Ray.new RayVisitor.originPoint (Sample.vec 0 0 (-1) 0).

Definition sphereOnAxis : Node :=
  Sample.translated (Sample.vec 0 0 (-5) 0) [SphereNode (Some red)].

Definition belowSlanted : RayVisitor := below (Sample.vec 5 0 (-12) 0) slantedRay.
Definition belowAxis : RayVisitor := below (Sample.vec 0 0 (-5) 0) axisRay.

Definition afterRedSphere : RayVisitor :=
  stateOf belowSlanted
    (RayVisitor.visitNode (SphereNode (Some red)) Sample.unitSphere belowSlanted).

Definition noHit : Intersection :=
  Intersection.new NaN RayVisitor.originPoint RayVisitor.originPoint.

Definition hitOf (s : RayVisitor) : Intersection :=
  match RayVisitor.intersection s with Some i => i | None => noHit end.

Definition candidateOf (s : RayVisitor) : Intersection :=
  match candidate Sample.unitSphere s with Some i => i | None => noHit end.

End Examples.

(* ================================================================== *)
(** ** Binary floating point *)
(* ================================================================== *)

(** Rounding to a binary floating-point format, to nearest with ties to
    even, as IEEE 754 prescribes it for the arithmetic of JavaScript
    numbers (binary64) and for the entries of a [Float32Array]
    (binary32).  The sign of a zero is not tracked. *)
Module Binary.

(** The power [2^e] of two. *)
Definition pow2 (e : Z) : Q :=
  if (0 <=? e)%Z then inject_Z (2 ^ e) else 1 # Z.to_pos (2 ^ (- e)).

(** The exponent of a positive rational: the largest [e] with
    [2^e <= q]. *)
Definition exponent (q : Q) : Z :=
  let e := (Z.log2 (Qnum q) - Z.log2 (Zpos (Qden q)))%Z in
  if Qle_bool (pow2 e) q then e else (e - 1)%Z.

(** The integer nearest to a rational that is not negative; of two
    nearest integers the even one. *)
Definition nearestEven (q : Q) : Z :=
  let f := (Qnum q / Zpos (Qden q))%Z in
  match (2 * (Qnum q mod Zpos (Qden q)) ?= Zpos (Qden q))%Z with
  | Lt => f
  | Gt => (f + 1)%Z
  | Eq => if Z.even f then f else (f + 1)%Z
  end.

(** A positive rational in the format with [prec] bits of precision and
    the exponents [emin .. emax]: below [2^emin] the spacing is that of
    the subnormal numbers, and what rounds up to [2^(emax+1)] is
    [Infinity]. *)
Definition roundPositive (prec emin emax : Z) (q : Q) : number :=
  let e := Z.max (exponent q) emin in
  let ulp := pow2 (e - prec + 1) in
  let r := (inject_Z (nearestEven (q / ulp)) * ulp)%Q in
  if Qle_bool (pow2 (emax + 1)) r then PInf else Fin (Q2Qc r).

Definition round (prec emin emax : Z) (a : number) : number :=
  match a with
  | Fin q =>
      if Num.Qc_is_zero q then Fin q
      else if Num.Qc_ltb q 0 then Num.neg (roundPositive prec emin emax (- q)%Qc)
      else roundPositive prec emin emax q
  | _ => a
  end.

End Binary.

(** [Math.fround]: the nearest binary32 number, which is what an entry
    of a [Float32Array] holds. *)
Definition Math_fround (a : number) : number := Binary.round 24 (-126) 127 a.

(** The arithmetic of JavaScript numbers with its rounding: every
    operation yields the binary64 number nearest to the exact
    result. *)
Module Binary64.

Definition round (a : number) : number := Binary.round 53 (-1022) 1023 a.

(** A rational that is a binary64 number. *)
Definition representable (q : Qc) : bool :=
  match round (Fin q) with
  | Fin r => Qeq_bool r q
  | _ => false
  end.

Definition add (a b : number) : number := round (a + b).
Definition mul (a b : number) : number := round (a * b).
Definition div (a b : number) : number := round (a / b).

Module Vector.
Definition dot (u v : Vector) : number :=
  add (add (add (mul (Vector.x u) (Vector.x v)) (mul (Vector.y u) (Vector.y v)))
           (mul (Vector.z u) (Vector.z v)))
      (mul (Vector.w u) (Vector.w v)).
End Vector.

(** The matrix product of [math/matrix.ts] in this arithmetic. *)
Module Matrix.
Definition mulRow (rw : Vector) (m : Matrix) : Vector :=
  Vector.new (Vector.dot rw (Matrix.col Vector.x m)) (Vector.dot rw (Matrix.col Vector.y m))
             (Vector.dot rw (Matrix.col Vector.z m)) (Vector.dot rw (Matrix.col Vector.w m)).

Definition mul (a b : Matrix) : Matrix :=
  Matrix.new (mulRow (Matrix.row0 a) b) (mulRow (Matrix.row1 a) b)
             (mulRow (Matrix.row2 a) b) (mulRow (Matrix.row3 a) b).
End Matrix.

End Binary64.

(* ================================================================== *)
(** ** More of [src/math/transformation.ts] *)
(* ================================================================== *)

(** [class SQT], lines 123-155.  [math/quaternion.ts] is not part of the
    sources at hand: the quaternion type, [Quaternion.fromAxisAngle],
    [toMatrix()] and the [inverse] getter are parameters.  The
    reciprocals of the scale and the products of the three matrices
    are computed in binary64, rounding included. *)
Module SQT.
Section WithQuaternion.

Variable Quaternion : Type.
Variable fromAxisAngle : Vector -> number -> Quaternion.
Variable toMatrix : Quaternion -> Matrix.
Variable inverseOfQuaternion : Quaternion -> Quaternion.

Record SQT : Type :=
  { super : MatrixTransformation; scale : Vector; quaternion : Quaternion;
    translation : Vector }.

Definition recalculate (this : SQT) : SQT :=
  {| super :=
       {| matrix :=
            Binary64.Matrix.mul
              (Binary64.Matrix.mul (Matrix.translation (translation this))
                                   (toMatrix (quaternion this)))
              (Matrix.scaling (scale this));
          inverse :=
            Binary64.Matrix.mul
              (Binary64.Matrix.mul
                 (Matrix.scaling
                    (Vector.new (Binary64.div Num.one (Vector.x (scale this)))
                                (Binary64.div Num.one (Vector.y (scale this)))
                                (Binary64.div Num.one (Vector.z (scale this)))
                                Num.zero))
                 (toMatrix (inverseOfQuaternion (quaternion this))))
              (Matrix.translation (Vector.mul (translation this) (- Num.one))) |};
     scale := scale this; quaternion := quaternion this;
     translation := translation this |}.

Definition new (scale : Vector) (angle : number) (axis : Vector) (translation : Vector)
    : SQT :=
  recalculate
    {| super := {| matrix := Matrix.identity; inverse := Matrix.identity |};
       scale := scale; quaternion := fromAxisAngle axis angle;
       translation := translation |}.

Definition set_rotation (this : SQT) (q : Quaternion) : SQT :=
  recalculate
    {| super := super this; scale := scale this; quaternion := q;
       translation := translation this |}.

End WithQuaternion.
End SQT.

(** The half turn about the z axis, as the one quaternion of a sample
    quaternion type: it is its own inverse. *)
Module HalfTurn.
Definition matrix : Matrix :=
  Matrix.new (Vector.new (- Num.one) Num.zero Num.zero Num.zero)
             (Vector.new Num.zero (- Num.one) Num.zero Num.zero)
             (Vector.new Num.zero Num.zero Num.one Num.zero)
             (Vector.new Num.zero Num.zero Num.zero Num.one).
Definition fromAxisAngle (axis : Vector) (angle : number) : unit := tt.
Definition toMatrix (q : unit) : Matrix := matrix.
Definition inverse (q : unit) : unit := q.
End HalfTurn.

(* ================================================================== *)
(** ** More about [src/raytracing/rayvisitor.ts] *)
(* ================================================================== *)

Definition isSome {A : Type} (o : option A) : bool :=
  match o with Some _ => true | None => false end.

(** Whether the visitor holds a ray after the traversal of [node], when
    it did ([has = true]) or did not hold one before; [None] when the
    traversal reaches a shape node without a ray. *)
Fixpoint holdsRayAfter (node : Node) (has : bool) {struct node} : option bool :=
  match node with
  | GroupNode _ children =>
      fold_left (fun acc child =>
                   match acc with
                   | Some h => holdsRayAfter child h
                   | None => None
                   end)
                children (Some has)
  | SphereNode _ | AABoxNode _ | PyramidNode _ | CustomShapeNode _ _ _ =>
      if has then Some true else None
  | CameraNode => Some true
  | LightNode | TextureBoxNode | TextureVideoBoxNode | TextureTextBoxNode
  | TexturePyramidNode => Some has
  end.

Section TraversalNotions.
Context `{Collaborators}.
Import RayVisitor.

(** The best intersection is absent exactly when no hit was recorded. *)
Definition hitsConsistent (s : RayVisitor) : Prop :=
  intersection s = None <-> objectIntersections s = [].

(** The best intersection stems from a hit recorded for this pixel and
    the remembered colour is the colour of the node of that hit. *)
Definition bestIsRecorded (s : RayVisitor) : Prop :=
  forall best, intersection s = Some best ->
    exists hit objRay node toWorld,
      (hit, objRay, node) ∈ objectIntersections s /\
      best = worldIntersection toWorld objRay hit /\
      intersectionColor s = Node_color node.

Definition nonemptyStacks (s : RayVisitor) : Prop :=
  transformations s <> [] /\ inverseTransformations s <> [].

(** The outcome of a traversal as far as the ray is concerned. *)
Definition rayOutcome (node : Node) (s : RayVisitor) : Prop :=
  match holdsRayAfter node (isSome (ray s)) with
  | None => accept node s = Throws TypeError
  | Some b => exists s', accept node s = Returns s' /\ isSome (ray s') = b
  end.

(** Whenever the visitor holds a ray it holds the camera that cast it:
    true of a new visitor and kept by every call of [render]. *)
Definition rayHasCamera (s : RayVisitor) : Prop :=
  ray s <> None -> camera s <> None.

Definition hitHasRay (s : RayVisitor) : Prop :=
  intersection s <> None -> ray s <> None.


(** A camera as a camera node builds it: at the image of the origin
    under the matrix on top of the stack, with the fixed width 100,
    height 100 and alpha pi/3. *)
Definition builtByCameraNode (cam : CameraRaytracer) : Prop :=
  exists toWorld,
    cam = Camera.new (Matrix.mulVec toWorld originPoint) (Num.of_Z 100) (Num.of_Z 100)
                     (Math_PI / Num.of_Z 3) toWorld.

(** The camera and the ray of the visitor, if there are any, stem from
    a camera node: true of a new visitor. *)
Definition cameraFromNode (s : RayVisitor) : Prop :=
  (forall cam, camera s = Some cam -> builtByCameraNode cam) /\
  (forall r, ray s = Some r ->
     exists px py cam, builtByCameraNode cam /\
                       r = makeRay (Num.of_nat px) (Num.of_nat py) cam).

End TraversalNotions.

(* ================================================================== *)
(** ** [src/boilerplate/phong-boilerplate.ts] *)
(* ================================================================== *)

(** [Math.min(a, b)]: [NaN] as soon as one argument is [NaN]. *)
Definition Math_min (a b : number) : number :=
  match a, b with
  | NaN, _ | _, NaN => NaN
  | _, _ => if (b <? a)%num then b else a
  end.

Module PhongBoilerplate.

(** An element of [objects]: an object with an [intersect] method and a
    [color] (the class [Sphere] of the missing [objects/sphere.ts]). *)
Record Shape : Type := { intersect : UnitObject; color : option Vector }.

(** The variables [minIntersection] and [minObj] of lines 45-46 are
    assigned together at lines 50-51: [None] is their initial value, the
    sentinel [new Intersection(Infinity, null, null)] and [null]. *)
Definition Minimum : Type := option (Intersection * Shape).

(** [minIntersection.t]. *)
Definition minimum_t (m : Minimum) : number :=
  match m with
  | None => PInf
  | Some (i, _) => Intersection.t i
  end.

(** The body of the [for (let shape of objects)] loop, lines 48-52. *)
Definition consider (ray : Ray) (m : Minimum) (shape : Shape) : Minimum :=
  match intersect shape ray with
  | Some intersection =>
      if (Intersection.t intersection <? minimum_t m)%num
      then Some (intersection, shape)
      else m
  | None => m
  end.

(** Lines 45-53. *)
Definition nearest (objects : list Shape) (ray : Ray) : Minimum :=
  fold_left (consider ray) objects None.

(** [setPixel(x, y, color)], lines 33-38. *)
Definition setPixel (width x y : nat) (c : Vector) (data : list Z) : list Z :=
  let data := <[4 * (width * y + x) + 0 :=
                  Num.toUint8Clamp (Math_min (Num.of_Z 255) (Vector.r c * Num.of_Z 255))]> data in
  let data := <[4 * (width * y + x) + 1 :=
                  Num.toUint8Clamp (Math_min (Num.of_Z 255) (Vector.g c * Num.of_Z 255))]> data in
  let data := <[4 * (width * y + x) + 2 :=
                  Num.toUint8Clamp (Math_min (Num.of_Z 255) (Vector.b c * Num.of_Z 255))]> data in
  <[4 * (width * y + x) + 3 := 255%Z]> data.

Section Animate.
Context `{Collaborators}.

(** [Ray.makeRay(x, y, camera)] on the camera literal of lines 26-31,
    which has no [toWorld]. *)
Variable makeRayOf : number -> number -> CameraArgument -> Ray.

(** The body of the inner loop of [animate], lines 44-67. *)
Definition animatePixel (objects : list Shape) (camera : CameraArgument)
    (lightPositions : list Vector) (phongValues : PhongValues) (width : nat)
    (p : nat * nat) (data : list Z) : list Z :=
  let ray := makeRayOf (Num.of_nat (fst p)) (Num.of_nat (snd p)) camera in
  match nearest objects ray with
  | None => data
  | Some (minIntersection, minObj) =>
      match color minObj with
      | None => setPixel width (fst p) (snd p) (Vector.new Num.zero Num.zero Num.zero Num.one) data
      | Some c =>
          setPixel width (fst p) (snd p)
            (phong c minIntersection lightPositions phongValues (arg_origin camera)) data
      end
  end.

(** [animate()], lines 40-72, on a canvas of the given size; the result
    is the data handed to [putImageData]. *)
Definition animate (objects : list Shape) (camera : CameraArgument)
    (lightPositions : list Vector) (phongValues : PhongValues)
    (width height : nat) (data : list Z) : list Z :=
  let data := replicate (length data) 0%Z in
  fold_left (fun data x =>
               fold_left (fun data y =>
                            animatePixel objects camera lightPositions phongValues
                                         width (x, y) data)
                         (seq 0 height) data)
            (seq 0 width) data.

End Animate.

(** What the search has established after the shapes [seen]. *)
Definition searched (ray : Ray) (seen : list Shape) (m : Minimum) : Prop :=
  match m with
  | None =>
      forall shape i, shape ∈ seen -> intersect shape ray = Some i ->
                      (Intersection.t i <? PInf)%num = false
  | Some (i, shape) =>
      (Intersection.t i <? PInf)%num = true /\
      (exists before after,
         seen = before ++ shape :: after /\
         intersect shape ray = Some i /\
         forall shape' i', shape' ∈ before -> intersect shape' ray = Some i' ->
                           Intersection.t i' <> NaN ->
                           (Intersection.t i <? Intersection.t i')%num = true) /\
      (forall shape' i', shape' ∈ seen -> intersect shape' ray = Some i' ->
                         (Intersection.t i' <? Intersection.t i)%num = false)
  end.

End PhongBoilerplate.

(* ================================================================== *)
(** ** The ray-tracing boilerplate ([src/unnamed/part_000]) *)
(* ================================================================== *)

Module RayBoilerplate.

(** The three variables of lines 36-38. *)
Record Clock : Type :=
  { lastTimestamp : number; animationTime : number; animationHasStarted : bool }.

(** Their values when the page has loaded. *)
Definition initialClock : Clock :=
  {| lastTimestamp := Num.zero; animationTime := Num.zero; animationHasStarted := true |}.

(** Lines 40-46 of [animate(timestamp)]. *)
Definition tick (timestamp : number) (c : Clock) : Clock :=
  let deltaT := (timestamp - lastTimestamp c)%num in
  let '(deltaT, started) :=
    if animationHasStarted c then (Num.zero, false) else (deltaT, animationHasStarted c) in
  {| lastTimestamp := timestamp;
     animationTime := (animationTime c + deltaT)%num;
     animationHasStarted := started |}.

Section Scene.
Context `{Collaborators}.
Variable Matrix_rotation : Vector -> number -> Matrix.

Definition vec (x y z w : number) : Vector := Vector.new x y z w.

(** Line 13. *)
Definition gnRotation : Rotation.Rotation :=
  Rotation.new Matrix_rotation (vec Num.one Num.zero Num.zero Num.zero) (Num.of_Z 50).

(** The scene graph of lines 12-23, around the current state of the
    rotation object that [animate] mutates. *)
Definition sg (rotation : Rotation.Rotation) : Node :=
  GroupNode (Translation.super (Translation.new
               (vec Num.zero Num.zero (Num.of_Z (-5)) Num.zero)))
    [GroupNode (Rotation.super rotation)
       [GroupNode (Translation.super (Translation.new
                     (vec (Num.frac 12 10) (Num.frac 5 10) Num.zero Num.zero)))
          [AABoxNode (Some (vec (Num.frac 4 10) Num.zero Num.zero Num.one))];
        GroupNode (Translation.super (Translation.new
                     (vec (Num.frac (-8) 10) Num.one Num.one Num.zero)))
          [GroupNode (Scaling.super (Scaling.new
                        (vec (Num.frac 4 10) (Num.frac 4 10) (Num.frac 4 10) Num.zero)))
             [SphereNode (Some (vec Num.zero Num.zero (Num.frac 3 10) Num.one))]]]].

Definition lightPositions : list Vector := [vec Num.one Num.one Num.one Num.one].

Definition camera (width height : nat) : CameraArgument :=
  {| arg_origin := vec Num.zero Num.zero Num.zero Num.one;
     arg_width := Num.of_nat width; arg_height := Num.of_nat height;
     arg_alpha := (Math_PI / Num.of_Z 3)%num |}.

Definition phongValues : PhongValues :=
  {| ambient := Num.frac 8 10; diffuse := Num.frac 5 10;
     specular := Num.frac 5 10; shininess := Num.of_Z 10 |}.

(** [animate(timestamp)], lines 39-56: the clock, the rotation and the
    outcome of the call of [render]. *)
Definition animate (timestamp : number)
    (state : Clock * Rotation.Rotation * RayVisitor)
    : Clock * Rotation.Rotation * outcome RayVisitor :=
  let '(c, rotation, visitor) := state in
  let c := tick timestamp c in
  let rotation :=
    Rotation.set_angle Matrix_rotation rotation (animationTime c / Num.of_Z 2000) in
  (c, rotation,
   RayVisitor.render (sg rotation)
     (camera (ImageData.width (RayVisitor.imageData visitor))
             (ImageData.height (RayVisitor.imageData visitor)))
     lightPositions phongValues visitor).

End Scene.
End RayBoilerplate.

(* ================================================================== *)
(** ** [src/rasterisation/raster-texture-box.ts] *)
(* ================================================================== *)

Module RasterTextureBox.

(** A JavaScript array of numbers that is filled by index: an index
    that was never assigned is a hole, [None]. *)
Definition JSArray : Type := list (option number).

(** [a[i] = v]: an assignment past the end extends the array, leaving
    holes in between. *)
Definition assign (i : nat) (v : number) (a : JSArray) : JSArray :=
  if decide (i < length a) then <[i := Some v]> a
  else a ++ replicate (i - length a) None ++ [Some v].

(** [a[i]] where a number is expected: a hole or an index past the end
    reads as [undefined], which every arithmetic operation turns into
    [NaN]. *)
Definition read (a : list number) (i : nat) : number :=
  match a !! i with Some v => v | None => NaN end.

(** Modelled from the spec: [Vector.sub] of the missing
    [math/vector.ts], the componentwise difference. *)
Definition sub (u v : Vector) : Vector :=
  Vector.new (Vector.x u - Vector.x v) (Vector.y u - Vector.y v)
             (Vector.z u - Vector.z v) (Vector.w u - Vector.w v).

(** Lines 66-181. *)
Definition vertices (mi ma : Vector) : list number :=
  [
   (* front *)
   Vector.x mi; Vector.y mi; Vector.z ma;
   Vector.x ma; Vector.y mi; Vector.z ma;
   Vector.x ma; Vector.y ma; Vector.z ma;
   Vector.x ma; Vector.y ma; Vector.z ma;
   Vector.x mi; Vector.y ma; Vector.z ma;
   Vector.x mi; Vector.y mi; Vector.z ma;
   (* back *)
   Vector.x ma; Vector.y mi; Vector.z mi;
   Vector.x mi; Vector.y mi; Vector.z mi;
   Vector.x mi; Vector.y ma; Vector.z mi;
   Vector.x mi; Vector.y ma; Vector.z mi;
   Vector.x ma; Vector.y ma; Vector.z mi;
   Vector.x ma; Vector.y mi; Vector.z mi;
   (* right *)
   Vector.x ma; Vector.y mi; Vector.z ma;
   Vector.x ma; Vector.y mi; Vector.z mi;
   Vector.x ma; Vector.y ma; Vector.z mi;
   Vector.x ma; Vector.y ma; Vector.z mi;
   Vector.x ma; Vector.y ma; Vector.z ma;
   Vector.x ma; Vector.y mi; Vector.z ma;
   (* top *)
   Vector.x mi; Vector.y ma; Vector.z ma;
   Vector.x ma; Vector.y ma; Vector.z ma;
   Vector.x ma; Vector.y ma; Vector.z mi;
   Vector.x ma; Vector.y ma; Vector.z mi;
   Vector.x mi; Vector.y ma; Vector.z mi;
   Vector.x mi; Vector.y ma; Vector.z ma;
   (* left *)
   Vector.x mi; Vector.y mi; Vector.z mi;
   Vector.x mi; Vector.y mi; Vector.z ma;
   Vector.x mi; Vector.y ma; Vector.z ma;
   Vector.x mi; Vector.y ma; Vector.z ma;
   Vector.x mi; Vector.y ma; Vector.z mi;
   Vector.x mi; Vector.y mi; Vector.z mi;
   (* bottom *)
   Vector.x mi; Vector.y mi; Vector.z mi;
   Vector.x ma; Vector.y mi; Vector.z mi;
   Vector.x ma; Vector.y mi; Vector.z ma;
   Vector.x ma; Vector.y mi; Vector.z ma;
   Vector.x mi; Vector.y mi; Vector.z ma;
   Vector.x mi; Vector.y mi; Vector.z mi
  ].

(** Lines 183-207. *)
Definition normals : list number :=
  [
   (* front *)
   Num.zero; Num.zero; Num.one;
   Num.zero; Num.zero; Num.one;
   Num.zero; Num.zero; Num.one;
   Num.zero; Num.zero; Num.one;
   Num.zero; Num.zero; Num.one;
   Num.zero; Num.zero; Num.one;
   (* back *)
   Num.zero; Num.zero; Num.neg Num.one;
   Num.zero; Num.zero; Num.neg Num.one;
   Num.zero; Num.zero; Num.neg Num.one;
   Num.zero; Num.zero; Num.neg Num.one;
   Num.zero; Num.zero; Num.neg Num.one;
   Num.zero; Num.zero; Num.neg Num.one;
   (* right *)
   Num.one; Num.zero; Num.zero;
   Num.one; Num.zero; Num.zero;
   Num.one; Num.zero; Num.zero;
   Num.one; Num.zero; Num.zero;
   Num.one; Num.zero; Num.zero;
   Num.one; Num.zero; Num.zero;
   (* top *)
   Num.zero; Num.one; Num.zero;
   Num.zero; Num.one; Num.zero;
   Num.zero; Num.one; Num.zero;
   Num.zero; Num.one; Num.zero;
   Num.zero; Num.one; Num.zero;
   Num.zero; Num.one; Num.zero;
   (* left *)
   Num.neg Num.one; Num.zero; Num.zero;
   Num.neg Num.one; Num.zero; Num.zero;
   Num.neg Num.one; Num.zero; Num.zero;
   Num.neg Num.one; Num.zero; Num.zero;
   Num.neg Num.one; Num.zero; Num.zero;
   Num.neg Num.one; Num.zero; Num.zero;
   (* bottom *)
   Num.zero; Num.neg Num.one; Num.zero;
   Num.zero; Num.neg Num.one; Num.zero;
   Num.zero; Num.neg Num.one; Num.zero;
   Num.zero; Num.neg Num.one; Num.zero;
   Num.zero; Num.neg Num.one; Num.zero;
   Num.zero; Num.neg Num.one; Num.zero
  ].

(** Lines 264-277. *)
Definition uv : list number :=
  [
   (* front *)
   Num.zero; Num.zero; Num.one; Num.zero; Num.one; Num.one; Num.one; Num.one; Num.zero; Num.one; Num.zero; Num.zero;
   (* back *)
   Num.zero; Num.zero; Num.one; Num.zero; Num.one; Num.one; Num.one; Num.one; Num.zero; Num.one; Num.zero; Num.zero;
   (* right *)
   Num.zero; Num.zero; Num.one; Num.zero; Num.one; Num.one; Num.one; Num.one; Num.zero; Num.one; Num.zero; Num.zero;
   (* top *)
   Num.zero; Num.zero; Num.one; Num.zero; Num.one; Num.one; Num.one; Num.one; Num.zero; Num.one; Num.zero; Num.zero;
   (* left *)
   Num.zero; Num.zero; Num.one; Num.zero; Num.one; Num.one; Num.one; Num.one; Num.zero; Num.one; Num.zero; Num.zero;
   (* bottom *)
   Num.zero; Num.zero; Num.one; Num.zero; Num.one; Num.one; Num.one; Num.one; Num.zero; Num.one; Num.zero; Num.zero
  ].

(** [this.elements], line 213. *)
Definition elements (mi ma : Vector) : number :=
  (Num.of_nat (length (vertices mi ma)) / Num.of_Z 3)%num.

(** Three numbers: x, y and z. *)
Definition Triple : Type := (number * number * number)%type.

(** The first part of the body of the outer loop of
    [calculateTangentsAndBitangents], lines 394-449, for the face [i]:
    [tangent1], [tangent2], [bitangent1] and [bitangent2]. *)
Definition faceTangents (vertices uv : list number) (i : nat)
    : Triple * Triple * Triple * Triple :=
  let pos1 := Vector.new (read vertices (0 + i * 18)) (read vertices (1 + i * 18))
                         (read vertices (2 + i * 18)) Num.one in
  let pos2 := Vector.new (read vertices (3 + i * 18)) (read vertices (4 + i * 18))
                         (read vertices (5 + i * 18)) Num.one in
  let pos3 := Vector.new (read vertices (6 + i * 18)) (read vertices (7 + i * 18))
                         (read vertices (8 + i * 18)) Num.one in
  let pos4 := Vector.new (read vertices (12 + i * 18)) (read vertices (13 + i * 18))
                         (read vertices (14 + i * 18)) Num.one in
  let uv1 := Vector.new (read uv (0 + i * 12)) (read uv (1 + i * 12)) Num.zero Num.one in
  let uv2 := Vector.new (read uv (2 + i * 12)) (read uv (3 + i * 12)) Num.zero Num.one in
  let uv3 := Vector.new (read uv (4 + i * 12)) (read uv (5 + i * 12)) Num.zero Num.one in
  let uv4 := Vector.new (read uv (8 + i * 12)) (read uv (9 + i * 12)) Num.zero Num.one in
  let edge1 := sub pos2 pos1 in
  let edge2 := sub pos3 pos1 in
  let edge3 := sub pos3 pos1 in
  let edge4 := sub pos4 pos3 in
  let deltaUV1 := sub uv2 uv1 in
  let deltaUV2 := sub uv3 uv1 in
  let deltaUV3 := sub uv3 uv1 in
  let deltaUV4 := sub uv4 uv3 in
  let f := (Num.one / (Vector.x deltaUV1 * Vector.y deltaUV2
                       - Vector.x deltaUV2 * Vector.y deltaUV1))%num in
  let tangent1x := (f * (Vector.y deltaUV2 * Vector.x edge1 - Vector.y deltaUV1 * Vector.x edge2))%num in
  let tangent1y := (f * (Vector.y deltaUV2 * Vector.y edge1 - Vector.y deltaUV1 * Vector.y edge2))%num in
  let tangent1z := (f * (Vector.y deltaUV2 * Vector.z edge1 - Vector.y deltaUV1 * Vector.z edge2))%num in
  let tangent2x := (f * (Vector.y deltaUV4 * Vector.x edge3 - Vector.y deltaUV3 * Vector.x edge4))%num in
  let tangent2y := (f * (Vector.y deltaUV4 * Vector.y edge3 - Vector.y deltaUV3 * Vector.y edge4))%num in
  let tangent2z := (f * (Vector.y deltaUV4 * Vector.z edge3 - Vector.y deltaUV3 * Vector.z edge4))%num in
  let bitangent1x := (f * (- Vector.x deltaUV2 * Vector.x edge1 + Vector.x deltaUV1 * Vector.x edge2))%num in
  let bitangent1y := (f * (- Vector.x deltaUV2 * Vector.y edge1 + Vector.x deltaUV1 * Vector.y edge2))%num in
  let bitangent1z := (f * (- Vector.x deltaUV2 * Vector.z edge1 + Vector.x deltaUV1 * Vector.z edge2))%num in
  let bitangent2x := (f * (- Vector.x deltaUV4 * Vector.x edge3 + Vector.x deltaUV3 * Vector.x edge4))%num in
  let bitangent2y := (f * (- Vector.x deltaUV4 * Vector.y edge3 + Vector.x deltaUV3 * Vector.y edge4))%num in
  let bitangent2z := (f * (- Vector.x deltaUV4 * Vector.z edge3 + Vector.x deltaUV3 * Vector.z edge4))%num in
  ((tangent1x, tangent1y, tangent1z), (tangent2x, tangent2y, tangent2z),
   (bitangent1x, bitangent1y, bitangent1z), (bitangent2x, bitangent2y, bitangent2z)).

(** The second part, lines 452-468: the loop over [j] that stores them;
    the state is the pair of [this.tangents] and [this.bitangents]. *)
Definition storeTangents (i : nat) (fr : Triple * Triple * Triple * Triple)
    (tb : JSArray * JSArray) : JSArray * JSArray :=
  let '((tangent1x, tangent1y, tangent1z), (tangent2x, tangent2y, tangent2z),
        (bitangent1x, bitangent1y, bitangent1z),
        (bitangent2x, bitangent2y, bitangent2z)) := fr in
  fold_left
    (fun '(tangents, bitangents) j =>
       let tangents := assign (0 + i * 18 + j * 3) tangent1x tangents in
       let tangents := assign (1 + i * 18 + j * 3) tangent1y tangents in
       let tangents := assign (2 + i * 18 + j * 3) tangent1z tangents in
       let bitangents := assign (0 + i * 18 + j * 3) bitangent1x bitangents in
       let bitangents := assign (1 + i * 18 + j * 3) bitangent1y bitangents in
       let bitangents := assign (2 + i * 18 + j * 3) bitangent1z bitangents in
       let tangents := assign (9 + i * 18 + j * 3) tangent2x tangents in
       let tangents := assign (10 + i * 18 + j * 3) tangent2y tangents in
       let tangents := assign (11 + i * 18 + j * 3) tangent2z tangents in
       let bitangents := assign (9 + i * 18 + j * 3) bitangent2x bitangents in
       let bitangents := assign (10 + i * 18 + j * 3) bitangent2y bitangents in
       let bitangents := assign (11 + i * 18 + j * 3) bitangent2z bitangents in
       (tangents, bitangents))
    (seq 0 3) tb.

(** The body of the outer loop, lines 394-468. *)
Definition face (vertices uv : list number) (i : nat) (tb : JSArray * JSArray)
    : JSArray * JSArray :=
  storeTangents i (faceTangents vertices uv i) tb.

(** [calculateTangentsAndBitangents(vertices, uv)], lines 388-470, on
    the empty arrays of lines 284-285. *)
Definition calculateTangentsAndBitangents (vertices uv : list number)
    : JSArray * JSArray :=
  fold_left (fun tb i => face vertices uv i tb) (seq 0 6) ([], []).

(** The arrays the constructor hands to the tangent and bitangent
    buffers, lines 284-304. *)
Definition tangents (mi ma : Vector) : JSArray :=
  fst (calculateTangentsAndBitangents (vertices mi ma) uv).
Definition bitangents (mi ma : Vector) : JSArray :=
  snd (calculateTangentsAndBitangents (vertices mi ma) uv).


(** [new Float32Array(a)], lines 211, 218, 280, 292 and 301: every
    entry is rounded to binary32, a hole becomes [NaN]. *)
Definition toFloat32Array (a : JSArray) : list number :=
  map (fun e => match e with Some v => Math_fround v | None => NaN end) a.

(** The attribute of vertex [k] in a buffer with 3 numbers per vertex,
    as [vertexAttribPointer(location, 3, FLOAT, false, 0, 0)] reads
    it. *)
Definition attribute (buffer : list number) (k : nat) : Triple :=
  (read buffer (3 * k), read buffer (3 * k + 1), read buffer (3 * k + 2)).

(** The buffers of lines 209-222 and 288-304. *)
Definition vertexBuffer (mi ma : Vector) : list number :=
  toFloat32Array (map Some (vertices mi ma)).
Definition tangentBuffer (mi ma : Vector) : list number :=
  toFloat32Array (tangents mi ma).

(** The eighteen numbers a face contributes to a buffer: the first
    triple for the three vertices of its first triangle, the second for
    those of its second triangle. *)
Definition perFace (first second : Triple) : list number :=
  let '(ax, ay, az) := first in let '(bx, by_, bz) := second in
  [ax; ay; az; ax; ay; az; ax; ay; az; bx; by_; bz; bx; by_; bz; bx; by_; bz].

Definition vertex (mi ma : Vector) (k : nat) : Triple := attribute (vertices mi ma) k.

End RasterTextureBox.

(** Vector algebra on triples of numbers. *)
Module Geometry.
Import RasterTextureBox.

Definition dot3 (u v : Triple) : number :=
  let '(ux, uy, uz) := u in let '(vx, vy, vz) := v in
  (ux * vx + uy * vy + uz * vz)%num.

Definition cross3 (u v : Triple) : Triple :=
  let '(ux, uy, uz) := u in let '(vx, vy, vz) := v in
  ((uy * vz - uz * vy)%num, (uz * vx - ux * vz)%num, (ux * vy - uy * vx)%num).

Definition sub3 (u v : Triple) : Triple :=
  let '(ux, uy, uz) := u in let '(vx, vy, vz) := v in
  ((ux - vx)%num, (uy - vy)%num, (uz - vz)%num).

Definition scale3 (k : number) (u : Triple) : Triple :=
  let '(ux, uy, uz) := u in ((k * ux)%num, (k * uy)%num, (k * uz)%num).

(** The area of the face of the box [mi, ma] that is orthogonal to the
    axis-aligned unit vector [n]. *)
Definition faceArea (mi ma : Vector) (n : Triple) : number :=
  let dx := (Vector.x ma - Vector.x mi)%num in
  let dy := (Vector.y ma - Vector.y mi)%num in
  let dz := (Vector.z ma - Vector.z mi)%num in
  let '(nx, ny, nz) := n in
  (nx * nx * (dy * dz) + ny * ny * (dx * dz) + nz * nz * (dx * dy))%num.
End Geometry.

(* ================================================================== *)
(** ** More scenes and states for the examples *)
(* ================================================================== *)

Module MoreExamples.
#[local] Existing Instance Sample.collaborators.

(** The state after the traversal of [rootNode] for the pixel (0, 0)
    of the sample canvas. *)
Definition traversed (rootNode : Node) : RayVisitor :=
  Examples.stateOf Sample.visitor
    (RayVisitor.accept rootNode (RayVisitor.resetPixel 0 0 Sample.visitor)).

(** The state after that pixel has been rendered. *)
Definition rendered (rootNode : Node) : RayVisitor :=
  Examples.stateOf Sample.visitor
    (RayVisitor.renderPixel rootNode Sample.phongValues 2 (0, 0) Sample.visitor).

(** The state after a blue sphere has been offered to a visitor that
    holds the hit of the red one. *)
Definition afterBlueSphere : RayVisitor :=
  Examples.stateOf Examples.afterRedSphere
    (RayVisitor.accept (SphereNode (Some Examples.blue)) Examples.afterRedSphere).

(** A ray from the origin of the camera down the negative z axis
    through every pixel. *)
Definition axisRayOf (x y : number) (camera : CameraArgument) : Ray :=
  Ray.new (arg_origin camera) (Sample.vec 0 0 (-1) 0).

(** One red unit sphere around the origin. *)
Definition redSphere : PhongBoilerplate.Shape :=
  {| PhongBoilerplate.intersect := Sample.unitSphere;
     PhongBoilerplate.color := Some Examples.red |}.

(** The rotation matrices of a space in which nothing turns. *)
Definition noRotation (axis : Vector) (angle : number) : Matrix := Matrix.identity.

End MoreExamples.

(* ================================================================== *)
(** ** Proof automation *)
(* ================================================================== *)

Ltac entrywise tac :=
  repeat match goal with
  | |- Matrix.new _ _ _ _ = Matrix.new _ _ _ _ => f_equal
  | |- Vector.new _ _ _ _ = Vector.new _ _ _ _ => f_equal
  | |- Fin _ = Fin _ => tac
  end.

(** Equations between products of finite matrices, entry by entry in
    the field of rationals. *)
Ltac fin_matrices :=
  repeat match goal with
  | r : QcRow |- _ => destruct r as [[[? ?] ?] ?]
  end;
  unfold finMatrix, finRow, finVector, Matrix.identity, Matrix.scaling,
    Matrix.translation, Matrix.mul, Matrix.mulRow, Matrix.col, Vector.dot,
    Vector.mul, Num.zero, Num.one; cbn;
  entrywise ltac:(apply (f_equal Fin)); ring.

(** Equality of two closed numbers, by evaluation. *)
Ltac num_eq :=
  apply (f_equal Fin); apply Qc_is_canon; vm_compute; reflexivity.

Ltac matrix_eq := vm_compute; entrywise ltac:(num_eq).


(** One goal for each member of a list of numbers that is written out. *)
Ltac members :=
  repeat match goal with
  | H : In _ _ |- _ => cbn in H
  | H : _ \/ _ |- _ => destruct H as [<-|H]
  | H : False |- _ => contradiction
  end.

(** Equations between tuples of finite numbers, component by component. *)
Ltac triplewise tac :=
  repeat match goal with
  | |- (_, _) = (_, _) => f_equal
  | |- Fin _ = Fin _ => tac
  end.

Ltac fin_eq := triplewise ltac:(f_equal; ring).

(** The attributes of a vertex of the textured box, evaluated. *)
Ltac box_cbn :=
  unfold RasterTextureBox.vertex, RasterTextureBox.attribute, Geometry.sub3,
    Geometry.cross3, Geometry.dot3, Geometry.scale3, Geometry.faceArea, finVector,
    RasterTextureBox.normals, Num.zero, Num.one; cbn.

(** The area of a face as the product of two edge lengths. *)
Ltac area_as_product :=
  match goal with
  | Hp : (?p < ?p')%Qc, Hq : (?q < ?q')%Qc |- (0 < ?area)%Qc =>
      replace area with ((p' + - p) * (q' + - q))%Qc by ring
  end.

(** A bound on one coordinate, read as a bound on the inner product
    with an axis-aligned unit normal. *)
Ltac supporting_plane :=
  match goal with
  | H : (?u <= ?v)%Qc |- (?l <= ?r)%Qc =>
      (replace l with u by ring; replace r with v by ring; exact H)
      || (replace l with (- v)%Qc by ring; replace r with (- u)%Qc by ring;
          exact (Qcopp_le_compat u v H))
  end.

(* ================================================================== *)
(** ** Finite numbers and matrices *)
(* ================================================================== *)

Lemma Fin_inj (p q : Qc) : Fin p = Fin q -> p = q.
Proof. intros E. injection E as E. exact E. Qed.

Lemma isFinite_Fin (a : number) : Num.isFinite a = true -> exists q, a = Fin q.
Proof. destruct a as [q| | |]; cbn; intros E; try discriminate E. now exists q. Qed.

Lemma scaleInf_not_Fin (s : bool) (q c : Qc) : Num.scaleInf s q <> Fin c.
Proof.
  unfold Num.scaleInf.
  destruct (Num.Qc_is_zero q); [discriminate|].
  destruct (Bool.eqb s (Num.Qc_ltb 0 q)); discriminate.
Qed.

Lemma add_Fin_inv (a b : number) (c : Qc) :
  (a + b)%num = Fin c -> Num.isFinite a = true /\ Num.isFinite b = true.
Proof. destruct a, b; cbn; intros E; try discriminate E; auto. Qed.

Lemma mul_Fin_inv (a b : number) (c : Qc) :
  (a * b)%num = Fin c -> Num.isFinite a = true /\ Num.isFinite b = true.
Proof.
  destruct a, b; cbn; intros E; try discriminate E; auto;
    exfalso; exact (scaleInf_not_Fin _ _ _ E).
Qed.

Lemma ltb_irrefl (a : number) : (a <? a)%num = false.
Proof.
  destruct a as [q| | |]; cbn; try reflexivity.
  unfold Num.Qc_ltb. now rewrite (proj1 (Qceq_alt q q) eq_refl).
Qed.

(** Whatever is divided by zero, the quotient is not finite. *)
Lemma div_zero_not_finite (a : number) : Num.isFinite (a / Num.zero) = false.
Proof.
  destruct a as [q| | |]; cbn; try reflexivity.
  destruct (Num.Qc_is_zero q); [reflexivity|]. now destruct (Num.Qc_ltb 0 q).
Qed.

Lemma Qc_ltb_false (a b : Qc) : Num.Qc_ltb a b = false -> (b <= a)%Qc.
Proof.
  unfold Num.Qc_ltb. intros E. apply (proj2 (Qcge_alt a b)).
  intros Hlt. rewrite Hlt in E. discriminate.
Qed.

(** Whatever number is stored, the array holds a byte. *)
Lemma toUint8Clamp_range (a : number) : isByte (Num.toUint8Clamp a).
Proof.
  unfold isByte. destruct a as [q| | |]; cbn; try lia.
  destruct (Num.Qc_ltb q 0) eqn:E0; [lia|].
  destruct (Num.Qc_ltb (Q2Qc 255) q) eqn:E255; [lia|].
  apply Qc_ltb_false in E0, E255.
  assert (Hlo : (0 <= Qfloor q)%Z).
  { change 0%Z with (Qfloor 0). now apply Qfloor_resp_le. }
  assert (Hhi : (Qfloor q <= 255)%Z).
  { change 255%Z with (Qfloor (Q2Qc 255)). now apply Qfloor_resp_le. }
  destruct (Num.Qc_ltb q _) eqn:Ehalf; [lia|].
  apply Qc_ltb_false in Ehalf.
  assert (Hlt : (Qfloor q < 255)%Z).
  { destruct (Z.eq_dec (Qfloor q) 255%Z) as [Heq|]; [|lia]. exfalso.
    rewrite Heq in Ehalf.
    assert (Hc : (Q2Qc (inject_Z 255) + Q2Qc (1 # 2) <= Q2Qc 255)%Qc)
      by (eapply Qcle_trans; eassumption).
    revert Hc. apply Qclt_not_le. reflexivity. }
  destruct (Num.Qc_ltb _ q); [lia|]. destruct (Z.even (Qfloor q)); lia.
Qed.

Lemma Qc_sq_nonneg (a : Qc) : (0 <= a * a)%Qc.
Proof.
  destruct (Qclt_le_dec a 0) as [Hlt | Hle].
  - replace (a * a)%Qc with ((- a) * (- a))%Qc by ring.
    assert (0 <= - a)%Qc.
    { apply Qclt_le_weak in Hlt. apply Qcopp_le_compat in Hlt. exact Hlt. }
    now apply Qcmult_nonneg_nonneg.
  - now apply Qcmult_nonneg_nonneg.
Qed.

Lemma Qc_neg_sq_ne_1 (a : Qc) : (- (a * a))%Qc <> 1%Qc.
Proof.
  intros E. pose proof (Qc_sq_nonneg a) as Hsq.
  assert (Ha : (a * a = - (1))%Qc) by (rewrite <- E; ring).
  rewrite Ha in Hsq. revert Hsq. apply Qclt_not_le. reflexivity.
Qed.

Lemma Vector_isFinite_inv (v : Vector) :
  Vector.isFinite v = true -> exists r, v = finRow r.
Proof.
  destruct v as [a b c d]. unfold Vector.isFinite; cbn.
  rewrite !andb_true_iff. intros [[[Ha Hb] Hc] Hd].
  apply isFinite_Fin in Ha as [a' ->], Hb as [b' ->], Hc as [c' ->], Hd as [d' ->].
  now exists (a', b', c', d').
Qed.

Lemma Matrix_isFinite_inv (m : Matrix) :
  Matrix.isFinite m = true -> exists r0 r1 r2 r3, m = finMatrix r0 r1 r2 r3.
Proof.
  destruct m as [u0 u1 u2 u3]. unfold Matrix.isFinite; cbn.
  rewrite !andb_true_iff. intros [[[H0 H1] H2] H3].
  apply Vector_isFinite_inv in H0 as [r0 ->], H1 as [r1 ->],
    H2 as [r2 ->], H3 as [r3 ->].
  now exists r0, r1, r2, r3.
Qed.

(** A finite scalar product has finite factors: an infinity or a [NaN]
    anywhere would have survived the sum. *)
Lemma dot_Fin_inv (u v : Vector) (c : Qc) :
  Vector.dot u v = Fin c -> Vector.isFinite u = true /\ Vector.isFinite v = true.
Proof.
  destruct u as [a1 a2 a3 a4], v as [b1 b2 b3 b4].
  unfold Vector.dot, Vector.isFinite; cbn. intros E.
  destruct (add_Fin_inv _ _ _ E) as [E123 E4].
  apply isFinite_Fin in E123 as [c123 E123], E4 as [c4 E4].
  destruct (add_Fin_inv _ _ _ E123) as [E12 E3].
  apply isFinite_Fin in E12 as [c12 E12], E3 as [c3 E3].
  destruct (add_Fin_inv _ _ _ E12) as [E1 E2].
  apply isFinite_Fin in E1 as [c1 E1], E2 as [c2 E2].
  apply mul_Fin_inv in E1 as [-> ->], E2 as [-> ->], E3 as [-> ->], E4 as [-> ->].
  now split.
Qed.

(** Two matrices whose product is the identity are finite. *)
Lemma mul_identity_finite (a b : Matrix) :
  Matrix.mul a b = Matrix.identity ->
  Matrix.isFinite a = true /\ Matrix.isFinite b = true.
Proof.
  intros E.
  pose proof (f_equal (fun m => Vector.x (Matrix.row0 m)) E) as E00.
  pose proof (f_equal (fun m => Vector.y (Matrix.row0 m)) E) as E01.
  pose proof (f_equal (fun m => Vector.z (Matrix.row0 m)) E) as E02.
  pose proof (f_equal (fun m => Vector.w (Matrix.row0 m)) E) as E03.
  pose proof (f_equal (fun m => Vector.x (Matrix.row1 m)) E) as E10.
  pose proof (f_equal (fun m => Vector.x (Matrix.row2 m)) E) as E20.
  pose proof (f_equal (fun m => Vector.x (Matrix.row3 m)) E) as E30.
  cbn in E00, E01, E02, E03, E10, E20, E30.
  apply dot_Fin_inv in E00 as [A0 B0], E01 as [_ B1], E02 as [_ B2], E03 as [_ B3],
    E10 as [A1 _], E20 as [A2 _], E30 as [A3 _].
  split.
  - unfold Matrix.isFinite. now rewrite A0, A1, A2, A3.
  - destruct b as [[b00 b01 b02 b03] [b10 b11 b12 b13]
                   [b20 b21 b22 b23] [b30 b31 b32 b33]].
    unfold Matrix.col, Vector.isFinite in B0, B1, B2, B3. cbn in B0, B1, B2, B3.
    rewrite !andb_true_iff in B0, B1, B2, B3.
    unfold Matrix.isFinite, Vector.isFinite; cbn.
    destruct B0 as [[[-> ->] ->] ->], B1 as [[[-> ->] ->] ->],
      B2 as [[[-> ->] ->] ->], B3 as [[[-> ->] ->] ->].
    reflexivity.
Qed.

Lemma finMatrix_mul_assoc (a0 a1 a2 a3 b0 b1 b2 b3 c0 c1 c2 c3 : QcRow) :
  Matrix.mul (Matrix.mul (finMatrix a0 a1 a2 a3) (finMatrix b0 b1 b2 b3))
             (finMatrix c0 c1 c2 c3)
  = Matrix.mul (finMatrix a0 a1 a2 a3)
               (Matrix.mul (finMatrix b0 b1 b2 b3) (finMatrix c0 c1 c2 c3)).
Proof. fin_matrices. Qed.

Lemma finMatrix_mul_identity_l (a0 a1 a2 a3 : QcRow) :
  Matrix.mul Matrix.identity (finMatrix a0 a1 a2 a3) = finMatrix a0 a1 a2 a3.
Proof. fin_matrices. Qed.

Lemma mul_isFinite (a b : Matrix) :
  Matrix.isFinite a = true -> Matrix.isFinite b = true ->
  Matrix.isFinite (Matrix.mul a b) = true.
Proof.
  intros Fa Fb.
  apply Matrix_isFinite_inv in Fa as (a0 & a1 & a2 & a3 & ->).
  apply Matrix_isFinite_inv in Fb as (b0 & b1 & b2 & b3 & ->).
  repeat match goal with
  | r : QcRow |- _ => destruct r as [[[? ?] ?] ?]
  end.
  reflexivity.
Qed.

Lemma mul_assoc_finite (a b c : Matrix) :
  Matrix.isFinite a = true -> Matrix.isFinite b = true -> Matrix.isFinite c = true ->
  Matrix.mul (Matrix.mul a b) c = Matrix.mul a (Matrix.mul b c).
Proof.
  intros Fa Fb Fc.
  apply Matrix_isFinite_inv in Fa as (a0 & a1 & a2 & a3 & ->).
  apply Matrix_isFinite_inv in Fb as (b0 & b1 & b2 & b3 & ->).
  apply Matrix_isFinite_inv in Fc as (c0 & c1 & c2 & c3 & ->).
  apply finMatrix_mul_assoc.
Qed.

Lemma mul_identity_l_finite (a : Matrix) :
  Matrix.isFinite a = true -> Matrix.mul Matrix.identity a = a.
Proof.
  intros Fa. apply Matrix_isFinite_inv in Fa as (a0 & a1 & a2 & a3 & ->).
  apply finMatrix_mul_identity_l.
Qed.

Lemma mul_product_identity (a a' b b' : Matrix) :
  Matrix.mul a a' = Matrix.identity ->
  Matrix.mul b b' = Matrix.identity ->
  Matrix.mul (Matrix.mul a b) (Matrix.mul b' a') = Matrix.identity.
Proof.
  intros Ea Eb.
  destruct (mul_identity_finite _ _ Ea) as [Fa Fa'].
  destruct (mul_identity_finite _ _ Eb) as [Fb Fb'].
  rewrite mul_assoc_finite by auto using mul_isFinite.
  rewrite <- (mul_assoc_finite b b' a') by assumption.
  rewrite Eb, mul_identity_l_finite by assumption.
  exact Ea.
Qed.

(** In exact arithmetic the inverse of a product is the product of the
    inverses in reverse order. *)
Lemma inverseOf_compose (a a' b b' : Matrix) :
  inverseOf a a' -> inverseOf b b' ->
  inverseOf (Matrix.mul a b) (Matrix.mul b' a').
Proof.
  intros [Ea Ea'] [Eb Eb']. split; now apply mul_product_identity.
Qed.

(* ================================================================== *)
(** ** Transformations *)
(* ================================================================== *)

(** X1.  A translation carries a true inverse, from its constructor and
    after its setter alike: after [translationVector = v] the stored
    matrices multiply to the identity in both orders, and they are the
    ones a new [Translation(v)] stores. *)
Lemma translation_setter_keeps_inverse (this : Translation.Translation) (a b c d : Qc) :
  let after := Translation.super
                 (Translation.set_translationVector this (finVector a b c d)) in
  inverseOf (getMatrix after) (getInverseMatrix after) /\
  after = Translation.super (Translation.new (finVector a b c d)).
Proof.
  cbn zeta. split; [|reflexivity]. split; cbn; fin_matrices.
Qed.

(** C1 (code defect).  A transformation is meant to keep
    [getMatrix().mul(getInverseMatrix())] at the identity through every
    setter.  [Scaling.recalculate] stores [scaling(-s)] as the inverse
    where the constructor stores [scaling(1/s)]: after [scale = (a, b,
    c, d)] the product is the diagonal matrix of [-a*a, -b*b, -c*c, 1],
    which is never the identity; for the scale vector (2, 2, 2, 0) the
    constructor is exact and the setter is off by 5 on the diagonal. *)
Theorem scaling_setter_breaks_the_inverse (this : Scaling.Scaling) (a b c d : Qc) :
  let after := Scaling.super (Scaling.set_scale this (finVector a b c d)) in
  inverseProduct after
    = Matrix.scaling (finVector (- (a * a)) (- (b * b)) (- (c * c)) 0) /\
  inverseProduct after <> Matrix.identity /\
  Matrix.equalsWithin Num.one
    (inverseProduct (Scaling.super (Scaling.new Examples.two))) Matrix.identity = true /\
  Matrix.equalsWithin Num.one
    (inverseProduct
       (Scaling.super (Scaling.set_scale (Scaling.new Examples.two) Examples.two)))
    Matrix.identity = false.
Proof.
  cbn zeta.
  assert (E : inverseProduct (Scaling.super (Scaling.set_scale this (finVector a b c d)))
              = Matrix.scaling (finVector (- (a * a)) (- (b * b)) (- (c * c)) 0)).
  { unfold inverseProduct. cbn. fin_matrices. }
  split; [exact E|]. split; [|split; vm_compute; reflexivity].
  rewrite E. intros Hid.
  apply (f_equal (fun m => Vector.x (Matrix.row0 m))) in Hid. cbn in Hid.
  exact (Qc_neg_sq_ne_1 a (Fin_inj _ _ Hid)).
Qed.

(* ================================================================== *)
(** ** Control flow *)
(* ================================================================== *)

Lemma bind_Returns {A B : Type} (m : outcome A) (k : A -> outcome B) (b : B) :
  bind m k = Returns b -> exists a, m = Returns a /\ k a = Returns b.
Proof. destruct m as [a|e]; cbn; [|discriminate]. intros E. now exists a. Qed.

Lemma forEach_app {A S : Type} (f : A -> S -> outcome S) (l1 l2 : list A) (s : S) :
  forEach f (l1 ++ l2) s = do s' <- forEach f l1 s; forEach f l2 s'.
Proof.
  revert s. induction l1 as [|a l1 IH]; intros s; cbn; [reflexivity|].
  destruct (f a s) as [s1|e]; cbn; [apply IH | reflexivity].
Qed.

Lemma forEach_map {A B S : Type} (f : B -> S -> outcome S) (g : A -> B)
    (l : list A) (s : S) :
  forEach f (map g l) s = forEach (fun a => f (g a)) l s.
Proof.
  revert s. induction l as [|a l IH]; intros s; cbn; [reflexivity|].
  destruct (f (g a) s) as [s1|e]; cbn; [apply IH | reflexivity].
Qed.

(** Two nested loops are one loop over the pairs. *)
Lemma forEach_nested {A B S : Type} (f : A * B -> S -> outcome S)
    (la : list A) (lb : list B) (s : S) :
  forEach (fun a => forEach (fun b => f (a, b)) lb) la s
  = forEach f (flat_map (fun a => map (pair a) lb) la) s.
Proof.
  revert s. induction la as [|a la IH]; intros s; cbn; [reflexivity|].
  rewrite forEach_app, forEach_map.
  destruct (forEach (fun b => f (a, b)) lb s) as [s1|e]; cbn; [apply IH | reflexivity].
Qed.

(** Structural induction over a scene tree, with the children of a
    group covered by [Forall]. *)
Lemma Node_tree_ind (P : Node -> Prop)
    (Hgroup : forall transform children,
        Forall P children -> P (GroupNode transform children))
    (Hleaf : forall node, isGroup node = false -> P node) :
  forall node, P node.
Proof.
  fix IH 1. intros node. destruct node as [transform children| | | | | | | | | |].
  1: { apply Hgroup. induction children as [|child rest IHrest].
       - constructor.
       - constructor; [apply IH | exact IHrest]. }
  all: now apply Hleaf.
Qed.

(* ================================================================== *)
(** ** The pixels of the image *)
(* ================================================================== *)

Lemma elem_of_pixelOrder (width height : nat) (p : nat * nat) :
  p ∈ pixelOrder width height <-> fst p < width /\ snd p < height.
Proof.
  unfold pixelOrder. rewrite list_elem_of_In, in_flat_map. split.
  - intros (px & Hpx & Hp). apply in_map_iff in Hp as (py & <- & Hpy).
    apply in_seq in Hpx, Hpy. cbn. lia.
  - intros [Hx Hy]. exists (fst p). split; [apply in_seq; lia|].
    apply in_map_iff. exists (snd p). split; [now destruct p | apply in_seq; lia].
Qed.

Lemma NoDup_pixelOrder (width height : nat) : NoDup (pixelOrder width height).
Proof.
  unfold pixelOrder.
  assert (G : forall start n,
             NoDup (flat_map (fun px => map (pair px) (seq 0 height)) (seq start n)) /\
             forall p, p ∈ flat_map (fun px => map (pair px) (seq 0 height)) (seq start n) ->
                       start <= fst p).
  { intros start n. revert start. induction n as [|n IH]; intros start; cbn.
    - split; [constructor | intros p Hp; inversion Hp].
    - destruct (IH (S start)) as [IH1 IH2]. split.
      + apply NoDup_app. split; [|split; [|exact IH1]].
        * apply NoDup_fmap_2; [intros a b [=]; assumption | apply NoDup_seq].
        * intros p Hp Hq. apply IH2 in Hq.
          apply list_elem_of_fmap in Hp as (py & -> & _). cbn in Hq. lia.
      + intros p Hp. apply elem_of_app in Hp as [Hp|Hp].
        * apply list_elem_of_fmap in Hp as (py & -> & _). cbn. lia.
        * apply IH2 in Hp. lia. }
  apply G.
Qed.

Lemma length_writePixel w px py r g b a d :
  length (RayVisitor.writePixel w px py r g b a d) = length d.
Proof. unfold RayVisitor.writePixel. now rewrite !length_insert. Qed.

Lemma writePixel_bytes w px py r g b a d :
  Forall isByte d -> isByte r -> isByte g -> isByte b -> isByte a ->
  Forall isByte (RayVisitor.writePixel w px py r g b a d).
Proof.
  intros Hd Hr Hg Hb Ha. unfold RayVisitor.writePixel.
  repeat apply Forall_insert; assumption.
Qed.

(** Within a row of [w] pixels, distinct pixels and channels have
    distinct indices. *)
Lemma pixel_index_inj (w px py qx qy c c' : nat) :
  px < w -> qx < w -> c < 4 -> c' < 4 ->
  4 * (w * py + px) + c = 4 * (w * qy + qx) + c' -> (px, py) = (qx, qy) /\ c = c'.
Proof.
  intros Hp Hq Hc Hc' E.
  assert (c = c') by lia. subst c'.
  assert (E' : w * py + px = w * qy + qx) by lia.
  assert (py = qy) by nia. subst qy.
  assert (px = qx) by lia. now subst.
Qed.

Lemma pixel_in_range w h px py c :
  px < w -> py < h -> c < 4 -> 4 * (w * py + px) + c < 4 * (w * h).
Proof. intros. nia. Qed.

Lemma pixelAt_writePixel_other w px py r g b a d q c :
  px < w -> fst q < w -> c < 4 -> q <> (px, py) ->
  pixelAt w (RayVisitor.writePixel w px py r g b a d) q c = pixelAt w d q c.
Proof.
  intros Hp Hq Hc Hne. destruct q as [qx qy]. cbn in Hq.
  unfold pixelAt, RayVisitor.writePixel; cbn.
  rewrite !list_lookup_insert_ne; [reflexivity| | | |];
    intros E; apply pixel_index_inj in E as [E _]; try lia; congruence.
Qed.

Lemma pixelAt_writePixel_same w px py r g b a d :
  4 * (w * py + px) + 3 < length d ->
  pixelAt w (RayVisitor.writePixel w px py r g b a d) (px, py) 0 = Some r /\
  pixelAt w (RayVisitor.writePixel w px py r g b a d) (px, py) 1 = Some g /\
  pixelAt w (RayVisitor.writePixel w px py r g b a d) (px, py) 2 = Some b /\
  pixelAt w (RayVisitor.writePixel w px py r g b a d) (px, py) 3 = Some a.
Proof.
  intros Hlen. unfold pixelAt, RayVisitor.writePixel; cbn.
  repeat split.
  - rewrite !list_lookup_insert_ne by lia.
    apply list_lookup_insert_eq. lia.
  - rewrite !list_lookup_insert_ne by lia.
    apply list_lookup_insert_eq. rewrite !length_insert. lia.
  - rewrite !list_lookup_insert_ne by lia.
    apply list_lookup_insert_eq. rewrite !length_insert. lia.
  - apply list_lookup_insert_eq. rewrite !length_insert. lia.
Qed.

(* ================================================================== *)
(** ** The traversal *)
(* ================================================================== *)

Lemma frame_refl s : frame s s.
Proof. now split. Qed.

Lemma frame_trans s1 s2 s3 : frame s1 s2 -> frame s2 s3 -> frame s1 s3.
Proof. intros [] []. split; try congruence. auto. Qed.

Lemma frame_ready s s' : frame s s' -> ready s -> ready s'.
Proof.
  intros [F1 F2 _ _ _ F6] (R1 & R2 & R3). repeat split; [auto|congruence|congruence].
Qed.


Lemma top_last (l : list Matrix) (m : Matrix) :
  last l = Some m -> RayVisitor.top l = Returns m.
Proof. unfold RayVisitor.top. now intros ->. Qed.

Lemma top_Returns (l : list Matrix) (m : Matrix) :
  RayVisitor.top l = Returns m -> exists l', l = l' ++ [m].
Proof.
  unfold RayVisitor.top. destruct (last l) as [m'|] eqn:E; [|discriminate].
  intros [= ->]. apply last_Some in E. exact E.
Qed.

Lemma top_nonempty (l : list Matrix) :
  l <> [] -> exists m, RayVisitor.top l = Returns m.
Proof.
  intros Hl. unfold RayVisitor.top. destruct (last l) as [m|] eqn:E; [now exists m|].
  apply last_None in E. contradiction.
Qed.

Lemma pop_push {A : Type} (l : list A) (m : A) :
  RayVisitor.pop (RayVisitor.push l m) = l.
Proof. apply removelast_last. Qed.

Section Traversal.
Context `{C : Collaborators}.
Import RayVisitor.

Lemma visitNode_frame node obj s s' :
  visitNode node obj s = Returns s' -> frame s s'.
Proof.
  unfold visitNode. intros E.
  apply bind_Returns in E as (fromWorld & _ & E).
  destruct (ray s) as [r|] eqn:Er; [|discriminate].
  destruct (obj _) as [hit|]; [|injection E as <-; apply frame_refl].
  apply bind_Returns in E as (toWorld & _ & E).
  destruct (match intersection _ with None => true | Some b => _ end);
    injection E as <-; split; cbn; try reflexivity; rewrite Er; discriminate.
Qed.

Lemma visitCameraNode_frame s s' : visitCameraNode s = Returns s' -> frame s s'.
Proof.
  unfold visitCameraNode. intros E.
  apply bind_Returns in E as (toWorld & _ & E).
  injection E as <-. split; cbn; try reflexivity. discriminate.
Qed.

Lemma visitLightNode_frame s s' : visitLightNode s = Returns s' -> frame s s'.
Proof.
  unfold visitLightNode. intros E.
  apply bind_Returns in E as (toWorld & _ & E).
  injection E as <-. split; cbn; try reflexivity. auto.
Qed.

Lemma forEach_frame (children : list Node) :
  Forall (fun n => forall s s', accept n s = Returns s' -> frame s s') children ->
  forall s s', forEach accept children s = Returns s' -> frame s s'.
Proof.
  induction 1 as [|child rest Hchild _ IH]; intros s s' E; cbn in E.
  - injection E as <-. apply frame_refl.
  - apply bind_Returns in E as (s1 & E1 & E2).
    eapply frame_trans; eauto.
Qed.

(** Every visit that returns leaves both stacks as it found them. *)
Lemma accept_frame node : forall s s', accept node s = Returns s' -> frame s s'.
Proof.
  induction node as [transform children IH | node Hleaf] using Node_tree_ind.
  - intros s s' E. cbn in E. unfold visitGroupNode in E.
    apply bind_Returns in E as (topMatrix & _ & E).
    apply bind_Returns in E as (topInverse & _ & E).
    apply bind_Returns in E as (s1 & E1 & E).
    apply (forEach_frame _ IH) in E1. destruct E1 as [F1 F2 F3 F4 F5 F6].
    cbn in F1, F2, F3, F4, F5, F6.
    injection E as <-. split; cbn.
    + rewrite F1. apply pop_push.
    + rewrite F2. apply pop_push.
    + exact F3.
    + exact F4.
    + exact F5.
    + exact F6.
  - intros s s'. destruct node; try discriminate Hleaf; cbn;
      eauto using visitNode_frame, visitCameraNode_frame, visitLightNode_frame.
    all: intros [= <-]; apply frame_refl.
Qed.

Lemma visitNode_returns node obj s :
  ready s -> exists s', visitNode node obj s = Returns s'.
Proof.
  intros (R1 & R2 & R3). unfold visitNode.
  destruct (top_nonempty _ R2) as [toWorld ->].
  destruct (top_nonempty _ R3) as [fromWorld ->]. cbn.
  destruct (ray s) as [r|]; [|contradiction].
  destruct (obj _) as [hit|]; [|eauto]. cbn.
  destruct (match intersection s with None => true | Some b => _ end); eauto.
Qed.

Lemma forEach_returns (children : list Node) :
  Forall (fun n => forall s, ready s -> exists s', accept n s = Returns s') children ->
  forall s, ready s -> exists s', forEach accept children s = Returns s'.
Proof.
  induction 1 as [|child rest Hchild _ IH]; intros s R; cbn.
  - eauto.
  - destruct (Hchild s R) as [s1 E1]. rewrite E1. cbn.
    apply IH. eapply frame_ready; [|exact R]. now apply (accept_frame child).
Qed.

(** With a ray at hand and non-empty stacks no visit throws. *)
Lemma accept_returns node : forall s, ready s -> exists s', accept node s = Returns s'.
Proof.
  induction node as [transform children IH | node Hleaf] using Node_tree_ind.
  - intros s R. pose proof R as (R1 & R2 & R3). cbn. unfold visitGroupNode.
    destruct (top_nonempty _ R2) as [toWorld ->].
    destruct (top_nonempty _ R3) as [fromWorld E]. cbn. rewrite E. cbn.
    edestruct (forEach_returns _ IH) as [s1 ->]; [|cbn; eauto].
    repeat split; cbn; [exact R1| |]; intros E'; now apply app_eq_nil in E' as [_ ?].
  - intros s R. destruct node; try discriminate Hleaf; cbn; eauto using visitNode_returns.
    + destruct R as (_ & R2 & _). unfold visitCameraNode.
      destruct (top_nonempty _ R2) as [toWorld ->]. cbn. eauto.
    + destruct R as (_ & R2 & _). unfold visitLightNode.
      destruct (top_nonempty _ R2) as [toWorld ->]. cbn. eauto.
Qed.

(** [visitNode] on a hit, in terms of [candidate]. *)
Lemma visitNode_candidate node obj s c :
  candidate obj s = Some c ->
  exists hit objRay,
    let s1 := set_objectIntersections
                (push (objectIntersections s) (hit, objRay, node)) s in
    visitNode node obj s =
      Returns (if match intersection s with
                  | None => true
                  | Some best => Intersection.closerThan c best
                  end
               then set_intersectionColor (Node_color node)
                      (set_intersection (Some c) s1)
               else s1).
Proof.
  unfold candidate, visitNode.
  destruct (last (inverseTransformations s)) as [fromWorld|] eqn:Ef; [|discriminate].
  destruct (last (transformations s)) as [toWorld|] eqn:Et; [|discriminate].
  destruct (ray s) as [r|]; [|discriminate].
  rewrite (top_last _ _ Ef), (top_last _ _ Et). cbn.
  fold (objectRay fromWorld r).
  destruct (obj (objectRay fromWorld r)) as [hit|]; [|discriminate].
  cbn. intros [= <-]. exists hit, (objectRay fromWorld r). cbn.
  unfold worldIntersection.
  now destruct (match intersection s with None => true | Some best => _ end).
Qed.

Lemma visitNode_Returns_cases node obj s s' :
  visitNode node obj s = Returns s' ->
  (candidate obj s = None /\ s' = s) \/ (exists c, candidate obj s = Some c).
Proof.
  unfold candidate, visitNode. intros E.
  apply bind_Returns in E as (fromWorld & Ef & E).
  apply top_Returns in Ef as [ims Ef]. rewrite Ef, last_snoc.
  destruct (ray s) as [r|]; [|discriminate].
  fold (objectRay fromWorld r) in E.
  destruct (obj (objectRay fromWorld r)) as [hit|].
  - apply bind_Returns in E as (toWorld & Et & E).
    apply top_Returns in Et as [ts Et]. cbn in Et. rewrite Et, last_snoc.
    right. cbn. eauto.
  - left. injection E as <-. split; [|reflexivity].
    now destruct (last (transformations s)).
Qed.

Lemma visitNode_lightPositions node obj s s' :
  visitNode node obj s = Returns s' -> lightPositions s' = lightPositions s.
Proof.
  unfold visitNode. intros E.
  apply bind_Returns in E as (fromWorld & _ & E).
  destruct (ray s) as [r|]; [|discriminate].
  destruct (obj _) as [hit|]; [|now injection E as <-].
  apply bind_Returns in E as (toWorld & _ & E).
  destruct (match intersection _ with None => true | Some b => _ end);
    now injection E as <-.
Qed.

Lemma forEach_gatheredLights (children : list Node) (T : Matrix) :
  Forall (fun n => forall s s' T, last (transformations s) = Some T ->
            accept n s = Returns s' ->
            lightPositions s' = lightPositions s ++ gatheredLights T n) children ->
  forall s s', last (transformations s) = Some T ->
    forEach accept children s = Returns s' ->
    lightPositions s' = lightPositions s ++ flat_map (gatheredLights T) children.
Proof.
  induction 1 as [|child rest Hchild _ IH]; intros s s' Et E; cbn in E.
  - injection E as <-. cbn. now rewrite app_nil_r.
  - apply bind_Returns in E as (s1 & E1 & E2). cbn.
    rewrite (IH s1 s');
      [|now rewrite (frame_transformations _ _ (accept_frame _ _ _ E1))|exact E2].
    rewrite (Hchild _ _ _ Et E1). now rewrite app_assoc.
Qed.

(** The light list after a traversal is the one before it followed by
    the world positions of the light nodes met, in order. *)
Lemma accept_gatheredLights node :
  forall s s' T, last (transformations s) = Some T ->
    accept node s = Returns s' ->
    lightPositions s' = lightPositions s ++ gatheredLights T node.
Proof.
  induction node as [transform children IH | node Hleaf] using Node_tree_ind.
  - intros s s' T Et E. cbn in E. unfold visitGroupNode in E.
    rewrite (top_last _ _ Et) in E. cbn in E.
    apply bind_Returns in E as (topInverse & _ & E).
    apply bind_Returns in E as (s1 & E1 & E).
    apply (forEach_gatheredLights _ (Matrix.mul T (getMatrix transform)) IH) in E1;
      [|cbn; apply last_snoc].
    injection E as <-. cbn in *. exact E1.
  - intros s s' T Et. destruct node; try discriminate Hleaf; cbn.
    1-4: intros E; apply visitNode_lightPositions in E; now rewrite E, app_nil_r.
    + unfold visitCameraNode. rewrite (top_last _ _ Et). cbn.
      intros [= <-]. cbn. now rewrite app_nil_r.
    + unfold visitLightNode. rewrite (top_last _ _ Et). cbn. now intros [= <-].
    + intros [= <-]. now rewrite app_nil_r.
    + intros [= <-]. now rewrite app_nil_r.
    + intros [= <-]. now rewrite app_nil_r.
    + intros [= <-]. now rewrite app_nil_r.
Qed.

(** *** The pixel loop *)

Lemma shadePixel_data pv w px py s s' :
  shadePixel pv w px py s = Returns s' ->
  intersection s' = intersection s /\
  ImageData.width (imageData s') = ImageData.width (imageData s) /\
  ImageData.height (imageData s') = ImageData.height (imageData s) /\
  match intersection s with
  | None => bufferOf s' = bufferOf s
  | Some _ => exists r g b, bufferOf s' = writePixel w px py r g b 255 (bufferOf s)
  end.
Proof.
  unfold shadePixel. destruct (intersection s) as [best|] eqn:Ei.
  - destruct (intersectionColor s) as [col|].
    + destruct (camera s) as [cam|]; [|discriminate].
      intros [= <-]. cbn. rewrite Ei. repeat split. eauto.
    + intros [= <-]. cbn. rewrite Ei. repeat split. eauto.
  - intros [= <-]. rewrite Ei. repeat split.
Qed.

(** One iteration changes the image nowhere when the traversal found
    no intersection, and writes one pixel with alpha 255 otherwise. *)
Lemma renderPixel_data root pv w p s s' :
  renderPixel root pv w p s = Returns s' ->
  ImageData.width (imageData s') = ImageData.width (imageData s) /\
  ImageData.height (imageData s') = ImageData.height (imageData s) /\
  match intersection s' with
  | None => bufferOf s' = bufferOf s
  | Some _ =>
      exists r g b, bufferOf s' = writePixel w (fst p) (snd p) r g b 255 (bufferOf s)
  end.
Proof.
  unfold renderPixel. intros E. apply bind_Returns in E as (s1 & E1 & E2).
  apply accept_frame in E1 as [_ _ F _ _ _]. cbn in F.
  apply shadePixel_data in E2 as (Ei & Ew & Eh & Ed).
  rewrite Ei, Ew, Eh, F. repeat split.
  destruct (intersection s1); [|congruence].
  destruct Ed as (r & g & b & ->). rewrite F. eauto.
Qed.

Lemma renderPixel_length root pv w p s s' :
  renderPixel root pv w p s = Returns s' -> length (bufferOf s') = length (bufferOf s).
Proof.
  intros E. apply renderPixel_data in E as (_ & _ & E).
  destruct (intersection s'); [destruct E as (r & g & b & ->)|rewrite E]; [|reflexivity].
  apply length_writePixel.
Qed.

Lemma renderPixel_other root pv w p s s' q c :
  renderPixel root pv w p s = Returns s' ->
  fst p < w -> fst q < w -> c < 4 -> q <> p ->
  pixelAt w (bufferOf s') q c = pixelAt w (bufferOf s) q c.
Proof.
  intros E Hp Hq Hc Hne. apply renderPixel_data in E as (_ & _ & E).
  destruct (intersection s'); [destruct E as (r & g & b & ->)|now rewrite E].
  apply pixelAt_writePixel_other; try assumption. now destruct p.
Qed.

(** The loop over a list of pixels keeps the size of the image and
    leaves every pixel outside the list as it was. *)
Lemma pixelLoop_frame root pv w (l : list (nat * nat)) :
  forall s s', forEach (renderPixel root pv w) l s = Returns s' ->
  Forall (fun p => fst p < w) l ->
  ImageData.width (imageData s') = ImageData.width (imageData s) /\
  ImageData.height (imageData s') = ImageData.height (imageData s) /\
  length (bufferOf s') = length (bufferOf s) /\
  forall q c, fst q < w -> c < 4 -> q ∉ l ->
    pixelAt w (bufferOf s') q c = pixelAt w (bufferOf s) q c.
Proof.
  induction l as [|p l IH]; intros s s' E Hl; cbn in E.
  - injection E as <-. auto.
  - apply bind_Returns in E as (s1 & E1 & E2).
    apply Forall_cons in Hl as [Hp Hl].
    destruct (IH _ _ E2 Hl) as (Ew & Eh & El & Eo).
    pose proof (renderPixel_data _ _ _ _ _ _ E1) as (Ew1 & Eh1 & _).
    repeat split; [congruence|congruence| |].
    + rewrite El. eapply renderPixel_length; eauto.
    + intros q c Hq Hc Hnot. apply not_elem_of_cons in Hnot as [Hne Hnot].
      rewrite Eo by assumption. eapply renderPixel_other; eauto.
Qed.

Lemma shadePixel_bytes pv w px py s s' :
  shadePixel pv w px py s = Returns s' ->
  Forall isByte (bufferOf s) -> Forall isByte (bufferOf s').
Proof.
  unfold shadePixel. intros E Hd.
  destruct (intersection s); [|now injection E as <-].
  destruct (intersectionColor s).
  - destruct (camera s); [|discriminate]. injection E as <-. cbn.
    apply writePixel_bytes; try apply toUint8Clamp_range; [assumption|].
    unfold isByte. lia.
  - injection E as <-. cbn. apply writePixel_bytes; try assumption; unfold isByte; lia.
Qed.

Lemma pixelLoop_bytes root pv w (l : list (nat * nat)) :
  forall s s', forEach (renderPixel root pv w) l s = Returns s' ->
  Forall isByte (bufferOf s) -> Forall isByte (bufferOf s').
Proof.
  induction l as [|p l IH]; intros s s' E Hd; cbn in E.
  - now injection E as <-.
  - apply bind_Returns in E as (s1 & E1 & E2). apply (IH _ _ E2).
    unfold renderPixel in E1. apply bind_Returns in E1 as (s0 & E0 & E1).
    apply (shadePixel_bytes _ _ _ _ _ _ E1).
    apply accept_frame in E0 as [_ _ F _ _ _]. now rewrite F.
Qed.

(** The image data the constructor stores has 4 bytes per pixel. *)
Lemma constructor_wellFormed canvas width height :
  ImageData.wellFormed (imageData (constructor canvas width height)).
Proof.
  unfold ImageData.wellFormed. cbn [constructor imageData ImageData.data
    ImageData.width ImageData.height].
  now rewrite length_map, length_seq.
Qed.

(** The iteration of a pixel whose traversal leaves an intersection
    without a colour writes 0, 0, 0, 255. *)
Lemma renderPixel_black root pv w p s s' :
  renderPixel root pv w p s = Returns s' ->
  intersection s' <> None -> intersectionColor s' = None ->
  bufferOf s' = writePixel w (fst p) (snd p) 0 0 0 255 (bufferOf s).
Proof.
  unfold renderPixel. intros E Hi Hc. apply bind_Returns in E as (s1 & E1 & E2).
  apply accept_frame in E1 as [_ _ F _ _ _]. cbn in F.
  unfold shadePixel in E2. destruct (intersection s1) as [best|] eqn:Ei.
  - destruct (intersectionColor s1) as [col|] eqn:Ec.
    + destruct (camera s1); [|discriminate]. injection E2 as <-. cbn in Hc.
      congruence.
    + injection E2 as <-. cbn. now rewrite F.
  - injection E2 as <-. congruence.
Qed.

(** [render] seen from one pixel [p]: the iterations before it leave
    [p] at its cleared value, the iteration of [p] ends in [atPixel],
    and the iterations after it do not touch [p] any more. *)
Lemma render_at_pixel rootNode camera lights phongValues this final before p after :
  ImageData.wellFormed (imageData this) ->
  render rootNode camera lights phongValues this = Returns final ->
  let width := ImageData.width (imageData this) in
  let height := ImageData.height (imageData this) in
  let cleared := set_data (replicate (length (bufferOf this)) 0%Z) this in
  pixelOrder width height = before ++ p :: after ->
  exists s1 atPixel,
    renderPixel rootNode phongValues width p s1 = Returns atPixel /\
    forEach (renderPixel rootNode phongValues width) (before ++ [p]) cleared
      = Returns atPixel /\
    4 * (width * snd p + fst p) + 3 < length (bufferOf s1) /\
    (forall c, c < 4 -> pixelAt width (bufferOf s1) p c = Some 0%Z) /\
    (forall c, c < 4 ->
       pixelAt width (bufferOf final) p c = pixelAt width (bufferOf atPixel) p c).
Proof.
  intros Hwf E width height cleared Hsplit.
  unfold render in E. cbn zeta in E. fold cleared in E.
  change (ImageData.width (imageData cleared)) with width in E.
  change (ImageData.height (imageData cleared)) with height in E.
  rewrite (forEach_nested (renderPixel rootNode phongValues width)) in E.
  fold (pixelOrder width height) in E.
  assert (Hall : Forall (fun q => fst q < width) (pixelOrder width height)).
  { apply Forall_forall. intros q Hq. now apply elem_of_pixelOrder in Hq. }
  pose proof (NoDup_pixelOrder width height) as Hnd.
  assert (Hp : p ∈ pixelOrder width height)
    by (rewrite Hsplit, elem_of_app, elem_of_cons; auto).
  apply elem_of_pixelOrder in Hp as [Hpx Hpy].
  rewrite Hsplit in E, Hall, Hnd.
  apply NoDup_app in Hnd as (_ & Hdisj & Hnd). apply NoDup_cons in Hnd as [Hafter _].
  assert (Hbefore : p ∉ before)
    by (intros Hin; apply (Hdisj _ Hin), elem_of_cons; auto).
  apply Forall_app in Hall as [Hall1 Hall2]. apply Forall_cons in Hall2 as [_ Hall2].
  rewrite forEach_app in E. apply bind_Returns in E as (s1 & E1 & E2).
  cbn in E2. apply bind_Returns in E2 as (s2 & E2 & E3).
  destruct (pixelLoop_frame _ _ _ _ _ _ E1 Hall1) as (_ & _ & El1 & Eo1).
  destruct (pixelLoop_frame _ _ _ _ _ _ E3 Hall2) as (_ & _ & _ & Eo3).
  cbn in El1. rewrite length_replicate in El1.
  exists s1, s2. split; [exact E2|]. split.
  { rewrite forEach_app, E1. cbn. now rewrite E2. }
  split.
  { rewrite El1, Hwf. apply pixel_in_range; [assumption|assumption|lia]. }
  split.
  - intros c Hc. rewrite Eo1 by assumption.
    unfold pixelAt. cbn. apply lookup_replicate_2. rewrite Hwf.
    now apply pixel_in_range.
  - intros c Hc. now apply Eo3.
Qed.

(* ================================================================ *)
(** ** The properties of the visitor *)
(* ================================================================ *)

(** C3 (as amended).  The recomputation of t in [visitNode] divides by
    the x component of the direction of the object-space ray and
    nothing guards that division: whenever that component is zero the
    recomputed parameter is [NaN] or an infinity, and it is the stored
    intersection parameter when the hit is the first of its pixel. *)
Theorem unguarded_division_by_direction_x node unitObject this fromWorld thisRay c :
  last (inverseTransformations this) = Some fromWorld ->
  ray this = Some thisRay ->
  Vector.x (Ray.direction (objectRay fromWorld thisRay)) = Num.zero ->
  candidate unitObject this = Some c ->
  Num.isFinite (Intersection.t c) = false /\
  (intersection this = None ->
   exists this', visitNode node unitObject this = Returns this' /\
                 intersection this' = Some c).
Proof.
  intros Ef Er Ex Ec. split.
  - unfold candidate in Ec. rewrite Ef, Er in Ec.
    destruct (last (transformations this)) as [toWorld|]; [|discriminate].
    destruct (unitObject _) as [hit|]; [|discriminate].
    injection Ec as <-. unfold worldIntersection. cbn [Intersection.t].
    rewrite Ex. apply div_zero_not_finite.
  - intros Ei. destruct (visitNode_candidate node _ _ _ Ec) as (hit & objRay & E).
    cbn zeta in E. rewrite Ei in E. eexists. split; [exact E|reflexivity].
Qed.

(** C4 (as amended).  Nothing checks that a camera has been visited.
    A shape node reached while the visitor holds no ray at all makes
    the visit throw a [TypeError]; the per-pixel reset keeps the ray,
    so a shape node reached with a ray left by an earlier pixel is
    intersected with that ray and the visit returns; a light node
    never reads the ray and its visit returns. *)
Theorem missing_ray_is_a_TypeError_only_when_no_ray_is_left node unitObject this :
  (ray this = None -> visitNode node unitObject this = Throws TypeError) /\
  (forall px py, ray (resetPixel px py this) = ray this) /\
  (forall thisRay, ray this = Some thisRay ->
     transformations this <> [] -> inverseTransformations this <> [] ->
     exists this', visitNode node unitObject this = Returns this' /\
                   ray this' = Some thisRay) /\
  (transformations this <> [] ->
     exists this', visitLightNode this = Returns this').
Proof.
  repeat split.
  - intros Er. unfold visitNode.
    destruct (top (inverseTransformations this)) as [fromWorld|[]]; cbn;
      [now rewrite Er | reflexivity].
  - intros thisRay Er Ht Hi.
    destruct (visitNode_returns node unitObject this) as [this' E].
    { repeat split; [congruence|assumption|assumption]. }
    exists this'. split; [exact E|].
    unfold visitNode in E. apply bind_Returns in E as (fromWorld & _ & E).
    rewrite Er in E. destruct (unitObject _); [|now injection E as <-].
    apply bind_Returns in E as (toWorld & _ & E).
    destruct (match intersection _ with None => true | Some b => _ end);
      now injection E as <-.
  - intros Ht. destruct (top_nonempty _ Ht) as [toWorld E].
    unfold visitLightNode. rewrite E. cbn. eauto.
Qed.

(** C5 (as amended).  After [render] returns, the raster still is a
    width x height buffer of 4 bytes per pixel, each in 0..255; a pixel
    for which the traversal found an intersection has alpha 255, and a
    pixel for which no intersection exists keeps the cleared value 0 in
    all four channels, alpha included.  [atPixel] is the state right
    after the iteration of the pixel [p]. *)
Theorem render_writes_alpha_only_where_a_hit_exists
    rootNode camera lights phongValues this final :
  ImageData.wellFormed (imageData this) ->
  render rootNode camera lights phongValues this = Returns final ->
  let width := ImageData.width (imageData this) in
  let height := ImageData.height (imageData this) in
  let cleared := set_data (replicate (length (bufferOf this)) 0%Z) this in
  ImageData.width (imageData final) = width /\
  ImageData.height (imageData final) = height /\
  ImageData.wellFormed (imageData final) /\
  Forall isByte (bufferOf final) /\
  forall before p after,
    pixelOrder width height = before ++ p :: after ->
    exists atPixel,
      forEach (renderPixel rootNode phongValues width) (before ++ [p]) cleared
        = Returns atPixel /\
      match intersection atPixel with
      | None => forall c, c < 4 -> pixelAt width (bufferOf final) p c = Some 0%Z
      | Some _ => pixelAt width (bufferOf final) p 3 = Some 255%Z
      end.
Proof.
  intros Hwf E width height cleared.
  assert (Hsize : ImageData.width (imageData final) = width /\
                  ImageData.height (imageData final) = height /\
                  length (bufferOf final) = length (bufferOf this)).
  { pose proof E as E'. unfold render in E'. cbn zeta in E'.
    rewrite (forEach_nested (renderPixel rootNode phongValues _)) in E'.
    apply pixelLoop_frame in E' as (Ew & Eh & El & _).
    - cbn in Ew, Eh, El. now rewrite length_replicate in El.
    - apply Forall_forall. intros q Hq.
      now apply (elem_of_pixelOrder width height) in Hq. }
  destruct Hsize as (Ew & Eh & El).
  split; [exact Ew|]. split; [exact Eh|]. split.
  { unfold ImageData.wellFormed. rewrite El, Ew, Eh. exact Hwf. }
  split.
  { unfold render in E. cbn zeta in E.
    rewrite (forEach_nested (renderPixel rootNode phongValues _)) in E.
    apply pixelLoop_bytes in E; [exact E|]. cbn.
    apply Forall_replicate. unfold isByte. lia. }
  intros before p after Hsplit.
  destruct (render_at_pixel _ _ _ _ _ _ _ _ _ Hwf E Hsplit)
    as (s1 & atPixel & E2 & Eat & Hlen & Hzero & Hfinal).
  exists atPixel. split; [exact Eat|].
  pose proof (renderPixel_data _ _ _ _ _ _ E2) as (_ & _ & Ed).
  destruct (intersection atPixel).
  - destruct Ed as (r & g & b & Ed). rewrite Hfinal, Ed by lia.
    destruct p as [qx qy]. now apply pixelAt_writePixel_same.
  - intros c Hc. rewrite Hfinal, Ed by assumption. now apply Hzero.
Qed.



(** C7.  Stack discipline.  The traversal of a pixel starts with both
    stacks equal to [[identity]]; when the traversal of the tree
    returns, both are [[identity]] again; every visit that returns
    leaves both depths unchanged; and the traversal does return as
    soon as the visitor holds a ray. *)
Theorem stacks_return_to_depth_one rootNode px py this :
  let start := resetPixel px py this in
  transformations start = [Matrix.identity] /\
  inverseTransformations start = [Matrix.identity] /\
  (forall this', accept rootNode start = Returns this' ->
     transformations this' = [Matrix.identity] /\
     inverseTransformations this' = [Matrix.identity]) /\
  (forall node s s', accept node s = Returns s' ->
     length (transformations s') = length (transformations s) /\
     length (inverseTransformations s') = length (inverseTransformations s)) /\
  (ray this <> None -> exists this', accept rootNode start = Returns this').
Proof.
  cbn zeta. split; [reflexivity|]. split; [reflexivity|]. split; [|split].
  - intros this' E. apply accept_frame in E as [F1 F2 _ _ _ _]. now split.
  - intros node s s' E. apply accept_frame in E as [F1 F2 _ _ _ _].
    now rewrite F1, F2.
  - intros Er. apply accept_returns. repeat split; [exact Er|discriminate|discriminate].
Qed.

(** C8.  With a best intersection at hand, the visit of a shape node
    either keeps it together with its colour, or replaces it by the
    candidate of the node, whose t is then strictly smaller, and
    remembers the colour of the node; a candidate with exactly the
    same t never replaces it, so on a tie the node visited first
    supplies the intersection and the colour. *)
Theorem best_is_replaced_only_by_a_strictly_closer_hit node unitObject this best :
  intersection this = Some best ->
  (forall this', visitNode node unitObject this = Returns this' ->
     (intersection this' = Some best /\ intersectionColor this' = intersectionColor this) \/
     (exists c, candidate unitObject this = Some c /\
                (Intersection.t c <? Intersection.t best)%num = true /\
                intersection this' = Some c /\
                intersectionColor this' = Node_color node)) /\
  (forall c, candidate unitObject this = Some c ->
     Intersection.t c = Intersection.t best ->
     exists this', visitNode node unitObject this = Returns this' /\
                   intersection this' = Some best /\
                   intersectionColor this' = intersectionColor this).
Proof.
  intros Eb. split.
  - intros this' E. destruct (visitNode_Returns_cases _ _ _ _ E) as [[_ ->]|[c Ec]].
    + left. now split.
    + destruct (visitNode_candidate node _ _ _ Ec) as (hit & objRay & E').
      cbn zeta in E'. rewrite E in E'. rewrite Eb in E'.
      unfold Intersection.closerThan in E'.
      destruct (Intersection.t c <? Intersection.t best)%num eqn:El;
        injection E' as ->; cbn.
      * right. exists c. repeat split; assumption.
      * left. now split.
  - intros c Ec Et.
    destruct (visitNode_candidate node _ _ _ Ec) as (hit & objRay & E').
    cbn zeta in E'. rewrite Eb in E'. unfold Intersection.closerThan in E'.
    rewrite Et, ltb_irrefl in E'. eexists. split; [exact E'|]. cbn. now split.
Qed.

(** C9.  When the traversal of a pixel leaves a best intersection but
    no intersection colour, that pixel of the raster [render] returns
    is opaque black, 0, 0, 0, 255; the branch that writes it throws
    nothing and its outcome is the same whatever the shading function,
    which is not called. *)
Theorem hit_without_colour_is_opaque_black
    rootNode camera lights phongValues this final before p after atPixel :
  ImageData.wellFormed (imageData this) ->
  render rootNode camera lights phongValues this = Returns final ->
  let width := ImageData.width (imageData this) in
  let height := ImageData.height (imageData this) in
  let cleared := set_data (replicate (length (bufferOf this)) 0%Z) this in
  pixelOrder width height = before ++ p :: after ->
  forEach (renderPixel rootNode phongValues width) (before ++ [p]) cleared
    = Returns atPixel ->
  intersection atPixel <> None ->
  intersectionColor atPixel = None ->
  (pixelAt width (bufferOf final) p 0 = Some 0%Z /\
   pixelAt width (bufferOf final) p 1 = Some 0%Z /\
   pixelAt width (bufferOf final) p 2 = Some 0%Z /\
   pixelAt width (bufferOf final) p 3 = Some 255%Z) /\
  (forall s shade,
     intersection s <> None -> intersectionColor s = None ->
     @shadePixel (withPhong C shade) phongValues width (fst p) (snd p) s
     = Returns (set_data (writePixel width (fst p) (snd p) 0 0 0 255 (bufferOf s)) s)).
Proof.
  intros Hwf E width height cleared Hsplit Eat Hi Hc. split.
  - destruct (render_at_pixel _ _ _ _ _ _ _ _ _ Hwf E Hsplit)
      as (s1 & atPixel' & E2 & Eat' & Hlen & _ & Hfinal).
    fold width cleared in Eat'. rewrite Eat in Eat'. injection Eat' as <-.
    rewrite !Hfinal by lia. rewrite (renderPixel_black _ _ _ _ _ _ E2 Hi Hc).
    destruct p as [qx qy]. now apply pixelAt_writePixel_same.
  - intros s shade Hs Hcs. unfold shadePixel.
    destruct (intersection s); [|contradiction]. now rewrite Hcs.
Qed.

End Traversal.

(* ================================================================== *)
(** ** The visitor at work on concrete scenes *)
(* ================================================================== *)

(** C2 (code defect).  The stored t is meant to be the parameter of the
    hit along the world ray.  [visitNode] subtracts the origin of the
    object-space ray from the world hit point and divides by the
    direction of the object-space ray.  For the unit sphere translated
    by (5, 0, -12) and the world ray from the origin towards it, the hit
    lies 12 units down the world ray, and the stored t is 25. *)
Theorem stored_parameter_mixes_object_and_world_space :
  match Examples.bestOf (@RayVisitor.accept Sample.collaborators
                           Examples.sphereOnSlantedRay
                           (Examples.afterCamera Examples.slantedRay)) with
  | Some i =>
      Intersection.t i = Num.of_Z 25 /\
      worldParameter Examples.slantedRay i = Num.of_Z 12
  | None => False
  end.
Proof. vm_compute. split; num_eq. Qed.

(** A ray straight down the z axis has a zero x component in object
    space: the sphere of the boilerplate scene is hit and the stored
    parameter is [NaN]. *)
Lemma zero_direction_component_stores_NaN :
  option_map Intersection.t
    (Examples.bestOf (@RayVisitor.accept Sample.collaborators
                        Examples.sphereOnAxis
                        (Examples.afterCamera Examples.axisRay)))
  = Some NaN.
Proof. vm_compute. reflexivity. Qed.

(** A light node ahead of the camera does not make [render] fail; a
    sphere ahead of the camera makes a fresh visitor throw, and a
    visitor that has rendered before goes on with the ray it still
    holds. *)
Lemma light_or_shape_before_camera_renders_without_error :
  returned (Examples.run Examples.lightBeforeCamera Sample.visitor) = true /\
  returned (Examples.run Examples.sphereThenCamera Sample.visitor) = false /\
  returned (Examples.run Examples.sphereThenCamera
              (Examples.stateOf Sample.visitor
                 (Examples.run Examples.cameraThenSphere Sample.visitor))) = true.
Proof. repeat split; vm_compute; reflexivity. Qed.

(** A scene without shapes: [render] returns and the alpha of the first
    pixel is 0. *)
Lemma pixel_without_hit_has_alpha_zero :
  match Examples.run Examples.cameraOnly Sample.visitor with
  | Returns final => pixelAt 2 (bufferOf final) (0, 0) 3 = Some 0%Z
  | Throws _ => False
  end.
Proof. vm_compute. reflexivity. Qed.


Lemma unguarded_division_by_direction_x_witness :
  Num.isFinite (Intersection.t (Examples.candidateOf Examples.belowAxis)) = false /\
  (exists this',
     @RayVisitor.visitNode Sample.collaborators (SphereNode (Some Examples.red))
        Sample.unitSphere Examples.belowAxis = Returns this' /\
     RayVisitor.intersection this' = Some (Examples.candidateOf Examples.belowAxis)).
Proof.
  destruct (@unguarded_division_by_direction_x Sample.collaborators
              (SphereNode (Some Examples.red)) Sample.unitSphere Examples.belowAxis
              (Matrix.translation (Vector.mul (Sample.vec 0 0 (-5) 0) (- Num.one)))
              Examples.axisRay (Examples.candidateOf Examples.belowAxis))
    as [Hnot Hstored].
  - reflexivity.
  - reflexivity.
  - vm_compute. num_eq.
  - vm_compute. reflexivity.
  - split; [exact Hnot | apply Hstored; reflexivity].
Defined.

Lemma missing_ray_witness :
  @RayVisitor.visitNode Sample.collaborators (SphereNode (Some Examples.red))
     Sample.unitSphere (RayVisitor.resetPixel 0 0 Sample.visitor) = Throws TypeError.
Proof.
  apply (@missing_ray_is_a_TypeError_only_when_no_ray_is_left Sample.collaborators).
  reflexivity.
Defined.

Lemma render_alpha_witness :
  ImageData.wellFormed
    (RayVisitor.imageData
       (Examples.stateOf Sample.visitor
          (Examples.run Examples.cameraThenSphere Sample.visitor))).
Proof.
  apply (@render_writes_alpha_only_where_a_hit_exists Sample.collaborators
           Examples.cameraThenSphere Sample.cameraArgument [] Sample.phongValues
           Sample.visitor
           (Examples.stateOf Sample.visitor
              (Examples.run Examples.cameraThenSphere Sample.visitor))).
  - reflexivity.
  - vm_compute. reflexivity.
Defined.


Lemma stacks_witness :
  exists this',
    @RayVisitor.accept Sample.collaborators Examples.cameraThenSphere
       (RayVisitor.resetPixel 1 1 (Examples.afterCamera Examples.axisRay)) = Returns this'.
Proof.
  apply (@stacks_return_to_depth_one Sample.collaborators Examples.cameraThenSphere 1 1
           (Examples.afterCamera Examples.axisRay)).
  discriminate.
Defined.

Lemma tie_witness :
  exists this',
    @RayVisitor.visitNode Sample.collaborators (SphereNode (Some Examples.blue))
       Sample.unitSphere Examples.afterRedSphere = Returns this' /\
    RayVisitor.intersection this' = Some (Examples.hitOf Examples.afterRedSphere) /\
    RayVisitor.intersectionColor this' = Some Examples.red.
Proof.
  apply (@best_is_replaced_only_by_a_strictly_closer_hit Sample.collaborators
           (SphereNode (Some Examples.blue)) Sample.unitSphere Examples.afterRedSphere
           (Examples.hitOf Examples.afterRedSphere))
    with (c := Examples.candidateOf Examples.afterRedSphere).
  - vm_compute. reflexivity.
  - vm_compute. reflexivity.
  - vm_compute. reflexivity.
Defined.

Lemma black_fallback_witness :
  pixelAt 2 (bufferOf (Examples.stateOf Sample.visitor
                         (Examples.run Examples.colourlessSphere Sample.visitor)))
          (0, 0) 3 = Some 255%Z.
Proof.
  apply (@hit_without_colour_is_opaque_black Sample.collaborators
           Examples.colourlessSphere Sample.cameraArgument [] Sample.phongValues
           Sample.visitor
           (Examples.stateOf Sample.visitor
              (Examples.run Examples.colourlessSphere Sample.visitor))
           [] (0, 0) [(0, 1); (1, 0); (1, 1)]
           (Examples.stateOf Sample.visitor
              (@RayVisitor.renderPixel Sample.collaborators Examples.colourlessSphere
                 Sample.phongValues 2 (0, 0)
                 (RayVisitor.set_data (replicate 16 0%Z) Sample.visitor)))).
  - reflexivity.
  - vm_compute. reflexivity.
  - reflexivity.
  - vm_compute. reflexivity.
  - vm_compute. discriminate.
  - vm_compute. reflexivity.
Defined.

(* ================================================================== *)
(** ** The constructors of [Scaling] and [SQT] *)
(* ================================================================== *)

Lemma Qc_is_zero_false (a : Qc) : a <> 0%Qc -> Num.Qc_is_zero a = false.
Proof.
  intros Ha. unfold Num.Qc_is_zero. destruct (Qeq_bool a 0) eqn:E; [|reflexivity].
  exfalso. apply Ha. apply Qc_is_canon. now apply Qeq_bool_eq.
Qed.

Lemma one_div_Fin (a : Qc) : a <> 0%Qc -> (Num.one / Fin a)%num = Fin (/ a)%Qc.
Proof.
  intros Ha. unfold Num.one. cbn. rewrite (Qc_is_zero_false a Ha).
  f_equal. unfold Qcdiv. ring.
Qed.

Lemma scaling_reciprocal_inverse (a b c d : Qc) :
  a <> 0%Qc -> b <> 0%Qc -> c <> 0%Qc ->
  inverseOf (Matrix.scaling (finVector a b c d))
            (Matrix.scaling (Vector.new (Num.one / Fin a) (Num.one / Fin b)
                                        (Num.one / Fin c) Num.zero)).
Proof.
  intros Ha Hb Hc. rewrite !one_div_Fin by assumption.
  split; unfold finVector, Matrix.scaling, Matrix.identity, Matrix.mul, Matrix.mulRow,
    Matrix.col, Vector.dot, Num.zero, Num.one; cbn;
    entrywise ltac:(apply (f_equal Fin)); field; assumption.
Qed.

Lemma representable_round (q : Qc) :
  Binary64.representable q = true -> Binary64.round (Fin q) = Fin q.
Proof.
  unfold Binary64.representable. destruct (Binary64.round (Fin q)) as [r| | |];
    try discriminate. intros E. f_equal. apply Qc_is_canon. now apply Qeq_bool_eq.
Qed.

Lemma reciprocal_exact (a : Qc) :
  a <> 0%Qc -> Binary64.representable (/ a) = true ->
  Binary64.div Num.one (Fin a) = (Num.one / Fin a)%num.
Proof.
  intros Ha Hr. unfold Binary64.div. rewrite (one_div_Fin a Ha).
  now apply representable_round.
Qed.

Lemma Qc_mul_0_r (p : Qc) : (p * 0 = 0)%Qc. Proof. ring. Qed.
Lemma Qc_mul_0_l (p : Qc) : (0 * p = 0)%Qc. Proof. ring. Qed.

(** The product of a scaling matrix with the one of the reciprocals,
    rounded to binary64 operation by operation. *)
Lemma scaling_reciprocal_binary64 (a b c d : Qc) :
  a <> 0%Qc -> b <> 0%Qc -> c <> 0%Qc ->
  Binary64.Matrix.mul (Matrix.scaling (finVector a b c d))
                      (Matrix.scaling (finVector (/ a) (/ b) (/ c) 0)) = Matrix.identity /\
  Binary64.Matrix.mul (Matrix.scaling (finVector (/ a) (/ b) (/ c) 0))
                      (Matrix.scaling (finVector a b c d)) = Matrix.identity.
Proof.
  intros Ha Hb Hc.
  split; unfold Binary64.Matrix.mul, Binary64.Matrix.mulRow, Binary64.Vector.dot,
    Binary64.mul, Binary64.add, Matrix.scaling, Matrix.col, Matrix.identity, finVector,
    Num.zero, Num.one; cbn -[Binary64.round];
    rewrite ?Qc_mul_0_r, ?Qc_mul_0_l, ?(Qcmult_inv_r a), ?(Qcmult_inv_r b),
      ?(Qcmult_inv_r c), ?(Qcmult_inv_l a), ?(Qcmult_inv_l b), ?(Qcmult_inv_l c)
      by assumption;
    matrix_eq.
Qed.

(** X2.  The constructor of [Scaling] stores a true inverse where the
    reciprocals are exact: for a scale vector with finite x, y and z
    other than zero whose reciprocals are binary64 numbers (2, 0.5 and
    the other powers of two), the divisions [1 / scale.x], [1 /
    scale.y], [1 / scale.z] do not round, and the matrix and the
    inverse that are stored multiply to the identity in both orders,
    in exact arithmetic and in binary64 alike. *)
Theorem scaling_constructor_inverse (a b c d : Qc) :
  a <> 0%Qc -> b <> 0%Qc -> c <> 0%Qc ->
  Binary64.representable (/ a) = true ->
  Binary64.representable (/ b) = true ->
  Binary64.representable (/ c) = true ->
  let this := Scaling.super (Scaling.new (finVector a b c d)) in
  Binary64.div Num.one (Fin a) = (Num.one / Fin a)%num /\
  Binary64.div Num.one (Fin b) = (Num.one / Fin b)%num /\
  Binary64.div Num.one (Fin c) = (Num.one / Fin c)%num /\
  inverseOf (getMatrix this) (getInverseMatrix this) /\
  Binary64.Matrix.mul (getMatrix this) (getInverseMatrix this) = Matrix.identity /\
  Binary64.Matrix.mul (getInverseMatrix this) (getMatrix this) = Matrix.identity.
Proof.
  intros Ha Hb Hc Ra Rb Rc. cbn zeta.
  split; [now apply reciprocal_exact|]. split; [now apply reciprocal_exact|].
  split; [now apply reciprocal_exact|].
  split; [cbn; now apply scaling_reciprocal_inverse|].
  cbn [getMatrix getInverseMatrix matrix inverse Scaling.super Scaling.new].
  change (Vector.x (finVector a b c d)) with (Fin a).
  change (Vector.y (finVector a b c d)) with (Fin b).
  change (Vector.z (finVector a b c d)) with (Fin c).
  rewrite !one_div_Fin by assumption.
  now apply scaling_reciprocal_binary64.
Qed.

Lemma scaling_constructor_inverse_witness :
  let this := Scaling.super (Scaling.new (finVector (Q2Qc 2) (Q2Qc 2) (Q2Qc 2) 0)) in
  Binary64.div Num.one (Fin (Q2Qc 2)) = (Num.one / Fin (Q2Qc 2))%num /\
  Binary64.div Num.one (Fin (Q2Qc 2)) = (Num.one / Fin (Q2Qc 2))%num /\
  Binary64.div Num.one (Fin (Q2Qc 2)) = (Num.one / Fin (Q2Qc 2))%num /\
  inverseOf (getMatrix this) (getInverseMatrix this) /\
  Binary64.Matrix.mul (getMatrix this) (getInverseMatrix this) = Matrix.identity /\
  Binary64.Matrix.mul (getInverseMatrix this) (getMatrix this) = Matrix.identity.
Proof.
  apply (scaling_constructor_inverse (Q2Qc 2) (Q2Qc 2) (Q2Qc 2) 0);
    try discriminate; vm_compute; reflexivity.
Defined.

Lemma one_div_zero : (Num.one / Num.zero)%num = PInf.
Proof. reflexivity. Qed.

(** X3.  Nothing guards the divisions in the constructor of [Scaling]:
    as soon as one of x, y and z of the scale vector is zero, the stored
    matrix is finite but the stored inverse holds an infinity, and
    their products are not the identity in either order. *)
Theorem scaling_constructor_zero_component (a b c d : Qc) :
  a = 0%Qc \/ b = 0%Qc \/ c = 0%Qc ->
  let this := Scaling.super (Scaling.new (finVector a b c d)) in
  Matrix.isFinite (getMatrix this) = true /\
  Matrix.isFinite (getInverseMatrix this) = false /\
  Matrix.mul (getMatrix this) (getInverseMatrix this) <> Matrix.identity /\
  Matrix.mul (getInverseMatrix this) (getMatrix this) <> Matrix.identity.
Proof.
  intros Hz. cbn zeta. split; [reflexivity|].
  assert (Hinf : Matrix.isFinite
            (getInverseMatrix (Scaling.super (Scaling.new (finVector a b c d)))) = false).
  { destruct (Matrix.isFinite _) eqn:E; [|reflexivity]. exfalso.
    apply Matrix_isFinite_inv in E as ([[[? ?] ?] ?] & [[[? ?] ?] ?] &
                                       [[[? ?] ?] ?] & [[[? ?] ?] ?] & E).
    destruct Hz as [-> | [-> | ->]].
    - apply (f_equal (fun m => Vector.x (Matrix.row0 m))) in E. discriminate E.
    - apply (f_equal (fun m => Vector.y (Matrix.row1 m))) in E. discriminate E.
    - apply (f_equal (fun m => Vector.z (Matrix.row2 m))) in E. discriminate E. }
  split; [exact Hinf|]. split; intros E; apply mul_identity_finite in E as [E1 E2];
    congruence.
Qed.

(** Rounding turns no infinity and no [NaN] into a number. *)
Lemma round_Fin_inv (a : number) (c : Qc) :
  Binary64.round a = Fin c -> Num.isFinite a = true.
Proof. destruct a; [reflexivity|discriminate..]. Qed.

Lemma binary64_dot_Fin_inv (u v : Vector) (c : Qc) :
  Binary64.Vector.dot u v = Fin c -> Vector.isFinite u = true /\ Vector.isFinite v = true.
Proof.
  destruct u as [a1 a2 a3 a4], v as [b1 b2 b3 b4].
  unfold Binary64.Vector.dot, Binary64.add, Binary64.mul, Vector.isFinite.
  cbn [Vector.x Vector.y Vector.z Vector.w]. intros E.
  apply round_Fin_inv, isFinite_Fin in E as [c0 E].
  destruct (add_Fin_inv _ _ _ E) as [E123 E4].
  apply isFinite_Fin in E123 as [c123 E123], E4 as [c4 E4].
  apply round_Fin_inv, isFinite_Fin in E123 as [c123' E123], E4 as [c4' E4].
  destruct (add_Fin_inv _ _ _ E123) as [E12 E3].
  apply isFinite_Fin in E12 as [c12 E12], E3 as [c3 E3].
  apply round_Fin_inv, isFinite_Fin in E12 as [c12' E12], E3 as [c3' E3].
  destruct (add_Fin_inv _ _ _ E12) as [E1 E2].
  apply isFinite_Fin in E1 as [c1 E1], E2 as [c2 E2].
  apply round_Fin_inv, isFinite_Fin in E1 as [c1' E1], E2 as [c2' E2].
  apply mul_Fin_inv in E1 as [-> ->], E2 as [-> ->], E3 as [-> ->], E4 as [-> ->].
  now split.
Qed.

(** A binary64 product of matrices is finite only if both factors
    are. *)
Lemma binary64_mul_finite_inv (a b : Matrix) :
  Matrix.isFinite (Binary64.Matrix.mul a b) = true ->
  Matrix.isFinite a = true /\ Matrix.isFinite b = true.
Proof.
  intros F. apply Matrix_isFinite_inv in F
    as ([[[? ?] ?] ?] & [[[? ?] ?] ?] & [[[? ?] ?] ?] & [[[? ?] ?] ?] & E).
  pose proof (f_equal (fun m => Vector.x (Matrix.row0 m)) E) as E00.
  pose proof (f_equal (fun m => Vector.y (Matrix.row0 m)) E) as E01.
  pose proof (f_equal (fun m => Vector.z (Matrix.row0 m)) E) as E02.
  pose proof (f_equal (fun m => Vector.w (Matrix.row0 m)) E) as E03.
  pose proof (f_equal (fun m => Vector.x (Matrix.row1 m)) E) as E10.
  pose proof (f_equal (fun m => Vector.x (Matrix.row2 m)) E) as E20.
  pose proof (f_equal (fun m => Vector.x (Matrix.row3 m)) E) as E30.
  cbn [Binary64.Matrix.mul Binary64.Matrix.mulRow Matrix.row0 Matrix.row1 Matrix.row2
       Matrix.row3 Vector.x Vector.y Vector.z Vector.w finMatrix finRow]
    in E00, E01, E02, E03, E10, E20, E30.
  apply binary64_dot_Fin_inv in E00 as [A0 B0], E01 as [_ B1], E02 as [_ B2],
    E03 as [_ B3], E10 as [A1 _], E20 as [A2 _], E30 as [A3 _].
  split.
  - unfold Matrix.isFinite. now rewrite A0, A1, A2, A3.
  - destruct b as [[b00 b01 b02 b03] [b10 b11 b12 b13]
                   [b20 b21 b22 b23] [b30 b31 b32 b33]].
    unfold Matrix.col, Vector.isFinite in B0, B1, B2, B3. cbn in B0, B1, B2, B3.
    rewrite !andb_true_iff in B0, B1, B2, B3.
    unfold Matrix.isFinite, Vector.isFinite; cbn.
    destruct B0 as [[[-> ->] ->] ->], B1 as [[[-> ->] ->] ->],
      B2 as [[[-> ->] ->] ->], B3 as [[[-> ->] ->] ->].
    reflexivity.
Qed.

Lemma binary64_reciprocal_not_finite (a b c d : Qc) :
  a = 0%Qc \/ b = 0%Qc \/ c = 0%Qc ->
  Matrix.isFinite
    (Matrix.scaling (Vector.new (Binary64.div Num.one (Fin a))
                                (Binary64.div Num.one (Fin b))
                                (Binary64.div Num.one (Fin c)) Num.zero)) = false.
Proof.
  intros Hz. destruct (Matrix.isFinite _) eqn:E; [|reflexivity]. exfalso.
  apply Matrix_isFinite_inv in E as ([[[? ?] ?] ?] & [[[? ?] ?] ?] &
                                     [[[? ?] ?] ?] & [[[? ?] ?] ?] & E).
  destruct Hz as [-> | [-> | ->]].
  - apply (f_equal (fun m => Vector.x (Matrix.row0 m))) in E. discriminate E.
  - apply (f_equal (fun m => Vector.y (Matrix.row1 m))) in E. discriminate E.
  - apply (f_equal (fun m => Vector.z (Matrix.row2 m))) in E. discriminate E.
Qed.

Section SQTDivision.
Variable Quaternion : Type.
Variable fromAxisAngle : Vector -> number -> Quaternion.
Variable toMatrix : Quaternion -> Matrix.
Variable inverseOfQuaternion : Quaternion -> Quaternion.

Lemma SQT_recalculate_not_finite (this : SQT.SQT Quaternion) (a b c d : Qc) :
  a = 0%Qc \/ b = 0%Qc \/ c = 0%Qc ->
  SQT.scale _ this = finVector a b c d ->
  let after := SQT.super _ (SQT.recalculate Quaternion toMatrix inverseOfQuaternion this) in
  Matrix.isFinite (getInverseMatrix after) = false /\
  Binary64.Matrix.mul (getMatrix after) (getInverseMatrix after) <> Matrix.identity /\
  Binary64.Matrix.mul (getInverseMatrix after) (getMatrix after) <> Matrix.identity.
Proof.
  intros Hz Es after.
  assert (Hinf : Matrix.isFinite (getInverseMatrix after) = false).
  { destruct (Matrix.isFinite (getInverseMatrix after)) eqn:F; [|reflexivity]. exfalso.
    unfold after, SQT.recalculate, getInverseMatrix in F. cbn [inverse SQT.super] in F.
    rewrite Es in F.
    apply binary64_mul_finite_inv in F as [F _].
    apply binary64_mul_finite_inv in F as [F _].
    change (Vector.x (finVector a b c d)) with (Fin a) in F.
    change (Vector.y (finVector a b c d)) with (Fin b) in F.
    change (Vector.z (finVector a b c d)) with (Fin c) in F.
    rewrite (binary64_reciprocal_not_finite a b c d Hz) in F. discriminate F. }
  split; [exact Hinf|].
  split; intros E.
  - assert (F : Matrix.isFinite
                  (Binary64.Matrix.mul (getMatrix after) (getInverseMatrix after)) = true)
      by now rewrite E.
    apply binary64_mul_finite_inv in F as [_ F]. congruence.
  - assert (F : Matrix.isFinite
                  (Binary64.Matrix.mul (getInverseMatrix after) (getMatrix after)) = true)
      by now rewrite E.
    apply binary64_mul_finite_inv in F as [F _]. congruence.
Qed.

(** X4.  An [SQT] is recalculated from its constructor and from its
    [rotation] setter by the same code: setting the rotation that the
    constructor was given changes nothing.  Nothing guards the
    divisions by the scale: as soon as one of x, y and z of the scale
    vector is zero, the inverse that is stored holds an entry that is
    not finite, after the constructor and after the setter, whatever
    the quaternion and the translation are, and its products with the
    matrix are not the identity. *)
Theorem SQT_divides_by_the_scale_unguarded
    (a b c d : Qc) (angle : number) (axis translation : Vector) (q : Quaternion) :
  a = 0%Qc \/ b = 0%Qc \/ c = 0%Qc ->
  let this := SQT.new Quaternion fromAxisAngle toMatrix inverseOfQuaternion
                (finVector a b c d) angle axis translation in
  let after := SQT.set_rotation Quaternion toMatrix inverseOfQuaternion this q in
  SQT.set_rotation Quaternion toMatrix inverseOfQuaternion this (fromAxisAngle axis angle)
  = this /\
  (Matrix.isFinite (getInverseMatrix (SQT.super _ this)) = false /\
   Binary64.Matrix.mul (getMatrix (SQT.super _ this)) (getInverseMatrix (SQT.super _ this))
   <> Matrix.identity /\
   Binary64.Matrix.mul (getInverseMatrix (SQT.super _ this)) (getMatrix (SQT.super _ this))
   <> Matrix.identity) /\
  (Matrix.isFinite (getInverseMatrix (SQT.super _ after)) = false /\
   Binary64.Matrix.mul (getMatrix (SQT.super _ after))
                       (getInverseMatrix (SQT.super _ after)) <> Matrix.identity /\
   Binary64.Matrix.mul (getInverseMatrix (SQT.super _ after))
                       (getMatrix (SQT.super _ after)) <> Matrix.identity).
Proof.
  intros Hz this after. split; [reflexivity|]. split.
  - now apply (SQT_recalculate_not_finite _ a b c d).
  - now apply (SQT_recalculate_not_finite _ a b c d).
Qed.

End SQTDivision.

Lemma SQT_zero_scale_witness :
  let this := SQT.new unit HalfTurn.fromAxisAngle HalfTurn.toMatrix HalfTurn.inverse
                (finVector 0 1 1 0) (Num.of_Z 3) (Sample.vec 0 0 1 0)
                (Sample.vec 0 0 (-5) 0) in
  Matrix.isFinite (getInverseMatrix (SQT.super _ this)) = false.
Proof.
  apply (SQT_divides_by_the_scale_unguarded unit HalfTurn.fromAxisAngle HalfTurn.toMatrix
           HalfTurn.inverse 0 1 1 0 (Num.of_Z 3) (Sample.vec 0 0 1 0)
           (Sample.vec 0 0 (-5) 0) tt).
  now left.
Defined.

(* ================================================================== *)
(** ** Invariants of the traversal *)
(* ================================================================== *)

Lemma ltb_trans (a b c : number) :
  (a <? b)%num = true -> (b <? c)%num = true -> (a <? c)%num = true.
Proof.
  destruct a as [p| | |], b as [q| | |], c as [r| | |]; cbn; try discriminate; auto.
  unfold Num.Qc_ltb.
  destruct (p ?= q)%Qc eqn:E1; try discriminate.
  destruct (q ?= r)%Qc eqn:E2; try discriminate.
  intros _ _. apply Qclt_alt in E1, E2.
  now rewrite (proj1 (Qclt_alt p r) (Qclt_trans _ _ _ E1 E2)).
Qed.

Lemma holdsRayAfter_fold_None (children : list Node) :
  fold_left (fun acc child =>
               match acc with Some h => holdsRayAfter child h | None => None end)
            children None = None.
Proof. induction children as [|c rest IH]; [reflexivity | exact IH]. Qed.

Section Traversal2.
Context `{C : Collaborators}.
Import RayVisitor.

Lemma forEach_invariant (P : RayVisitor -> Prop) (children : list Node) :
  Forall (fun n => forall s s', accept n s = Returns s' -> P s -> P s') children ->
  forall s s', forEach accept children s = Returns s' -> P s -> P s'.
Proof.
  induction 1 as [|child rest Hchild _ IH]; intros s s' E HP; cbn in E.
  - now injection E as <-.
  - apply bind_Returns in E as (s1 & E1 & E2). eauto.
Qed.

(** A property of the visitor that the three leaf visits keep, and that
    does not depend on the stacks, is kept by every traversal. *)
Lemma accept_invariant (P : RayVisitor -> Prop) :
  (forall s l, P s -> P (set_transformations l s)) ->
  (forall s l, P s -> P (set_inverseTransformations l s)) ->
  (forall node obj s s', visitNode node obj s = Returns s' -> P s -> P s') ->
  (forall s s', visitCameraNode s = Returns s' -> P s -> P s') ->
  (forall s s', visitLightNode s = Returns s' -> P s -> P s') ->
  forall node s s', accept node s = Returns s' -> P s -> P s'.
Proof.
  intros Ht Hi Hn Hc Hl.
  induction node as [transform children IH | node Hleaf] using Node_tree_ind.
  - intros s s' E HP. cbn in E. unfold visitGroupNode in E.
    apply bind_Returns in E as (topMatrix & _ & E).
    apply bind_Returns in E as (topInverse & _ & E).
    apply bind_Returns in E as (s1 & E1 & E).
    injection E as <-. apply Hi, Ht.
    apply (forEach_invariant P _ IH _ _ E1). now apply Hi, Ht.
  - intros s s'. destruct node; try discriminate Hleaf; cbn; eauto.
    all: now intros [= <-].
Qed.

(** What [visitNode] does to the fields other than the stacks. *)
Lemma visitNode_Returns_inv node obj s s' :
  visitNode node obj s = Returns s' ->
  s' = s \/
  exists c hit objRay,
    candidate obj s = Some c /\
    let s1 := set_objectIntersections
                (push (objectIntersections s) (hit, objRay, node)) s in
    (exists toWorld, c = worldIntersection toWorld objRay hit) /\
    (s' = s1 /\ (exists best, intersection s = Some best /\
                              Intersection.closerThan c best = false) \/
     s' = set_intersectionColor (Node_color node) (set_intersection (Some c) s1) /\
     match intersection s with
     | None => True
     | Some best => Intersection.closerThan c best = true
     end).
Proof.
  unfold candidate, visitNode. intros E.
  apply bind_Returns in E as (fromWorld & Ef & E).
  apply top_Returns in Ef as [ims Ef]. rewrite Ef, last_snoc.
  destruct (ray s) as [r|]; [|discriminate].
  fold (objectRay fromWorld r) in E.
  destruct (obj (objectRay fromWorld r)) as [hit|]; [|left; now injection E as <-].
  apply bind_Returns in E as (toWorld & Et & E).
  apply top_Returns in Et as [ts Et]. cbn in Et. rewrite Et, last_snoc.
  right. exists (worldIntersection toWorld (objectRay fromWorld r) hit), hit,
    (objectRay fromWorld r).
  split; [reflexivity|]. cbn zeta. split; [now exists toWorld|].
  cbn in E. fold (worldIntersection toWorld (objectRay fromWorld r) hit) in E.
  destruct (intersection s) as [best|].
  - destruct (Intersection.closerThan _ best) eqn:Ec; injection E as <-.
    + right. now split.
    + left. split; [reflexivity|]. now exists best.
  - injection E as <-. right. now split.
Qed.

(** X5.  A traversal never loses or worsens the best intersection: if
    the visitor holds one before a node is traversed, then afterwards
    it holds either the same one, with the colour remembered for it
    untouched, or one with a strictly smaller parameter t. *)
Theorem traversal_only_improves_the_best node this this' best :
  accept node this = Returns this' ->
  intersection this = Some best ->
  exists best',
    intersection this' = Some best' /\
    ((best' = best /\ intersectionColor this' = intersectionColor this) \/
     (Intersection.t best' <? Intersection.t best)%num = true).
Proof.
  intros E Hb.
  apply (accept_invariant
           (fun s => exists best',
              intersection s = Some best' /\
              ((best' = best /\ intersectionColor s = intersectionColor this) \/
               (Intersection.t best' <? Intersection.t best)%num = true)))
    with (node := node) (s := this); try exact E; try (now intros).
  - intros n obj s s' Ev (b' & Hi & Hcase).
    destruct (visitNode_Returns_inv _ _ _ _ Ev) as [-> | (c & hit & objRay & _ & _ & Hs)].
    + now exists b'.
    + cbn zeta in Hs. destruct Hs as [[-> _] | [-> Hcl]].
      * now exists b'.
      * rewrite Hi in Hcl. exists c. split; [reflexivity|]. right.
        unfold Intersection.closerThan in Hcl.
        destruct Hcase as [[-> _] | Hlt]; [exact Hcl|].
        exact (ltb_trans _ _ _ Hcl Hlt).
  - intros s s' Ev (b' & Hi & Hcase). unfold visitCameraNode in Ev.
    apply bind_Returns in Ev as (toWorld & _ & Ev). injection Ev as <-. now exists b'.
  - intros s s' Ev (b' & Hi & Hcase). unfold visitLightNode in Ev.
    apply bind_Returns in Ev as (toWorld & _ & Ev). injection Ev as <-. now exists b'.
  - exists best. split; [exact Hb|]. left. now split.
Qed.

Lemma visitCameraNode_fields s s' :
  visitCameraNode s = Returns s' ->
  intersection s' = intersection s /\ intersectionColor s' = intersectionColor s /\
  objectIntersections s' = objectIntersections s /\
  ray s' <> None /\ camera s' <> None.
Proof.
  unfold visitCameraNode. intros E. apply bind_Returns in E as (toWorld & _ & E).
  injection E as <-. cbn. repeat split; discriminate.
Qed.

Lemma visitLightNode_fields s s' :
  visitLightNode s = Returns s' ->
  intersection s' = intersection s /\ intersectionColor s' = intersectionColor s /\
  objectIntersections s' = objectIntersections s /\
  ray s' = ray s /\ camera s' = camera s.
Proof.
  unfold visitLightNode. intros E. apply bind_Returns in E as (toWorld & _ & E).
  now injection E as <-.
Qed.

Lemma shadePixel_fields pv w px py s s' :
  shadePixel pv w px py s = Returns s' ->
  intersection s' = intersection s /\ intersectionColor s' = intersectionColor s /\
  objectIntersections s' = objectIntersections s /\
  ray s' = ray s /\ camera s' = camera s.
Proof.
  intros E.
  assert (Hs : s' = s \/ exists d, s' = set_data d s).
  { revert E. unfold shadePixel.
    destruct (intersection s); [|intros [= <-]; now left].
    destruct (intersectionColor s); [|intros [= <-]; right; eexists; reflexivity].
    destruct (camera s); [|discriminate]. intros [= <-]. right. eexists. reflexivity. }
  now destruct Hs as [-> | [d ->]].
Qed.

Lemma accept_hitsConsistent node s s' :
  accept node s = Returns s' -> hitsConsistent s -> hitsConsistent s'.
Proof.
  apply (accept_invariant hitsConsistent); try (now intros).
  - intros n obj t t' Ev Hc.
    destruct (visitNode_Returns_inv _ _ _ _ Ev) as [-> | (c & hit & objRay & _ & _ & Hs)];
      [exact Hc|].
    cbn zeta in Hs. destruct Hs as [[-> (best & Hb & _)] | [-> _]]; unfold hitsConsistent; cbn.
    + rewrite Hb. split; [discriminate|]. intros E. now apply app_eq_nil in E as [_ ?].
    + split; [discriminate|]. intros E. now apply app_eq_nil in E as [_ ?].
  - intros t t' Ev Hc. apply visitCameraNode_fields in Ev as (Ei & _ & Eo & _).
    unfold hitsConsistent. now rewrite Ei, Eo.
  - intros t t' Ev Hc. apply visitLightNode_fields in Ev as (Ei & _ & Eo & _).
    unfold hitsConsistent. now rewrite Ei, Eo.
Qed.

(** X6.  When a pixel has been rendered, the best intersection is
    absent exactly when the list of object intersections is empty; the
    raster is untouched when no shape was hit, and otherwise differs
    from the one before by one write, of this pixel, with alpha 255. *)
Theorem pixel_is_written_exactly_when_a_shape_was_hit
    rootNode phongValues width p this this' :
  renderPixel rootNode phongValues width p this = Returns this' ->
  (intersection this' = None <-> objectIntersections this' = []) /\
  (objectIntersections this' = [] -> bufferOf this' = bufferOf this) /\
  (objectIntersections this' <> [] ->
     exists r g b,
       bufferOf this' = writePixel width (fst p) (snd p) r g b 255 (bufferOf this)).
Proof.
  intros E.
  assert (Hiff : hitsConsistent this').
  { unfold renderPixel in E. apply bind_Returns in E as (s1 & E1 & E2).
    apply shadePixel_fields in E2 as (Ei & _ & Eo & _).
    apply accept_hitsConsistent in E1; [|now split].
    unfold hitsConsistent. now rewrite Ei, Eo. }
  split; [exact Hiff|].
  apply renderPixel_data in E as (_ & _ & Ed).
  destruct (intersection this') as [best|] eqn:Ei.
  - split; [|intros _; exact Ed]. intros Ho. apply Hiff in Ho. congruence.
  - split; [intros _; exact Ed|]. intros Ho. exfalso. apply Ho. now apply Hiff.
Qed.

Lemma accept_bestIsRecorded node s s' :
  accept node s = Returns s' -> bestIsRecorded s -> bestIsRecorded s'.
Proof.
  apply (accept_invariant bestIsRecorded); try (now intros).
  - intros n obj t t' Ev Hc.
    destruct (visitNode_Returns_inv _ _ _ _ Ev)
      as [-> | (c & hit & objRay & _ & (toWorld & Hw) & Hs)]; [exact Hc|].
    cbn zeta in Hs. destruct Hs as [[-> _] | [-> _]]; intros best Hb; cbn in *.
    + destruct (Hc best Hb) as (h & r & nd & tw & Hin & Eb & Ecol).
      exists h, r, nd, tw. split; [|now split].
      unfold push. apply elem_of_app. now left.
    + injection Hb as <-. exists hit, objRay, n, toWorld. split; [|now split].
      unfold push. apply elem_of_app. right. apply list_elem_of_singleton. reflexivity.
  - intros t t' Ev Hc. apply visitCameraNode_fields in Ev as (Ei & Ec & Eo & _).
    unfold bestIsRecorded. now rewrite Ei, Ec, Eo.
  - intros t t' Ev Hc. apply visitLightNode_fields in Ev as (Ei & Ec & Eo & _).
    unfold bestIsRecorded. now rewrite Ei, Ec, Eo.
Qed.

(** Camera and ray stem from a camera node throughout a traversal. *)
Lemma accept_cameraFromNode node s s' :
  accept node s = Returns s' -> cameraFromNode s -> cameraFromNode s'.
Proof.
  apply (accept_invariant cameraFromNode); try (now intros).
  - intros n obj t t' Ev Hc.
    destruct (visitNode_Returns_inv _ _ _ _ Ev) as [-> | (c & hit & objRay & _ & _ & Hs)];
      [exact Hc|].
    cbn zeta in Hs. now destruct Hs as [[-> _] | [-> _]].
  - intros t t' Ev _. unfold visitCameraNode in Ev.
    apply bind_Returns in Ev as (toWorld & _ & Ev). injection Ev as <-. split; cbn.
    + intros cam [= <-]. now exists toWorld.
    + intros r [= <-]. eexists _, _, _. split; [|reflexivity]. now exists toWorld.
  - intros t t' Ev Hc. unfold visitLightNode in Ev.
    apply bind_Returns in Ev as (toWorld & _ & Ev). now injection Ev as <-.
Qed.

(** One iteration of the pixel loop that ends with a best intersection:
    the traversal it ran, and the call of [phong] whose result it
    wrote. *)
Lemma renderPixel_shades root pv w p s s' best :
  renderPixel root pv w p s = Returns s' ->
  intersection s' = Some best ->
  exists s1,
    accept root (resetPixel (fst p) (snd p) s) = Returns s1 /\
    intersection s1 = Some best /\
    intersectionColor s' = intersectionColor s1 /\
    objectIntersections s' = objectIntersections s1 /\
    lightPositions s' = lightPositions s1 /\
    camera s' = camera s1 /\
    ray s' = ray s1 /\
    match intersectionColor s1 with
    | None => bufferOf s' = writePixel w (fst p) (snd p) 0 0 0 255 (bufferOf s)
    | Some col =>
        exists cam,
          camera s1 = Some cam /\
          let color := phong col best (lightPositions s1) pv (Camera.origin cam) in
          bufferOf s'
          = writePixel w (fst p) (snd p)
              (Num.toUint8Clamp (Vector.r color * Num.of_Z 255))
              (Num.toUint8Clamp (Vector.g color * Num.of_Z 255))
              (Num.toUint8Clamp (Vector.b color * Num.of_Z 255)) 255 (bufferOf s)
    end.
Proof.
  unfold renderPixel. intros E Hb. apply bind_Returns in E as (s1 & E1 & E2).
  exists s1. split; [exact E1|].
  assert (Ed : bufferOf s1 = bufferOf s).
  { apply accept_frame in E1 as [_ _ Fi _ _ _]. now rewrite Fi. }
  revert E2. unfold shadePixel.
  destruct (intersection s1) as [b1|] eqn:Ei.
  - destruct (intersectionColor s1) as [col|] eqn:Ec.
    + destruct (camera s1) as [cam|] eqn:Ecam; [|discriminate].
      intros [= <-]. cbn in Hb |- *. rewrite Ei in Hb. injection Hb as ->.
      rewrite ?Ei, ?Ec, ?Ecam, ?Ed. repeat split. now exists cam.
    + intros [= <-]. cbn in Hb |- *. rewrite Ei in Hb. injection Hb as ->.
      rewrite ?Ei, ?Ec, ?Ed. repeat split.
  - intros [= <-]. congruence.
Qed.

(** C10.  [render] ignores its [camera] and [lightPositions]
    arguments: two calls that differ in them only have the same
    outcome.  The camera of a pixel is the one [visitCameraNode]
    builds, with origin [toWorld * (0,0,0,1)], width 100, height 100
    and alpha pi/3, and the ray is cast from it; the light list that
    the traversal of a pixel leaves is exactly the list of world
    positions of the light nodes of the scene.  And that is what the
    shading gets.  The camera and the ray of a new visitor, there being
    none, stem from a camera node, and every pixel keeps it so; for
    such a visitor the bytes written for a pixel with a coloured hit
    are those of [phong], whatever function that is, called with the
    colour and the intersection the visitor holds, the positions of the
    light nodes of the scene, the [phongValues] and the origin of a
    camera built by a camera node. *)
Theorem render_ignores_camera_and_lightPositions
    rootNode camera1 camera2 lights1 lights2 phongValues this :
  render rootNode camera1 lights1 phongValues this
    = render rootNode camera2 lights2 phongValues this /\
  (forall s s', visitCameraNode s = Returns s' ->
     exists toWorld, last (transformations s) = Some toWorld /\
       let cam := Camera.new (Matrix.mulVec toWorld originPoint)
                    (Num.of_Z 100) (Num.of_Z 100) (Math_PI / Num.of_Z 3) toWorld in
       camera s' = Some cam /\
       ray s' = Some (makeRay (Num.of_nat (x s)) (Num.of_nat (y s)) cam)) /\
  (forall px py s s', accept rootNode (resetPixel px py s) = Returns s' ->
     lightPositions s' = gatheredLights Matrix.identity rootNode) /\
  (forall canvas width height, cameraFromNode (constructor canvas width height)) /\
  (forall width p s s',
     cameraFromNode s ->
     renderPixel rootNode phongValues width p s = Returns s' ->
     cameraFromNode s') /\
  (forall width p s s' best col,
     cameraFromNode s ->
     renderPixel rootNode phongValues width p s = Returns s' ->
     intersection s' = Some best -> intersectionColor s' = Some col ->
     exists cam,
       camera s' = Some cam /\ builtByCameraNode cam /\
       let color := phong col best (gatheredLights Matrix.identity rootNode) phongValues
                          (Camera.origin cam) in
       bufferOf s'
       = writePixel width (fst p) (snd p)
           (Num.toUint8Clamp (Vector.r color * Num.of_Z 255))
           (Num.toUint8Clamp (Vector.g color * Num.of_Z 255))
           (Num.toUint8Clamp (Vector.b color * Num.of_Z 255)) 255 (bufferOf s)).
Proof.
  split; [reflexivity|]. split; [|split; [|split; [|split]]].
  - intros s s' E. unfold visitCameraNode in E.
    apply bind_Returns in E as (toWorld & Et & E).
    exists toWorld. split.
    + unfold top in Et. destruct (last (transformations s)); now inversion Et.
    + now injection E as <-.
  - intros px py s s' E.
    now rewrite (accept_gatheredLights rootNode (resetPixel px py s) s'
                   Matrix.identity eq_refl E).
  - intros canvas width height. split; intros ? E; discriminate E.
  - intros width p s s' Hs E. unfold renderPixel in E.
    apply bind_Returns in E as (s1 & E1 & E2).
    apply shadePixel_fields in E2 as (_ & _ & _ & Er & Ecam).
    apply accept_cameraFromNode in E1; [|exact Hs].
    unfold cameraFromNode. now rewrite Ecam, Er.
  - intros width p s s' best col Hs E Hb Hcol.
    destruct (renderPixel_shades _ _ _ _ _ _ _ E Hb)
      as (s1 & E1 & _ & Ec & _ & El & Ecam & Er & Hshade).
    assert (Hs1 : cameraFromNode s1).
    { apply (accept_cameraFromNode _ _ _ E1). exact Hs. }
    rewrite Ec in Hcol. rewrite Hcol in Hshade. destruct Hshade as (cam & Hcam & Hd).
    exists cam. split; [congruence|]. split; [now apply (proj1 Hs1)|].
    rewrite (accept_gatheredLights rootNode (resetPixel (fst p) (snd p) s) s1
               Matrix.identity eq_refl E1) in Hd.
    exact Hd.
Qed.

(** X7.  What is shaded is one hit.  When a pixel has been rendered
    and the visitor holds a best intersection, that intersection is the
    world-space image of a hit recorded in [objectIntersections] during
    this traversal, the colour remembered is the colour of the node of
    that very hit, and the bytes written for the pixel are black for a
    node without a colour and otherwise those of [phong], whatever
    function that is, called with the colour of that node and that
    intersection. *)
Theorem shaded_colour_belongs_to_a_node_hit_in_this_pixel
    rootNode phongValues width p this this' best :
  renderPixel rootNode phongValues width p this = Returns this' ->
  intersection this' = Some best ->
  exists hit objRay node toWorld,
    (hit, objRay, node) ∈ objectIntersections this' /\
    best = worldIntersection toWorld objRay hit /\
    intersectionColor this' = Node_color node /\
    match Node_color node with
    | None =>
        bufferOf this' = writePixel width (fst p) (snd p) 0 0 0 255 (bufferOf this)
    | Some col =>
        exists cam,
          camera this' = Some cam /\
          let color := phong col best (lightPositions this') phongValues
                             (Camera.origin cam) in
          bufferOf this'
          = writePixel width (fst p) (snd p)
              (Num.toUint8Clamp (Vector.r color * Num.of_Z 255))
              (Num.toUint8Clamp (Vector.g color * Num.of_Z 255))
              (Num.toUint8Clamp (Vector.b color * Num.of_Z 255)) 255 (bufferOf this)
    end.
Proof.
  intros E Hb.
  destruct (renderPixel_shades _ _ _ _ _ _ _ E Hb)
    as (s1 & E1 & Hb1 & Ec & Eo & El & Ecam & _ & Hshade).
  destruct (accept_bestIsRecorded _ _ _ E1) with (best := best)
    as (hit & objRay & node & toWorld & Hin & Ebest & Ecol).
  { intros b Hn. discriminate Hn. }
  { exact Hb1. }
  exists hit, objRay, node, toWorld. rewrite Eo, Ec, El, Ecam.
  repeat split; try assumption.
  rewrite Ecol in Hshade. exact Hshade.
Qed.

Lemma visitNode_rayOutcome node obj s :
  nonemptyStacks s ->
  if isSome (ray s)
  then exists s', visitNode node obj s = Returns s' /\ isSome (ray s') = true
  else visitNode node obj s = Throws TypeError.
Proof.
  intros [Ht Hi]. destruct (ray s) as [r|] eqn:Er; cbn.
  - destruct (visitNode_returns node obj s) as [s' E].
    { repeat split; [congruence|assumption|assumption]. }
    exists s'. split; [exact E|]. apply visitNode_frame in E as [_ _ _ _ _ F].
    destruct (ray s'); [reflexivity|]. exfalso. apply F; congruence.
  - unfold visitNode. destruct (top (inverseTransformations s)) as [fromWorld|[]]; cbn;
      [now rewrite Er | reflexivity].
Qed.

Lemma forEach_rayOutcome (children : list Node) :
  Forall (fun n => forall s, nonemptyStacks s -> rayOutcome n s) children ->
  forall s, nonemptyStacks s ->
    match fold_left (fun acc child =>
                       match acc with Some h => holdsRayAfter child h | None => None end)
                    children (Some (isSome (ray s))) with
    | None => forEach accept children s = Throws TypeError
    | Some b => exists s', forEach accept children s = Returns s' /\ isSome (ray s') = b
    end.
Proof.
  induction 1 as [|child rest Hchild _ IH]; intros s Hs; cbn.
  - eauto.
  - specialize (Hchild s Hs). unfold rayOutcome in Hchild.
    destruct (holdsRayAfter child (isSome (ray s))) as [b|].
    + destruct Hchild as (s1 & E1 & Eb). rewrite E1. cbn. rewrite <- Eb. apply IH.
      apply accept_frame in E1 as [F1 F2 _ _ _ _]. unfold nonemptyStacks.
      now rewrite F1, F2.
    + rewrite holdsRayAfter_fold_None, Hchild. reflexivity.
Qed.

Lemma accept_rayOutcome node : forall s, nonemptyStacks s -> rayOutcome node s.
Proof.
  induction node as [transform children IH | node Hleaf] using Node_tree_ind.
  - intros s [Ht Hi]. unfold rayOutcome. cbn. unfold visitGroupNode.
    destruct (top_nonempty _ Ht) as [topMatrix ->]. cbn.
    destruct (top_nonempty _ Hi) as [topInverse ->]. cbn.
    match goal with |- context [forEach accept children ?s0] =>
      pose proof (forEach_rayOutcome _ IH s0) as Hloop end.
    cbn in Hloop.
    destruct (fold_left _ children (Some (isSome (ray s)))) as [b|].
    + destruct Hloop as (s1 & -> & Eb).
      { split; cbn; intros E; now apply app_eq_nil in E as [_ ?]. }
      cbn. eexists. split; [reflexivity|]. exact Eb.
    + rewrite Hloop; [reflexivity|].
      split; cbn; intros E; now apply app_eq_nil in E as [_ ?].
  - intros s Hs. unfold rayOutcome.
    destruct node; try discriminate Hleaf; cbn.
    1-4: match goal with |- context [visitNode ?n ?o ?s0] =>
           pose proof (visitNode_rayOutcome n o s0 Hs) as Hv end;
         destruct (isSome (ray s)); exact Hv.
    + destruct Hs as [Ht _]. unfold visitCameraNode.
      destruct (top_nonempty _ Ht) as [toWorld ->]. cbn. eauto.
    + destruct Hs as [Ht _]. unfold visitLightNode.
      destruct (top_nonempty _ Ht) as [toWorld ->]. cbn. eauto.
    + eauto.
    + eauto.
    + eauto.
    + eauto.
Qed.

(** X8.  Whether a traversal throws is decided by the order of the
    nodes alone: [holdsRayAfter] follows the scene graph and tells
    whether a shape node is reached before any camera node while the
    visitor holds no ray.  In that case the traversal throws a
    [TypeError]; in every other case it returns, and the visitor holds
    a ray afterwards exactly when [holdsRayAfter] says so. *)
Theorem traversal_throws_exactly_when_a_shape_is_reached_without_a_ray node this :
  transformations this <> [] -> inverseTransformations this <> [] ->
  match holdsRayAfter node (isSome (ray this)) with
  | None => accept node this = Throws TypeError
  | Some b => exists this', accept node this = Returns this' /\ isSome (ray this') = b
  end.
Proof. intros Ht Hi. now apply accept_rayOutcome. Qed.

Lemma candidate_ray obj s c : candidate obj s = Some c -> ray s <> None.
Proof.
  unfold candidate. destruct (last (inverseTransformations s)); [|discriminate].
  destruct (last (transformations s)); [|discriminate].
  destruct (ray s); [discriminate|discriminate].
Qed.

Lemma accept_rayHasCamera node s s' :
  accept node s = Returns s' ->
  rayHasCamera s /\ hitHasRay s -> rayHasCamera s' /\ hitHasRay s'.
Proof.
  apply (accept_invariant (fun s => rayHasCamera s /\ hitHasRay s)); try (now intros).
  - intros n obj t t' Ev [Hc Hh].
    destruct (visitNode_Returns_inv _ _ _ _ Ev) as [-> | (c & hit & objRay & Ec & _ & Hs)];
      [now split|].
    apply candidate_ray in Ec.
    cbn zeta in Hs. destruct Hs as [[-> _] | [-> _]]; split; intro; cbn; auto.
  - intros t t' Ev _. apply visitCameraNode_fields in Ev as (_ & _ & _ & Er & Ec).
    split; intro; assumption.
  - intros t t' Ev [Hc Hh]. apply visitLightNode_fields in Ev as (Ei & _ & _ & Er & Ec).
    unfold rayHasCamera, hitHasRay. now rewrite Ei, Er, Ec.
Qed.

Lemma holdsRayAfter_true node : holdsRayAfter node true = Some true.
Proof.
  induction node as [transform children IH | node Hleaf] using Node_tree_ind.
  - cbn. induction IH as [|child rest Hchild _ IHrest]; [reflexivity|].
    cbn. now rewrite Hchild.
  - now destruct node.
Qed.

Lemma holdsRayAfter_again node h b :
  holdsRayAfter node h = Some b -> holdsRayAfter node b = Some b.
Proof.
  destruct b; [intros _; apply holdsRayAfter_true|].
  destruct h; [now rewrite holdsRayAfter_true|auto].
Qed.

Lemma renderPixel_rayOutcome rootNode pv w p s :
  rayHasCamera s ->
  match holdsRayAfter rootNode (isSome (ray s)) with
  | None => renderPixel rootNode pv w p s = Throws TypeError
  | Some b => exists s', renderPixel rootNode pv w p s = Returns s' /\
                         isSome (ray s') = b /\ rayHasCamera s'
  end.
Proof.
  intros Hc. unfold renderPixel.
  pose proof (accept_rayOutcome rootNode (resetPixel (fst p) (snd p) s)) as Ho.
  unfold rayOutcome in Ho. cbn [resetPixel ray set_intersection set_lightPositions
    set_inverseTransformations set_transformations set_objectIntersections set_xy] in Ho.
  destruct (holdsRayAfter rootNode (isSome (ray s))) as [b|].
  - destruct Ho as (s1 & E1 & Eb); [split; discriminate|]. rewrite E1. cbn.
    apply accept_rayHasCamera in E1 as [Hc1 Hh1];
      [|split; [exact Hc | intros Hi; now contradiction Hi]].
    assert (Hs : exists s', shadePixel pv w (fst p) (snd p) s1 = Returns s').
    { unfold shadePixel. destruct (intersection s1) eqn:Ei; [|eauto].
      destruct (intersectionColor s1); [|eauto].
      destruct (camera s1) eqn:Ecam; [eauto|].
      exfalso. apply Hc1; [|exact Ecam]. apply Hh1. rewrite Ei. discriminate. }
    destruct Hs as [s' Es]. exists s'. split; [exact Es|].
    apply shadePixel_fields in Es as (_ & _ & _ & Er & Ec).
    unfold rayHasCamera. rewrite Er, Ec. now split.
  - rewrite Ho; [reflexivity|split; discriminate].
Qed.

Lemma pixelLoop_rayOutcome rootNode pv w (l : list (nat * nat)) :
  forall s, rayHasCamera s ->
    match holdsRayAfter rootNode (isSome (ray s)) with
    | None => l <> [] -> forEach (renderPixel rootNode pv w) l s = Throws TypeError
    | Some _ => exists s', forEach (renderPixel rootNode pv w) l s = Returns s' /\
                           rayHasCamera s'
    end.
Proof.
  induction l as [|p l IH]; intros s Hc.
  - destruct (holdsRayAfter rootNode (isSome (ray s))); [cbn; eauto | now intros []].
  - pose proof (renderPixel_rayOutcome rootNode pv w p s Hc) as Hp. cbn.
    destruct (holdsRayAfter rootNode (isSome (ray s))) as [b|] eqn:Eh.
    + destruct Hp as (s1 & -> & Eb & Hc1). cbn.
      specialize (IH s1 Hc1). rewrite Eb, (holdsRayAfter_again _ _ _ Eh) in IH. exact IH.
    + intros _. now rewrite Hp.
Qed.

Lemma pixelOrder_nil (width height : nat) :
  pixelOrder width height = [] <-> width = 0 \/ height = 0.
Proof.
  split.
  - intros E. destruct width as [|w']; [now left|]. destruct height as [|h']; [now right|].
    assert (Hin : (0, 0) ∈ pixelOrder (S w') (S h')) by (apply elem_of_pixelOrder; cbn; lia).
    rewrite E in Hin. inversion Hin.
  - intros [-> | ->]; [reflexivity|]. unfold pixelOrder. cbn.
    induction (seq 0 width); [reflexivity|assumption].
Qed.

(** [render] as far as the ray is concerned: the outcome of the pixel
    loop, in terms of the pixels it runs over. *)
Lemma render_rayOutcome rootNode camera lights phongValues this :
  rayHasCamera this ->
  let width := ImageData.width (imageData this) in
  let height := ImageData.height (imageData this) in
  match holdsRayAfter rootNode (isSome (ray this)) with
  | None => pixelOrder width height <> [] ->
            render rootNode camera lights phongValues this = Throws TypeError
  | Some _ => exists final, render rootNode camera lights phongValues this = Returns final /\
                            rayHasCamera final
  end.
Proof.
  intros Hc width height. unfold render. cbn zeta.
  rewrite (forEach_nested (renderPixel rootNode phongValues _)).
  change (flat_map _ _) with (pixelOrder width height).
  match goal with |- context [forEach _ _ ?s0] =>
    exact (pixelLoop_rayOutcome rootNode phongValues width
             (pixelOrder width height) s0 Hc) end.
Qed.

Lemma render_no_pixel rootNode camera lights phongValues this :
  pixelOrder (ImageData.width (imageData this)) (ImageData.height (imageData this)) = [] ->
  render rootNode camera lights phongValues this
  = Returns (set_data (replicate (length (bufferOf this)) 0%Z) this).
Proof.
  intros Hnil. unfold render. cbn zeta.
  rewrite (forEach_nested (renderPixel rootNode phongValues _)).
  change (flat_map _ _)
    with (pixelOrder (ImageData.width (imageData this)) (ImageData.height (imageData this))).
  now rewrite Hnil.
Qed.

(** X9.  [render] throws exactly when there is a pixel to render and
    the traversal of the scene reaches a shape node while the visitor
    holds no ray: on a canvas without pixels, or when every shape node
    comes after a camera node or the visitor still holds the ray of an
    earlier frame, it returns, and the visitor then holds a camera
    whenever it holds a ray, as [render] needs it to for the next
    frame; otherwise it throws a [TypeError]. *)
Theorem render_throws_exactly_when_a_shape_is_reached_without_a_ray
    rootNode camera lights phongValues this :
  rayHasCamera this ->
  let width := ImageData.width (imageData this) in
  let height := ImageData.height (imageData this) in
  (width = 0 \/ height = 0 \/ holdsRayAfter rootNode (isSome (ray this)) <> None ->
   exists final, render rootNode camera lights phongValues this = Returns final /\
                 rayHasCamera final) /\
  (0 < width -> 0 < height -> holdsRayAfter rootNode (isSome (ray this)) = None ->
   render rootNode camera lights phongValues this = Throws TypeError).
Proof.
  intros Hc width height.
  pose proof (render_rayOutcome rootNode camera lights phongValues this Hc) as Hloop.
  cbn zeta in Hloop. fold width height in Hloop. split.
  - intros Hcase.
    destruct (holdsRayAfter rootNode (isSome (ray this))) as [b|]; [exact Hloop|].
    assert (Hnil : pixelOrder width height = []).
    { apply pixelOrder_nil. destruct Hcase as [?|[?|?]]; [auto|auto|contradiction]. }
    rewrite (render_no_pixel _ _ _ _ _ Hnil). eexists. split; [reflexivity|exact Hc].
  - intros Hw Hh Hnone. rewrite Hnone in Hloop. apply Hloop.
    intros Hnil. apply pixelOrder_nil in Hnil. lia.
Qed.

End Traversal2.

(* ================================================================== *)
(** ** The loop of the Phong boilerplate *)
(* ================================================================== *)

Section PhongLoop.
Import PhongBoilerplate.

Lemma Qc_ltb_true (a b : Qc) : Num.Qc_ltb a b = true -> (a < b)%Qc.
Proof.
  unfold Num.Qc_ltb. intros E. apply Qclt_alt.
  now destruct (a ?= b)%Qc.
Qed.

Lemma Qc_ltb_lt (a b : Qc) : (a < b)%Qc -> Num.Qc_ltb a b = true.
Proof.
  intros Hlt. unfold Num.Qc_ltb. destruct (a ?= b)%Qc eqn:E; [|reflexivity|].
  - apply Qceq_alt in E. subst b. exfalso. exact (Qclt_not_le _ _ Hlt (Qcle_refl a)).
  - apply (proj2 (Qcgt_alt a b)) in E. exfalso.
    exact (Qclt_not_le _ _ Hlt (Qclt_le_weak _ _ E)).
Qed.

(** [a < b], [c] is a number and not below [b]: then [a < c]. *)
Lemma ltb_below (a b c : number) :
  (a <? b)%num = true -> (c <? b)%num = false -> c <> NaN -> (a <? c)%num = true.
Proof.
  destruct a as [p| | |], b as [q| | |], c as [r| | |]; cbn;
    try discriminate; try reflexivity; try congruence.
  intros Hpq Hrq _. apply Qc_ltb_true in Hpq. apply Qc_ltb_false in Hrq.
  apply Qc_ltb_lt. eapply Qclt_le_trans; eassumption.
Qed.

Lemma ltb_asym (a b : number) : (a <? b)%num = true -> (b <? a)%num = false.
Proof.
  destruct a as [p| | |], b as [q| | |]; cbn; try discriminate; try reflexivity.
  intros Hpq. apply Qc_ltb_true in Hpq.
  destruct (Num.Qc_ltb q p) eqn:E; [|reflexivity].
  apply Qc_ltb_true in E. exfalso. exact (Qclt_not_le _ _ Hpq (Qclt_le_weak _ _ E)).
Qed.

(** [a < b] and [c] not below [b]: then [c] is not below [a]. *)
Lemma ltb_not_below (a b c : number) :
  (a <? b)%num = true -> (c <? b)%num = false -> (c <? a)%num = false.
Proof.
  intros Hab Hcb. destruct (c <? a)%num eqn:E; [|reflexivity].
  rewrite (ltb_trans _ _ _ E Hab) in Hcb. discriminate.
Qed.

Lemma toUint8Clamp_min_255 (v : number) :
  Num.toUint8Clamp (Math_min (Num.of_Z 255) v) = Num.toUint8Clamp v.
Proof.
  destruct v as [q| | |]; try reflexivity.
  unfold Math_min. cbn [Num.of_Z Num.ltb].
  destruct (Num.Qc_ltb q (Q2Qc (inject_Z 255))) eqn:E; [reflexivity|].
  apply Qc_ltb_false in E.
  cbn [Num.toUint8Clamp].
  destruct (Num.Qc_ltb q 0) eqn:E0.
  { apply Qc_ltb_true in E0. exfalso.
    assert (Hc : (Q2Qc (inject_Z 255) < 0)%Qc) by (eapply Qcle_lt_trans; eassumption).
    revert Hc. apply Qcle_not_lt. discriminate. }
  destruct (Num.Qc_ltb (Q2Qc 255) q) eqn:E1; [reflexivity|].
  apply Qc_ltb_false in E1.
  assert (Hq : q = Q2Qc (inject_Z 255)) by (apply Qcle_antisym; assumption).
  rewrite Hq. reflexivity.
Qed.

Lemma nearest_snoc (ray : Ray) (seen : list Shape) (shape : Shape) :
  nearest (seen ++ [shape]) ray = consider ray (nearest seen ray) shape.
Proof. unfold nearest. now rewrite fold_left_app. Qed.

Lemma consider_searched (ray : Ray) (seen : list Shape) (m : Minimum) (shape : Shape) :
  searched ray seen m -> searched ray (seen ++ [shape]) (consider ray m shape).
Proof.
  intros Hs. unfold consider.
  destruct (intersect shape ray) as [ix|] eqn:Ex.
  - destruct (Intersection.t ix <? minimum_t m)%num eqn:Elt.
    + (* the new shape wins *)
      assert (Hinf : (Intersection.t ix <? PInf)%num = true).
      { destruct m as [[i sh]|]; [|exact Elt]. destruct Hs as (Hi & _).
        exact (ltb_trans _ _ _ Elt Hi). }
      assert (Hseen : forall shape' i', shape' ∈ seen -> intersect shape' ray = Some i' ->
                (Intersection.t i' <? minimum_t m)%num = false).
      { destruct m as [[i sh]|]; [destruct Hs as (_ & _ & Hall); exact Hall | exact Hs]. }
      split; [exact Hinf|]. split.
      * exists seen, []. split; [reflexivity|]. split; [exact Ex|].
        intros shape' i' Hin Hhit Hnan.
        exact (ltb_below _ _ _ Elt (Hseen _ _ Hin Hhit) Hnan).
      * intros shape' i' Hin Hhit. apply elem_of_app in Hin as [Hin|Hin].
        -- exact (ltb_not_below _ _ _ Elt (Hseen _ _ Hin Hhit)).
        -- apply list_elem_of_singleton in Hin. subst shape'.
           rewrite Ex in Hhit. injection Hhit as <-. apply ltb_irrefl.
    + (* the minimum stays *)
      destruct m as [[i sh]|].
      * destruct Hs as (Hi & (before & after & -> & Hhit & Hbefore) & Hall).
        split; [exact Hi|]. split.
        -- exists before, (after ++ [shape]). split; [now rewrite <- app_assoc|].
           now split.
        -- intros shape' i' Hin Hhit'. apply elem_of_app in Hin as [Hin|Hin];
             [now apply (Hall shape')|].
           apply list_elem_of_singleton in Hin. subst shape'.
           rewrite Ex in Hhit'. now injection Hhit' as <-.
      * intros shape' i' Hin Hhit'. apply elem_of_app in Hin as [Hin|Hin];
          [now apply (Hs shape')|].
        apply list_elem_of_singleton in Hin. subst shape'.
        rewrite Ex in Hhit'. now injection Hhit' as <-.
  - (* a miss *)
    destruct m as [[i sh]|].
    + destruct Hs as (Hi & (before & after & -> & Hhit & Hbefore) & Hall).
      split; [exact Hi|]. split.
      * exists before, (after ++ [shape]). split; [now rewrite <- app_assoc|]. now split.
      * intros shape' i' Hin Hhit'. apply elem_of_app in Hin as [Hin|Hin];
          [now apply (Hall shape')|].
        apply list_elem_of_singleton in Hin. subst shape'. congruence.
    + intros shape' i' Hin Hhit'. apply elem_of_app in Hin as [Hin|Hin];
        [now apply (Hs shape')|].
      apply list_elem_of_singleton in Hin. subst shape'. congruence.
Qed.

(** X10.  The search for the nearest shape in the Phong boilerplate:
    it ends without a shape exactly when no shape is hit at a parameter
    below infinity; otherwise the chosen intersection is that of the
    chosen shape, no shape of the list is hit at a smaller parameter,
    and every shape before it in the list that is hit at a number is
    hit strictly farther away: among equally near shapes the first
    wins. *)
Theorem nearest_is_the_first_closest_hit (objects : list Shape) (ray : Ray) :
  match nearest objects ray with
  | None =>
      forall shape i, shape ∈ objects -> intersect shape ray = Some i ->
                      (Intersection.t i <? PInf)%num = false
  | Some (i, shape) =>
      (Intersection.t i <? PInf)%num = true /\
      (exists before after,
         objects = before ++ shape :: after /\
         intersect shape ray = Some i /\
         forall shape' i', shape' ∈ before -> intersect shape' ray = Some i' ->
                           Intersection.t i' <> NaN ->
                           (Intersection.t i <? Intersection.t i')%num = true) /\
      (forall shape' i', shape' ∈ objects -> intersect shape' ray = Some i' ->
                         (Intersection.t i' <? Intersection.t i)%num = false)
  end.
Proof.
  change (searched ray objects (nearest objects ray)).
  induction objects as [|shape seen IH] using rev_ind.
  - intros shape i Hin. inversion Hin.
  - rewrite nearest_snoc. now apply consider_searched.
Qed.

Lemma setPixel_writePixel (width x y : nat) (c : Vector) (data : list Z) :
  setPixel width x y c data
  = RayVisitor.writePixel width x y
      (Num.toUint8Clamp (Vector.r c * Num.of_Z 255))
      (Num.toUint8Clamp (Vector.g c * Num.of_Z 255))
      (Num.toUint8Clamp (Vector.b c * Num.of_Z 255)) 255 data.
Proof. unfold setPixel, RayVisitor.writePixel. now rewrite !toUint8Clamp_min_255. Qed.

(** X11.  [setPixel] of the Phong boilerplate stores exactly the bytes
    that the ray visitor stores for the same colour: [Math.min(255, v)]
    changes nothing of what the clamped array keeps of [v], also for
    [NaN], the infinities and negative values.  The data keeps its
    length and holds bytes only. *)
Theorem setPixel_clamps_like_the_array (width x y : nat) (c : Vector) (data : list Z) :
  setPixel width x y c data
  = RayVisitor.writePixel width x y
      (Num.toUint8Clamp (Vector.r c * Num.of_Z 255))
      (Num.toUint8Clamp (Vector.g c * Num.of_Z 255))
      (Num.toUint8Clamp (Vector.b c * Num.of_Z 255)) 255 data /\
  (forall v, Num.toUint8Clamp (Math_min (Num.of_Z 255) v) = Num.toUint8Clamp v) /\
  length (setPixel width x y c data) = length data /\
  (Forall isByte data -> Forall isByte (setPixel width x y c data)).
Proof.
  split; [apply setPixel_writePixel|]. split; [exact toUint8Clamp_min_255|].
  rewrite setPixel_writePixel. split.
  - apply length_writePixel.
  - intros Hd. apply writePixel_bytes; try apply toUint8Clamp_range; [assumption|].
    unfold isByte. lia.
Qed.

Lemma fold_left_nested {A B S : Type} (f : A * B -> S -> S) (la : list A) (lb : list B) (s : S) :
  fold_left (fun s a => fold_left (fun s b => f (a, b) s) lb s) la s
  = fold_left (fun s p => f p s) (flat_map (fun a => map (pair a) lb) la) s.
Proof.
  revert s. induction la as [|a la IH]; intros s; cbn; [reflexivity|].
  rewrite fold_left_app, IH. f_equal.
  clear. revert s. induction lb as [|b lb IH]; intros s; cbn; [reflexivity|apply IH].
Qed.

Section AnimateFrame.
Context `{C : Collaborators}.
Variable makeRayOf : number -> number -> CameraArgument -> Ray.
Variables (objects : list Shape) (camera : CameraArgument) (lights : list Vector)
          (phongValues : PhongValues) (width : nat).

Abbreviation pixel := (animatePixel makeRayOf objects camera lights phongValues width).

(** One iteration either leaves the data alone or sets its own pixel,
    with values that do not depend on the data. *)
Lemma animatePixel_cases p :
  (forall d, pixel p d = d) \/
  exists r g b, forall d, pixel p d = RayVisitor.writePixel width (fst p) (snd p) r g b 255 d.
Proof.
  unfold animatePixel.
  destruct (nearest objects _) as [[i shape]|]; [|now left]. right.
  destruct (color shape) as [col|]; do 3 eexists; intros d;
    apply setPixel_writePixel.
Qed.

Lemma animateLoop_frame (l : list (nat * nat)) :
  forall d, Forall (fun p => fst p < width) l ->
    length (fold_left (fun d p => pixel p d) l d) = length d /\
    forall q c, fst q < width -> c < 4 -> q ∉ l ->
      pixelAt width (fold_left (fun d p => pixel p d) l d) q c = pixelAt width d q c.
Proof.
  induction l as [|p l IH]; intros d Hl; cbn [fold_left]; [now split|].
  apply Forall_cons in Hl as [Hp Hl]. destruct (IH (pixel p d) Hl) as [El Eo].
  assert (Hstep : length (pixel p d) = length d /\
                  forall q c, fst q < width -> c < 4 -> q <> p ->
                              pixelAt width (pixel p d) q c = pixelAt width d q c).
  { destruct (animatePixel_cases p) as [E | (r & g & b & E)]; rewrite E; [now split|].
    split; [apply length_writePixel|]. intros q c Hq Hc Hne.
    apply pixelAt_writePixel_other; try assumption. now destruct p. }
  destruct Hstep as [El1 Eo1]. split; [congruence|].
  intros q c Hq Hc Hnot. apply not_elem_of_cons in Hnot as [Hne Hnot].
  rewrite Eo by assumption. now apply Eo1.
Qed.

(** X12.  A frame of the Phong boilerplate keeps the length of the
    data, and every pixel of the canvas ends up as if it alone had been
    rendered on the cleared data: what the frame showed before and what
    the other pixels are do not matter. *)
Theorem animate_renders_each_pixel_on_its_own (height : nat) (data : list Z) :
  length data = 4 * (width * height) ->
  let frame := animate makeRayOf objects camera lights phongValues width height data in
  length frame = length data /\
  forall p c, fst p < width -> snd p < height -> c < 4 ->
    pixelAt width frame p c
    = pixelAt width (pixel p (replicate (length data) 0%Z)) p c.
Proof.
  intros Hlen frame. unfold frame, animate.
  rewrite (fold_left_nested (fun p d => pixel p d)).
  change (flat_map _ _) with (pixelOrder width height).
  assert (Hall : Forall (fun p => fst p < width) (pixelOrder width height)).
  { apply Forall_forall. intros p Hp. now apply elem_of_pixelOrder in Hp. }
  split.
  { rewrite (proj1 (animateLoop_frame _ _ Hall)). apply length_replicate. }
  intros p c Hx Hy Hc.
  assert (Hp : p ∈ pixelOrder width height) by now apply elem_of_pixelOrder.
  apply list_elem_of_split in Hp as (before & after & Hsplit).
  pose proof (NoDup_pixelOrder width height) as Hnd.
  rewrite Hsplit in Hall, Hnd |- *.
  apply NoDup_app in Hnd as (_ & Hdisj & Hnd). apply NoDup_cons in Hnd as [Hafter _].
  assert (Hbefore : p ∉ before)
    by (intros Hin; apply (Hdisj _ Hin), elem_of_cons; auto).
  apply Forall_app in Hall as [Hall1 Hall2]. apply Forall_cons in Hall2 as [_ Hall2].
  rewrite fold_left_app. cbn [fold_left].
  destruct (animateLoop_frame before (replicate (length data) 0%Z) Hall1) as [El1 Eo1].
  rewrite (proj2 (animateLoop_frame after _ Hall2)) by assumption.
  destruct (animatePixel_cases p) as [E | (r & g & b & E)]; rewrite !E.
  - now apply Eo1.
  - rewrite length_replicate in El1.
    assert (Hin : forall d : list Z, length d = length data ->
              4 * (width * snd p + fst p) + 3 < length d).
    { intros d ->. rewrite Hlen. apply pixel_in_range; [assumption|assumption|lia]. }
    destruct p as [qx qy].
    destruct (pixelAt_writePixel_same width qx qy r g b 255 _ (Hin _ El1))
      as (A0 & A1 & A2 & A3).
    destruct (pixelAt_writePixel_same width qx qy r g b 255 _
                (Hin (replicate (length data) 0%Z) (length_replicate _ _)))
      as (B0 & B1 & B2 & B3).
    cbn [fst snd].
    destruct c as [|[|[|[|c]]]]; [congruence|congruence|congruence|congruence|lia].
Qed.

End AnimateFrame.
End PhongLoop.

(* ================================================================== *)
(** ** The scene of the ray-tracing boilerplate *)
(* ================================================================== *)

Section Boilerplate.
Import RayBoilerplate.

Section FirstFrame.
Context `{C : Collaborators}.
Variable Matrix_rotation : Vector -> number -> Matrix.

(** X14.  The scene graph of the boilerplate holds no camera node: the
    first frame, rendered by a new visitor, throws a [TypeError] as soon
    as the canvas has a pixel, whatever the timestamp, the clock and the
    angle of the rotation are; on a canvas without pixels it returns. *)
Theorem boilerplate_scene_has_no_camera
    (timestamp : number) (c : Clock) (rotation : Rotation.Rotation)
    (canvas : nat -> Z) (width height : nat) :
  let visitor := RayVisitor.constructor canvas width height in
  let '(_, _, rendered) := animate Matrix_rotation timestamp (c, rotation, visitor) in
  (0 < width -> 0 < height -> rendered = Throws TypeError) /\
  (width = 0 \/ height = 0 -> returned rendered = true).
Proof.
  cbn zeta. unfold animate. split.
  - intros Hw Hh.
    match goal with |- RayVisitor.render ?sc ?cam ?li ?pv ?vis = _ =>
      apply (render_rayOutcome sc cam li pv vis) end.
    + intros Hr. now contradiction Hr.
    + cbn. intros Hnil. apply pixelOrder_nil in Hnil. lia.
  - intros Hz. rewrite render_no_pixel; [reflexivity|].
    apply pixelOrder_nil. cbn. exact Hz.
Qed.

End FirstFrame.
End Boilerplate.

(* ================================================================== *)
(** ** The buffers of the textured box *)
(* ================================================================== *)












Section TextureBox.
Import RasterTextureBox Geometry.

Lemma storeTangents_all (fr : nat -> Triple * Triple * Triple * Triple) :
  fold_left (fun tb i => storeTangents i (fr i) tb) (seq 0 6) ([], [])
  = (map Some (flat_map (fun i => perFace (fst (fst (fst (fr i)))) (snd (fst (fst (fr i)))))
                        (seq 0 6)),
     map Some (flat_map (fun i => perFace (snd (fst (fr i))) (snd (fr i))) (seq 0 6))).
Proof.
  cbn [seq fold_left flat_map].
  destruct (fr 0) as [[[[[? ?] ?] [[? ?] ?]] [[? ?] ?]] [[? ?] ?]].
  destruct (fr 1) as [[[[[? ?] ?] [[? ?] ?]] [[? ?] ?]] [[? ?] ?]].
  destruct (fr 2) as [[[[[? ?] ?] [[? ?] ?]] [[? ?] ?]] [[? ?] ?]].
  destruct (fr 3) as [[[[[? ?] ?] [[? ?] ?]] [[? ?] ?]] [[? ?] ?]].
  destruct (fr 4) as [[[[[? ?] ?] [[? ?] ?]] [[? ?] ?]] [[? ?] ?]].
  destruct (fr 5) as [[[[[? ?] ?] [[? ?] ?]] [[? ?] ?]] [[? ?] ?]].
  vm_compute. reflexivity.
Qed.

Lemma calculate_closed (vs uvs : list number) :
  calculateTangentsAndBitangents vs uvs
  = (map Some (flat_map (fun i => perFace (fst (fst (fst (faceTangents vs uvs i))))
                                          (snd (fst (fst (faceTangents vs uvs i)))))
                        (seq 0 6)),
     map Some (flat_map (fun i => perFace (snd (fst (faceTangents vs uvs i)))
                                          (snd (faceTangents vs uvs i))) (seq 0 6))).
Proof. exact (storeTangents_all (faceTangents vs uvs)). Qed.

Lemma below_cases (n k : nat) : k < n -> In k (seq 0 n).
Proof. intros Hk. apply in_seq. lia. Qed.


Lemma length_perFace (t1 t2 : Triple) : length (perFace t1 t2) = 18.
Proof. now destruct t1 as [[? ?] ?], t2 as [[? ?] ?]. Qed.

Lemma length_faces (f g : nat -> Triple) :
  length (flat_map (fun i => perFace (f i) (g i)) (seq 0 6)) = 108.
Proof. cbn [seq flat_map]. now rewrite !length_app, !length_perFace. Qed.

Lemma Forall_isSome_map {A : Type} (l : list A) :
  Forall (fun e => isSome e = true) (map Some l).
Proof. induction l; constructor; auto. Qed.


(** X15.  The constructor of the textured box prepares one attribute
    for each of the 36 vertices that [render] draws, for every box:
    [elements] is 36, positions, normals, tangents and bitangents hold
    3 numbers per vertex and the texture coordinates 2, and the loops
    of [calculateTangentsAndBitangents] leave no hole in either
    array. *)
Theorem texture_box_buffers_cover_the_drawn_vertices (mi ma : Vector) :
  elements mi ma = Num.of_nat 36
  /\ length (vertices mi ma) = 3 * 36
  /\ length normals = 3 * 36
  /\ length uv = 2 * 36
  /\ length (tangents mi ma) = 3 * 36
  /\ length (bitangents mi ma) = 3 * 36
  /\ Forall (fun e => isSome e = true) (tangents mi ma)
  /\ Forall (fun e => isSome e = true) (bitangents mi ma).
Proof.
  split; [unfold elements; cbn [length vertices]; num_eq|].
  do 3 (split; [reflexivity|]).
  unfold tangents, bitangents. rewrite calculate_closed. cbn [fst snd].
  rewrite !length_map, !length_faces.
  repeat split; auto using Forall_isSome_map.
Qed.









Lemma Qc_product_positive (p q p' q' : Qc) :
  (p < p')%Qc -> (q < q')%Qc -> (0 < (p' + - p) * (q' + - q))%Qc.
Proof.
  intros Hp Hq. apply Qclt_minus_iff in Hp. apply Qclt_minus_iff in Hq.
  replace 0%Qc with (0 * (q' + - q))%Qc by ring.
  now apply Qcmult_lt_compat_r.
Qed.

(** X18.  For a box whose minimum corner lies strictly below its
    maximum corner in x, y and z, the three vertices of each of the 12
    triangles share one normal and are listed counterclockwise when
    seen against it: the cross product of the edges from the first
    vertex is that normal scaled by the area of the face, which is
    positive. *)
Theorem triangles_wind_counterclockwise_around_their_normal
    (a b c d a' b' c' d' : Qc) (j : nat) :
  let mi := finVector a b c d in
  let ma := finVector a' b' c' d' in
  let v0 := vertex mi ma (3 * j) in
  let v1 := vertex mi ma (3 * j + 1) in
  let v2 := vertex mi ma (3 * j + 2) in
  let N := attribute normals (3 * j) in
  (a < a')%Qc -> (b < b')%Qc -> (c < c')%Qc ->
  j < 12 ->
  attribute normals (3 * j + 1) = N /\ attribute normals (3 * j + 2) = N
  /\ cross3 (sub3 v1 v0) (sub3 v2 v0) = scale3 (faceArea mi ma N) N
  /\ (Num.zero <? faceArea mi ma N)%num = true.
Proof.
  intros mi ma v0 v1 v2 N Ha Hb Hc Hj. unfold v0, v1, v2, N, mi, ma.
  apply below_cases in Hj. members.
  all: split; [reflexivity|]; split; [reflexivity|]; box_cbn; split; [fin_eq|].
  all: apply Qc_ltb_lt; area_as_product; now apply Qc_product_positive.
Qed.

Lemma Qc_le_ltb (p q : Qc) : (q <= p)%Qc -> Num.Qc_ltb p q = false.
Proof.
  intros Hle. destruct (Num.Qc_ltb p q) eqn:E; [|reflexivity].
  apply Qc_ltb_true in E. exfalso. exact (Qclt_not_le _ _ E Hle).
Qed.

(** X19.  The normal stored for a vertex points out of the box: no
    point of the box lies beyond the plane through the vertex that is
    orthogonal to its normal. *)
Theorem normals_point_out_of_the_box (a b c d a' b' c' d' px py pz : Qc) (k : nat) :
  let mi := finVector a b c d in
  let ma := finVector a' b' c' d' in
  let N := attribute normals k in
  let V := vertex mi ma k in
  (a <= px)%Qc -> (px <= a')%Qc -> (b <= py)%Qc -> (py <= b')%Qc ->
  (c <= pz)%Qc -> (pz <= c')%Qc ->
  k < 36 ->
  (dot3 N V <? dot3 N (Fin px, Fin py, Fin pz))%num = false.
Proof.
  intros mi ma N V Hx Hx' Hy Hy' Hz Hz' Hk. unfold N, V, mi, ma.
  apply below_cases in Hk. members; box_cbn; apply Qc_le_ltb; supporting_plane.
Qed.
End TextureBox.

(* ================================================================== *)
(** ** The properties above at sample inputs *)
(* ================================================================== *)

Lemma scaling_constructor_zero_component_witness :
  let this := Scaling.super (Scaling.new (finVector 0 1 1 0)) in
  Matrix.isFinite (getMatrix this) = true /\
  Matrix.isFinite (getInverseMatrix this) = false /\
  Matrix.mul (getMatrix this) (getInverseMatrix this) <> Matrix.identity /\
  Matrix.mul (getInverseMatrix this) (getMatrix this) <> Matrix.identity.
Proof. apply (scaling_constructor_zero_component 0 1 1 0). now left. Defined.

Lemma traversal_only_improves_the_best_witness :
  exists best',
    RayVisitor.intersection MoreExamples.afterBlueSphere = Some best' /\
    ((best' = Examples.hitOf Examples.afterRedSphere /\
      RayVisitor.intersectionColor MoreExamples.afterBlueSphere
      = RayVisitor.intersectionColor Examples.afterRedSphere) \/
     (Intersection.t best' <? Intersection.t (Examples.hitOf Examples.afterRedSphere))%num
     = true).
Proof.
  apply (@traversal_only_improves_the_best Sample.collaborators
           (SphereNode (Some Examples.blue)) Examples.afterRedSphere
           MoreExamples.afterBlueSphere (Examples.hitOf Examples.afterRedSphere)).
  - vm_compute. reflexivity.
  - vm_compute. reflexivity.
Defined.

Lemma pixel_is_written_witness :
  let this' := MoreExamples.rendered Examples.cameraThenSphere in
  (RayVisitor.intersection this' = None <-> RayVisitor.objectIntersections this' = []) /\
  (RayVisitor.objectIntersections this' = [] -> bufferOf this' = bufferOf Sample.visitor) /\
  (RayVisitor.objectIntersections this' <> [] ->
     exists r g b,
       bufferOf this' = RayVisitor.writePixel 2 0 0 r g b 255 (bufferOf Sample.visitor)).
Proof.
  apply (@pixel_is_written_exactly_when_a_shape_was_hit Sample.collaborators
           Examples.cameraThenSphere Sample.phongValues 2 (0, 0) Sample.visitor
           (MoreExamples.rendered Examples.cameraThenSphere)).
  vm_compute. reflexivity.
Defined.

Lemma shaded_colour_witness :
  let this' := MoreExamples.rendered Examples.cameraThenSphere in
  exists hit objRay node toWorld,
    (hit, objRay, node) ∈ RayVisitor.objectIntersections this' /\
    Examples.hitOf this' = @worldIntersection Sample.collaborators toWorld objRay hit /\
    RayVisitor.intersectionColor this' = Node_color node /\
    match Node_color node with
    | None =>
        bufferOf this' = RayVisitor.writePixel 2 0 0 0 0 0 255 (bufferOf Sample.visitor)
    | Some col =>
        exists cam,
          RayVisitor.camera this' = Some cam /\
          let color := Sample.ambientOnly col (Examples.hitOf this')
                         (RayVisitor.lightPositions this') Sample.phongValues
                         (Camera.origin cam) in
          bufferOf this'
          = RayVisitor.writePixel 2 0 0
              (Num.toUint8Clamp (Vector.r color * Num.of_Z 255))
              (Num.toUint8Clamp (Vector.g color * Num.of_Z 255))
              (Num.toUint8Clamp (Vector.b color * Num.of_Z 255)) 255
              (bufferOf Sample.visitor)
    end.
Proof.
  apply (@shaded_colour_belongs_to_a_node_hit_in_this_pixel Sample.collaborators
           Examples.cameraThenSphere Sample.phongValues 2 (0, 0) Sample.visitor
           (MoreExamples.rendered Examples.cameraThenSphere)
           (Examples.hitOf (MoreExamples.rendered Examples.cameraThenSphere))).
  - vm_compute. reflexivity.
  - vm_compute. reflexivity.
Defined.

Lemma shape_before_camera_throws_witness :
  @RayVisitor.accept Sample.collaborators Examples.sphereThenCamera
     (RayVisitor.resetPixel 0 0 Sample.visitor) = Throws TypeError.
Proof.
  refine (@traversal_throws_exactly_when_a_shape_is_reached_without_a_ray
            Sample.collaborators Examples.sphereThenCamera
            (RayVisitor.resetPixel 0 0 Sample.visitor) _ _); discriminate.
Defined.

Lemma render_throws_witness :
  @RayVisitor.render Sample.collaborators Examples.sphereThenCamera Sample.cameraArgument []
     Sample.phongValues Sample.visitor = Throws TypeError.
Proof.
  apply (@render_throws_exactly_when_a_shape_is_reached_without_a_ray Sample.collaborators
           Examples.sphereThenCamera Sample.cameraArgument [] Sample.phongValues
           Sample.visitor).
  - intros Hr. exfalso. apply Hr. reflexivity.
  - cbn. lia.
  - cbn. lia.
  - reflexivity.
Defined.

Lemma animate_renders_each_pixel_witness :
  let frame := @PhongBoilerplate.animate Sample.collaborators MoreExamples.axisRayOf
                 [MoreExamples.redSphere] Sample.cameraArgument [] Sample.phongValues 2 2
                 (replicate 16 7%Z) in
  length frame = 16 /\
  forall p c, fst p < 2 -> snd p < 2 -> c < 4 ->
    pixelAt 2 frame p c
    = pixelAt 2 (@PhongBoilerplate.animatePixel Sample.collaborators MoreExamples.axisRayOf
                   [MoreExamples.redSphere] Sample.cameraArgument [] Sample.phongValues 2 p
                   (replicate 16 0%Z)) p c.
Proof.
  apply (@animate_renders_each_pixel_on_its_own Sample.collaborators MoreExamples.axisRayOf
           [MoreExamples.redSphere] Sample.cameraArgument [] Sample.phongValues 2 2
           (replicate 16 7%Z)).
  reflexivity.
Defined.

Lemma boilerplate_first_frame_witness :
  snd (@RayBoilerplate.animate Sample.collaborators MoreExamples.noRotation Num.zero
         (RayBoilerplate.initialClock,
          RayBoilerplate.gnRotation MoreExamples.noRotation,
          RayVisitor.constructor (fun _ => 0%Z) 2 2)) = Throws TypeError.
Proof.
  refine (proj1 (@boilerplate_scene_has_no_camera Sample.collaborators
                   MoreExamples.noRotation Num.zero RayBoilerplate.initialClock
                   (RayBoilerplate.gnRotation MoreExamples.noRotation)
                   (fun _ => 0%Z) 2 2) _ _); lia.
Defined.



(** The tangent of the front face of that box is not the edge (0.1, 0,
    0) but its binary32 rounding. *)
Lemma tangent_in_the_buffer_is_rounded :
  RasterTextureBox.attribute
    (RasterTextureBox.tangentBuffer (finVector 0 0 0 1)
       (finVector (Q2Qc (1 # 10)) (Q2Qc 2) (Q2Qc 3) 1)) 4
  = (Num.frac 13421773 134217728, Num.zero, Num.zero).
Proof. vm_compute. triplewise ltac:(num_eq). Qed.

Lemma winding_witness :
  let mi := finVector 0 0 0 1 in
  let ma := finVector 1 (Q2Qc 2) (Q2Qc 3) 1 in
  let v0 := RasterTextureBox.vertex mi ma 15 in
  let v1 := RasterTextureBox.vertex mi ma 16 in
  let v2 := RasterTextureBox.vertex mi ma 17 in
  let N := RasterTextureBox.attribute RasterTextureBox.normals 15 in
  RasterTextureBox.attribute RasterTextureBox.normals 16 = N
  /\ RasterTextureBox.attribute RasterTextureBox.normals 17 = N
  /\ Geometry.cross3 (Geometry.sub3 v1 v0) (Geometry.sub3 v2 v0)
     = Geometry.scale3 (Geometry.faceArea mi ma N) N
  /\ (Num.zero <? Geometry.faceArea mi ma N)%num = true.
Proof.
  apply (triangles_wind_counterclockwise_around_their_normal
           0 0 0 1 1 (Q2Qc 2) (Q2Qc 3) 1 5); [reflexivity|reflexivity|reflexivity|lia].
Defined.

Lemma outward_normal_witness :
  let mi := finVector 0 0 0 1 in
  let ma := finVector 1 (Q2Qc 2) (Q2Qc 3) 1 in
  (Geometry.dot3 (RasterTextureBox.attribute RasterTextureBox.normals 16)
                 (RasterTextureBox.vertex mi ma 16)
   <? Geometry.dot3 (RasterTextureBox.attribute RasterTextureBox.normals 16)
                    (Fin 1, Fin 1, Fin 1))%num = false.
Proof.
  apply (normals_point_out_of_the_box 0 0 0 1 1 (Q2Qc 2) (Q2Qc 3) 1 1 1 1 16);
    try lia; intros E; vm_compute in E; discriminate E.
Defined.
